(** * zapp: disk-image (DMG) builder -- shallow embedding of pkg/mactools/dmg

    The Go package [dmg] assembles a macOS disk image from a list of content
    items.  This development embeds the package in Rocq:

    - path and string helpers of the Go standard library that the package
      relies on ([strings.HasSuffix], [filepath.Base], [filepath.Dir],
      [filepath.Match], [strings.Fields], ...) as executable functions;
    - the external world (file system calls, the [hdiutil] tool, spawned
      processes, the layout-metadata writer) as an oracle that answers every
      call from the history of earlier calls, threaded through a small
      state monad that records the calls in a trace;
    - directory trees as an inductive type, so that the recursive copy
      functions and [filepath.Walk] are structural recursions;
    - IEEE binary64 arithmetic of the size estimators through the
      Standard Library's [SpecFloat]. *)

From Stdlib Require Import ZArith Lia List String Ascii Bool QArith.
From Stdlib Require Import Floats.SpecFloat.
From stdpp Require Import base gmap sets list strings pretty.

Import ListNotations.
Set Warnings "-register-all,-clear-no-such-hyp".
#[local] Open Scope Z_scope.
#[local] Open Scope string_scope.

(* ===================================================================== *)
(** ** Strings and paths *)
(* ===================================================================== *)

Module GoString.

Definition slash : ascii := "/"%char.

Definition isSlash (c : ascii) : bool := Ascii.eqb c slash.

Definition chars (s : string) : list ascii := list_ascii_of_string s.
Definition str (l : list ascii) : string := string_of_list_ascii l.

(** [strings.HasPrefix] on the byte lists. *)
Fixpoint hasPrefixL (l p : list ascii) : bool :=
  match p, l with
  | [], _ => true
  | _ :: _, [] => false
  | c :: p', d :: l' => Ascii.eqb c d && hasPrefixL l' p'
  end.

Definition HasPrefix (s p : string) : bool := hasPrefixL (chars s) (chars p).

(** [strings.HasSuffix(s, suffix)]. *)
Definition HasSuffix (s suffix : string) : bool :=
  hasPrefixL (rev (chars s)) (rev (chars suffix)).

(** [strings.Contains(s, substr)]. *)
Fixpoint containsL (l p : list ascii) : bool :=
  hasPrefixL l p ||
  match l with
  | [] => false
  | _ :: l' => containsL l' p
  end.

Definition Contains (s sub : string) : bool := containsL (chars s) (chars sub).

(** Drop the longest prefix whose characters satisfy [f]. *)
Fixpoint dropWhile (f : ascii -> bool) (l : list ascii) : list ascii :=
  match l with
  | [] => []
  | c :: l' => if f c then dropWhile f l' else l
  end.

Fixpoint takeWhile (f : ascii -> bool) (l : list ascii) : list ascii :=
  match l with
  | [] => []
  | c :: l' => if f c then c :: takeWhile f l' else []
  end.

(** Split a byte list at every character satisfying [sep]
    ([strings.Split] for a one-byte separator): the pieces between
    separators, empty pieces included. *)
Fixpoint splitOn (sep : ascii -> bool) (l : list ascii) : list (list ascii) :=
  match l with
  | [] => [[]]
  | c :: l' =>
      match splitOn sep l' with
      | [] => [[]]
      | piece :: rest =>
          if sep c then [] :: piece :: rest else (c :: piece) :: rest
      end
  end.

Definition isNewline (c : ascii) : bool := Ascii.eqb c "010"%char.

(** ASCII white space as [unicode.IsSpace] sees it on single bytes. *)
Definition isSpace (c : ascii) : bool :=
  let n := nat_of_ascii c in
  (Nat.eqb n 32 || (Nat.leb 9 n && Nat.leb n 13))%bool.

(** [strings.Split(s, "\n")]. *)
Definition Lines (s : string) : list string :=
  map str (splitOn isNewline (chars s)).

(** [strings.Fields(s)]: the maximal runs of non-space characters. *)
Definition Fields (s : string) : list string :=
  map str (filter (fun p => negb (Nat.eqb (length p) 0))
                  (splitOn isSpace (chars s))).

(** [filepath.Base(path)] on a Unix path. *)
Definition Base (path : string) : string :=
  match chars path with
  | [] => "."
  | l =>
      let stripped := rev (dropWhile isSlash (rev l)) in
      let last := rev (takeWhile (fun c => negb (isSlash c)) (rev stripped)) in
      match last with
      | [] => "/"
      | _ => str last
      end
  end.

(** One step of [filepath.Clean]'s component processing: [out] is the
    stack of kept components, innermost first. *)
Definition cleanStep (rooted : bool) (out : list (list ascii))
           (comp : list ascii) : list (list ascii) :=
  if (Nat.eqb (length comp) 0 || String.eqb (str comp) ".")%bool then out
  else if String.eqb (str comp) ".." then
    match out with
    | top :: out' =>
        if String.eqb (str top) ".." then comp :: out else out'
    | [] => if rooted then [] else [comp]
    end
  else comp :: out.

Fixpoint joinSlash (l : list (list ascii)) : list ascii :=
  match l with
  | [] => []
  | [x] => x
  | x :: rest => x ++ slash :: joinSlash rest
  end.

(** [filepath.Clean(path)] on a Unix path. *)
Definition Clean (path : string) : string :=
  match chars path with
  | [] => "."
  | c :: _ =>
      let rooted := isSlash c in
      let kept := rev (fold_left (cleanStep rooted)
                                 (splitOn isSlash (chars path)) []) in
      match kept, rooted with
      | [], true => "/"
      | [], false => "."
      | _, true => str (slash :: joinSlash kept)
      | _, false => str (joinSlash kept)
      end
  end.

(** [filepath.Dir(path)] on a Unix path: everything up to the last
    separator, cleaned. *)
Definition Dir (path : string) : string :=
  let l := chars path in
  Clean (str (rev (dropWhile (fun c => negb (isSlash c)) (rev l)))).

End GoString.

Example Base_examples :
  GoString.Base "/Applications" = "Applications" /\
  GoString.Base "build/MyApp.app/" = "MyApp.app" /\
  GoString.Base "" = "." /\ GoString.Base "///" = "/".
Proof. repeat split; reflexivity. Qed.

Example Dir_examples :
  GoString.Dir "out/My.dmg" = "out" /\ GoString.Dir "My.dmg" = "." /\
  GoString.Dir "/a/b/../c/x" = "/a/c" /\ GoString.Dir "/x" = "/".
Proof. repeat split; reflexivity. Qed.

Example HasSuffix_examples :
  GoString.HasSuffix "a.dmg" ".dmg" = true /\
  GoString.HasSuffix "dmg" ".dmg" = false /\
  GoString.HasSuffix "x" "" = true.
Proof. repeat split; reflexivity. Qed.

Example Fields_example :
  GoString.Fields "/dev/disk4s1  Apple_HFS	/Volumes/My App" =
  ["/dev/disk4s1"; "Apple_HFS"; "/Volumes/My"; "App"].
Proof. reflexivity. Qed.

(* ===================================================================== *)
(** ** Data model *)
(* ===================================================================== *)

(** A file-system location.  [P s] is a path given as a string (an item's
    source path, the output file name, a directory handed out by
    [os.MkdirTemp]); [Join d n] is [filepath.Join(d, n)] for a single path
    element [n].  The lexical normalisation that [filepath.Join] performs on
    its result is left symbolic: [Join d "."] is another way of writing the
    location [d], and [Join d ".."] one of writing its parent. *)
Inductive path : Type :=
| P (s : string)
| Join (d : path) (n : string).

Fixpoint pstr (p : path) : string :=
  match p with
  | P s => s
  | Join d n => pstr d ++ "/" ++ n
  end.

(** [filepath.Dir] of a location. *)
Definition pathDir (p : path) : path :=
  match p with
  | P s => P (GoString.Dir s)
  | Join d _ => d
  end.

#[global] Instance path_eq_dec : EqDecision path.
Proof. solve_decision. Defined.

(** [type ItemType string] with its three constants.  Every string is a
    value of the type; the package compares an item's type with the
    constants and does nothing else with it. *)
Definition ItemType : Type := string.

Definition Dir : ItemType := "dir".
Definition File : ItemType := "file".
Definition Link : ItemType := "link".

(** [type Item struct]. *)
Record Item : Type := mkItem {
  X : Z;
  Y : Z;
  Type_ : ItemType;
  Path : string
}.

(** [hdiutil.Format] is a string type; the command line passes the flag
    value through [hdiutil.Format(dmgFormat)], so the constants are the
    format names themselves and the zero value is the empty string. *)
Definition Format : Type := string.
Definition UDRW : Format := "UDRW".
Definition UDRO : Format := "UDRO".
Definition UDZO : Format := "UDZO".
Definition UDBZ : Format := "UDBZ".

(** [type Config struct].  [LogWriter] is [None] for a nil writer and names
    the sink otherwise. *)
Record Config : Type := mkConfig {
  FileName : string;
  Title : string;
  Icon : string;
  LabelSize : Z;
  ContentsIconSize : Z;
  WindowWidth : Z;
  WindowHeight : Z;
  Background : string;
  Contents : list Item;
  LogWriter : option string;
  Format_ : Format;
  CompressionLevel : string;
  UseHardLinks : bool;
  OptimizeAppSize : bool
}.

Definition setFileName (c : Config) (f : string) : Config :=
  mkConfig f (Title c) (Icon c) (LabelSize c) (ContentsIconSize c)
           (WindowWidth c) (WindowHeight c) (Background c) (Contents c)
           (LogWriter c) (Format_ c) (CompressionLevel c) (UseHardLinks c)
           (OptimizeAppSize c).

Definition setFormat (c : Config) (f : Format) : Config :=
  mkConfig (FileName c) (Title c) (Icon c) (LabelSize c) (ContentsIconSize c)
           (WindowWidth c) (WindowHeight c) (Background c) (Contents c)
           (LogWriter c) f (CompressionLevel c) (UseHardLinks c)
           (OptimizeAppSize c).

Definition setLogWriter (c : Config) (w : option string) : Config :=
  mkConfig (FileName c) (Title c) (Icon c) (LabelSize c) (ContentsIconSize c)
           (WindowWidth c) (WindowHeight c) (Background c) (Contents c)
           w (Format_ c) (CompressionLevel c) (UseHardLinks c)
           (OptimizeAppSize c).

(** What the file system shows at a location: a non-directory entry with its
    size in bytes, a directory with its listing ([readable = false] when the
    listing cannot be read), or nothing that can be stat'ed (a dangling
    link, a vanished or inaccessible entry). *)
Inductive Node : Type :=
| NFile (size : Z)
| NDir (readable : bool) (entries : list (string * Node))
| NGone.

(** The layout-metadata store of package [dsstore], as the settings made on
    it. *)
Record DSStore : Type := mkStore {
  ds_iconSize : Z;
  ds_window : Z * Z * Z * Z;
  ds_labelSize : Z;
  ds_labelBottom : bool;
  ds_background : option path;
  ds_iconPos : list (string * Z * Z)
}.

Definition NewDSStore : DSStore := mkStore 0 (0, 0, 0, 0) 0 false None [].

Definition SetIconSize (s : DSStore) (v : Z) : DSStore :=
  mkStore v (ds_window s) (ds_labelSize s) (ds_labelBottom s)
          (ds_background s) (ds_iconPos s).
Definition SetWindow (s : DSStore) (w h x y : Z) : DSStore :=
  mkStore (ds_iconSize s) (w, h, x, y) (ds_labelSize s) (ds_labelBottom s)
          (ds_background s) (ds_iconPos s).
Definition SetLabelSize (s : DSStore) (v : Z) : DSStore :=
  mkStore (ds_iconSize s) (ds_window s) v (ds_labelBottom s)
          (ds_background s) (ds_iconPos s).
Definition SetLabelPlaceToBottom (s : DSStore) (b : bool) : DSStore :=
  mkStore (ds_iconSize s) (ds_window s) (ds_labelSize s) b
          (ds_background s) (ds_iconPos s).
Definition SetBgToDefault (s : DSStore) : DSStore :=
  mkStore (ds_iconSize s) (ds_window s) (ds_labelSize s) (ds_labelBottom s)
          None (ds_iconPos s).
Definition SetBackgroundImage (s : DSStore) (p : path) : DSStore :=
  mkStore (ds_iconSize s) (ds_window s) (ds_labelSize s) (ds_labelBottom s)
          (Some p) (ds_iconPos s).
(** [uint32(v)] of an [int]. *)
Definition uint32 (v : Z) : Z := v mod 2 ^ 32.
Definition SetIconPos (s : DSStore) (name : string) (x y : Z) : DSStore :=
  mkStore (ds_iconSize s) (ds_window s) (ds_labelSize s) (ds_labelBottom s)
          (ds_background s) (ds_iconPos s ++ [(name, x, y)])%list.

(** The store every build variant prepares: icon size, window, label size,
    label below the icon, default background, one position per item keyed
    by the base name of its source path. *)
Definition layoutStore (config : Config) : DSStore :=
  let s := SetIconSize NewDSStore (ContentsIconSize config) in
  let s := SetWindow s (WindowWidth config) (WindowHeight config) 0 0 in
  let s := SetLabelSize s (LabelSize config) in
  let s := SetLabelPlaceToBottom s true in
  let s := SetBgToDefault s in
  fold_left (fun s content =>
               SetIconPos s (GoString.Base (Path content))
                          (uint32 (X content)) (uint32 (Y content)))
            (Contents config) s.

(* ===================================================================== *)
(** ** The external world *)
(* ===================================================================== *)

(** Every operation the package performs on its environment. *)
Inductive Call : Type :=
| OsMkdirTemp (pattern : string)
| OsMkdirAll (p : path)
| OsRemoveAll (p : path)
| OsRemove (p : path)
| OsRename (old new : path)
| OsLink (src dst : path)
| OsSymlink (target : string) (dst : path)
| OsOpen (p : path)
| OsCreate (p : path)
| IoCopyBuffer (src dst : path)
| OsWriteFile (p : path) (data : string)
| OsStat (p : path)
| FilepathGlob (dir : path) (pattern : string)
| TimeNowUnixNano
| HdiutilCreate (title : string) (src : path) (format : Format) (out : path)
| HdiutilCreateWithSize (title : string) (src : path) (format : Format)
                        (out : path) (sizeMB : Z)
| HdiutilAttach (image mountPoint : path)
| HdiutilDetach (mountPoint : path)
| HdiutilConvert (src : path) (format : Format) (out : path)
| Exec (name : string) (args : list string)
| DSStoreWrite (store : DSStore) (p : path)
| Print (sink : string) (text : string).

(** The answer to a call: success with the values it yields (a created
    directory, a tool's combined output, the matches of a glob, a clock
    reading), or an error with its message. *)
Inductive Reply : Type :=
| ROk (out : list string)
| RErr (msg : string).

Definition Trace : Type := list (Call * Reply).

(** The world answers a call knowing everything that happened before, and
    shows a directory tree at every location: [w_stat] follows links (what
    [os.Stat] and [os.ReadDir] report to the copy functions), [w_lstat] does
    not (what [filepath.Walk] reports). *)
Record World : Type := mkWorld {
  w_reply : Trace -> Call -> Reply;
  w_stat : Trace -> path -> Node;
  w_lstat : Trace -> path -> Node
}.

(** Go's [error]: [None] is [nil]. *)
Definition error : Type := option string.

Definition Errorf (context : string) (e : string) : error :=
  Some (context ++ e).

(** Computations over the world: the trace of calls made so far, oldest
    first, is the state. *)
Definition M (A : Type) : Type := World -> Trace -> A * Trace.

Definition ret {A} (a : A) : M A := fun _ t => (a, t).

Definition bind {A B} (m : M A) (k : A -> M B) : M B :=
  fun w t => let (a, t') := m w t in k a w t'.

Declare Scope m_scope.
Delimit Scope m_scope with M.
Notation "x <- m ;; k" := (bind m (fun x => k))
  (at level 100, m at level 99, k at level 200, right associativity) : m_scope.
Notation "m ;;; k" := (bind m (fun _ => k))
  (at level 100, k at level 200, right associativity) : m_scope.
#[local] Open Scope m_scope.

Definition call (c : Call) : M Reply :=
  fun w t => let r := w_reply w t c in (r, (t ++ [(c, r)])%list).

Definition statM (p : path) : M Node := fun w t => (w_stat w t p, t).
Definition lstatM (p : path) : M Node := fun w t => (w_lstat w t p, t).

(** A call whose only interesting outcome is its error. *)
Definition callE (c : Call) : M error :=
  r <- call c ;;
  ret (match r with ROk _ => None | RErr e => Some e end).

(** [defer cleanup] registered before [body]: the cleanup runs when the body
    has produced the function's result, and does not change it. *)
Definition deferring {A} (cleanup : M unit) (body : M A) : M A :=
  a <- body ;; cleanup ;;; ret a.

Definition ignore {A} (m : M A) : M unit := m ;;; ret tt.

Definition run {A} (m : M A) (w : World) : A * Trace := m w [].

(** First value of a successful reply. *)
Definition outStr (out : list string) : string :=
  match out with
  | [] => ""
  | s :: _ => s
  end.

(** Loop over a list until the body returns an error. *)
Fixpoint forEachE {A} (l : list A) (body : A -> M error) : M error :=
  match l with
  | [] => ret None
  | a :: l' =>
      e <- body a ;;
      match e with
      | Some _ => ret e
      | None => forEachE l' body
      end
  end.

(** Loop over a list whose body cannot stop the loop. *)
Fixpoint forEach {A} (l : list A) (body : A -> M unit) : M unit :=
  match l with
  | [] => ret tt
  | a :: l' => body a ;;; forEach l' body
  end.

(* ===================================================================== *)
(** ** The package: helpers and the mount orchestrator *)
(* ===================================================================== *)

(** [copyFile(src, dst)]: open the source, make sure the destination's
    directory exists, create the destination, copy the bytes.  (Closing the
    two files is deferred and its outcome is not looked at.) *)
Definition copyFile (src dst : path) : M error :=
  e <- callE (OsOpen src) ;;
  match e with
  | Some _ => ret e
  | None =>
      e <- callE (OsMkdirAll (pathDir dst)) ;;
      match e with
      | Some _ => ret e
      | None =>
          e <- callE (OsCreate dst) ;;
          match e with
          | Some _ => ret e
          | None => callE (IoCopyBuffer src dst)
          end
      end
  end.

(** [forceDetachDMG(ctx, dmgPath)]: ask [hdiutil info] for the mounted
    volumes and detach every one whose line names the image file.  Nothing
    is returned; every failure is dropped. *)
Definition forceDetachDMG (dmgPath : path) : M unit :=
  r <- call (Exec "hdiutil" ["info"]) ;;
  match r with
  | RErr _ => ret tt
  | ROk output =>
      forEach (GoString.Lines (outStr output)) (fun line =>
        if (GoString.Contains line (pstr dmgPath)
            && GoString.Contains line "/Volumes/")%bool
        then
          match GoString.Fields line with
          | _ :: _ :: mountPoint :: _ =>
              ignore (call (HdiutilDetach (P mountPoint)))
          | _ => ret tt
          end
        else ret tt)
  end.

(** The deferred function of [tmpMount]: the primary detach, and on its
    failure a warning and the forced-detach pass. *)
Definition detachDeferred (dmgPath mountPoint : path) : M unit :=
  r <- call (HdiutilDetach mountPoint) ;;
  match r with
  | ROk _ => ret tt
  | RErr detachErr =>
      call (Print "stdout"
                  ("Warning: failed to detach DMG: " ++ detachErr)) ;;;
      forceDetachDMG dmgPath
  end.

(** [tmpMount(dmgPath, process)]. *)
Definition tmpMount (dmgPath : path) (process : path -> path -> M error)
  : M error :=
  r <- call (OsMkdirTemp "*-zapp-dmg") ;;
  match r with
  | RErr e => ret (Errorf "failed to create temporary directory: " e)
  | ROk out =>
      let tempDir := P (outStr out) in
      deferring (ignore (call (OsRemoveAll tempDir)))
        (let mountPoint := Join tempDir "mount" in
         r <- call (HdiutilAttach dmgPath mountPoint) ;;
         match r with
         | RErr e => ret (Errorf "failed to attach DMG: " e)
         | ROk _ =>
             deferring (detachDeferred dmgPath mountPoint)
                       (process dmgPath mountPoint)
         end)
  end.

(** A spawned tool whose failure becomes an error with the given context
    (the tool's combined output is part of the message). *)
Definition execE (context : string) (name : string) (args : list string)
  : M error :=
  r <- call (Exec name args) ;;
  ret (match r with ROk _ => None | RErr e => Errorf context e end).

(** Sequencing of fallible steps: stop at the first error. *)
Definition andThen (m : M error) (k : M error) : M error :=
  e <- m ;;
  match e with
  | Some _ => ret e
  | None => k
  end.

(** An error wrapped with context, [fmt.Errorf("...: %w", err)]. *)
Definition wrap (context : string) (m : M error) : M error :=
  e <- m ;;
  ret (match e with Some msg => Errorf context msg | None => None end).

(** [setDMGIcon(mountPoint, iconPath)]. *)
Definition setDMGIcon (mountPoint : path) (iconPath : string) : M error :=
  let iconFile := Join mountPoint ".VolumeIcon.icns" in
  andThen (wrap "failed to copy icon to mount point: "
                (copyFile (P iconPath) iconFile))
  (andThen (execE "failed to set icon: " "SetFile"
                  ["-c"; "icnC"; pstr iconFile])
           (execE "failed to set icon: " "SetFile"
                  ["-a"; "C"; pstr mountPoint])).

(** [setFileIcon(dmgPath, iconPath)]. *)
Definition setFileIcon (dmgPath : path) (iconPath : string) : M error :=
  r <- call (OsMkdirTemp "*-zapp-dmg") ;;
  match r with
  | RErr e => ret (Errorf "failed to create temporary directory: " e)
  | ROk out =>
      let tempDir := P (outStr out) in
      deferring (ignore (call (OsRemoveAll tempDir)))
        (let tempIconPath := Join tempDir "icon.icns" in
         andThen (wrap "failed to copy icon: "
                       (copyFile (P iconPath) tempIconPath))
         (andThen (execE "failed to set icon: " "sips"
                         ["-i"; pstr tempIconPath])
          (r <- call (Exec "DeRez" ["-only"; "icns"; pstr tempIconPath]) ;;
           match r with
           | RErr e => ret (Errorf "failed to DeRez icon: " e)
           | ROk output =>
               let rsrcPath := Join tempDir "icns.rsrc" in
               andThen (wrap "failed to write icns.rsrc: "
                             (callE (OsWriteFile rsrcPath (outStr output))))
               (andThen (execE "failed to append icns.rsrc: " "Rez"
                               ["-append"; pstr rsrcPath; "-o"; pstr dmgPath])
                        (execE "failed to set icon: " "SetFile"
                               ["-a"; "C"; pstr dmgPath]))
           end)))
  end.

Definition nonEmpty (s : string) : bool := negb (String.eqb s "").

(** The customization callback that [createCompressedDMG],
    [createCompressedDMGDirect] and [createCompressedDMGWithSize] each pass
    to [tmpMount] (the three closures are the same code). *)
Definition customizeVolume (config : Config) (dmgFilePath mountPoint : path)
  : M error :=
  andThen
    (if nonEmpty (Icon config)
     then wrap "failed to set DMG icon: " (setDMGIcon mountPoint (Icon config))
     else ret None)
    (if nonEmpty (Background config) then
       let backgroundDir := Join mountPoint ".background" in
       andThen (wrap "failed to create .background directory: "
                     (callE (OsMkdirAll backgroundDir)))
       (andThen (wrap "failed to copy background: "
                      (copyFile (P (Background config))
                                (Join backgroundDir "background.png")))
                (let store :=
                   SetBackgroundImage
                     (layoutStore config)
                     (Join (Join mountPoint ".background") "background.png") in
                 wrap "failed to write .DS_Store: "
                      (callE (DSStoreWrite store (Join mountPoint ".DS_Store")))))
     else ret None).

(* ===================================================================== *)
(** ** Directory trees: the recursive copy functions *)
(* ===================================================================== *)

(** [filepath.Match(pattern, name)] for the patterns the package uses:
    literal characters and [*], which matches any run of non-separator
    characters. *)
Fixpoint matchL (pattern name : list ascii) : bool :=
  match pattern with
  | [] => match name with [] => true | _ => false end
  | c :: pattern' =>
      if Ascii.eqb c "*"%char then
        (fix star (n : list ascii) : bool :=
           matchL pattern' n ||
           match n with
           | [] => false
           | d :: n' => negb (GoString.isSlash d) && star n'
           end) name
      else
        match name with
        | [] => false
        | d :: name' => Ascii.eqb c d && matchL pattern' name'
        end
  end.

Definition Match (pattern name : string) : bool :=
  matchL (GoString.chars pattern) (GoString.chars name).

(** The exclusion list of [smartCopyDir]. *)
Definition excludePatterns : list string :=
  [".DS_Store"; "__MACOSX"; ".Trashes"; ".fseventsd"; ".Spotlight-V100";
   ".TemporaryItems"; "*.tmp"; "*.log"; "*.cache"].

Definition shouldExclude (name : string) : bool :=
  existsb (fun pattern => Match pattern name) excludePatterns.

Example shouldExclude_examples :
  shouldExclude ".DS_Store" = true /\ shouldExclude "__MACOSX" = true /\
  shouldExclude "build.log" = true /\ shouldExclude "Info.plist" = false /\
  shouldExclude ".DS_Store2" = false /\ shouldExclude "tmp" = false.
Proof. repeat split; reflexivity. Qed.

(** A hard link to the original, and a full copy of that file when the link
    cannot be made. *)
Definition linkOrCopy (src dst : path) : M error :=
  e <- callE (OsLink src dst) ;;
  match e with
  | None => ret None
  | Some _ => copyFile src dst
  end.

(** The loop over the entries of a directory that [copyDir],
    [copyDirWithHardLinks] and [smartCopyDir] share: an entry is passed over
    when it is to be skipped or when its kind cannot be determined, a
    directory is copied by the recursive call [rec], any other entry is
    staged by [leaf].  The first error ends the loop. *)
Definition copyEntries (skip : string -> bool) (leaf : path -> path -> M error)
           (rec : Node -> path -> path -> M error) (src dst : path)
  : list (string * Node) -> M error :=
  fix loop (l : list (string * Node)) : M error :=
    match l with
    | [] => ret None
    | (name, child) :: l' =>
        if skip name then loop l'
        else
          let srcPath := Join src name in
          let dstPath := Join dst name in
          match child with
          | NGone => loop l'
          | NDir _ _ => andThen (rec child srcPath dstPath) (loop l')
          | NFile _ => andThen (leaf srcPath dstPath) (loop l')
          end
    end.

(** The common shape of [copyDir], [copyDirWithHardLinks] and
    [smartCopyDir]: stat the source, create the destination directory, list
    the source, loop over the entries.  [node] is what the file system
    shows at [src]. *)
Fixpoint copyTree (skip : string -> bool) (leaf : path -> path -> M error)
         (node : Node) (src dst : path) {struct node} : M error :=
  match node with
  | NGone => ret (Errorf "stat " (pstr src))
  | NFile _ =>
      andThen (callE (OsMkdirAll dst))
              (ret (Errorf "readdir " (pstr src)))
  | NDir readable entries =>
      andThen (callE (OsMkdirAll dst))
        (if readable then
           copyEntries skip leaf
                       (fun child s d => copyTree skip leaf child s d)
                       src dst entries
         else ret (Errorf "readdir " (pstr src)))
  end.

(** [copyDir(src, dst)]. *)
Definition copyDirFrom : Node -> path -> path -> M error :=
  copyTree (fun _ => false) copyFile.
Definition copyDir (src dst : path) : M error :=
  node <- statM src ;; copyDirFrom node src dst.

(** [copyDirWithHardLinks(src, dst)]. *)
Definition copyDirWithHardLinksFrom : Node -> path -> path -> M error :=
  copyTree (fun _ => false) linkOrCopy.
Definition copyDirWithHardLinks (src dst : path) : M error :=
  node <- statM src ;; copyDirWithHardLinksFrom node src dst.

(** [smartCopyDir(src, dst)] and [smartCopyAppBundle(src, dst)]. *)
Definition smartCopyDirFrom : Node -> path -> path -> M error :=
  copyTree shouldExclude copyFile.
Definition smartCopyDir (src dst : path) : M error :=
  node <- statM src ;; smartCopyDirFrom node src dst.
Definition smartCopyAppBundle (src dst : path) : M error :=
  smartCopyDir src dst.

(* ===================================================================== *)
(** ** The content stagers *)
(* ===================================================================== *)

(** [optimizeAppBundle(appPath)]: always returns nil. *)
Definition optimizeAppBundle (appPath : path) : M error :=
  let filesToRemove :=
    [Join (Join (Join appPath "Contents") "_CodeSignature") "CodeResources";
     Join appPath ".DS_Store";
     Join (Join appPath "Contents") ".DS_Store"] in
  let tempDirs :=
    [Join (Join appPath "Contents") "MacOS";
     Join (Join appPath "Contents") "Resources";
     Join (Join appPath "Contents") "Frameworks"] in
  forEach filesToRemove (fun file =>
    node <- statM file ;;
    match node with
    | NGone => ret tt
    | _ => ignore (call (OsRemove file))
    end) ;;;
  forEach tempDirs (fun dir =>
    r <- call (FilepathGlob dir "*.tmp") ;;
    match r with
    | ROk matches => forEach matches (fun m => ignore (call (OsRemove (P m))))
    | RErr _ => ret tt
    end) ;;;
  ret None.

Definition isAppDir (item : Item) : bool :=
  String.eqb (Type_ item) Dir && GoString.HasSuffix (Path item) ".app".

(** The background image is always materialised as a real file. *)
Definition stageBackground (wrapCopy : string) (config : Config) (dir : path)
  : M error :=
  if nonEmpty (Background config) then
    let backgroundDir := Join dir ".background" in
    andThen (wrap "failed to create .background directory: "
                  (callE (OsMkdirAll backgroundDir)))
            (wrap wrapCopy
                  (copyFile (P (Background config))
                            (Join backgroundDir "background.png")))
  else ret None.

(** The staging of one item by [setupSourceDirectory]: the body of the
    loop, a [switch item.Type] with the cases [File], [Dir] and [Link] and
    no default, so that an item of any other type is passed over. *)
Definition setupItem (config : Config) (sourceDir : path) (item : Item)
  : M error :=
  let src := P (Path item) in
  let destPath := Join sourceDir (GoString.Base (Path item)) in
  if String.eqb (Type_ item) File then
    if UseHardLinks config then
      e <- callE (OsLink src destPath) ;;
      match e with
      | None => ret None
      | Some _ =>
          wrap ("failed to copy file " ++ Path item ++ " to "
                ++ pstr destPath ++ ": ")
               (copyFile src destPath)
      end
    else
      wrap ("failed to copy file " ++ Path item ++ " to "
            ++ pstr destPath ++ ": ")
           (copyFile src destPath)
  else if String.eqb (Type_ item) Dir then
    if UseHardLinks config then
      e <- copyDirWithHardLinks src destPath ;;
      match e with
      | None => ret None
      | Some _ =>
          wrap ("failed to copy dir " ++ Path item ++ " to "
                ++ pstr destPath ++ ": ")
               (copyDir src destPath)
      end
    else if GoString.HasSuffix (Path item) ".app" then
      wrap ("failed to smart copy app bundle " ++ Path item ++ " to "
            ++ pstr destPath ++ ": ")
           (smartCopyAppBundle src destPath)
    else
      wrap ("failed to copy dir " ++ Path item ++ " to "
            ++ pstr destPath ++ ": ")
           (copyDir src destPath)
  else if String.eqb (Type_ item) Link then
    wrap ("failed to create symbolic link " ++ Path item ++ ": ")
         (callE (OsSymlink (Path item) destPath))
  else ret None.

(** [setupSourceDirectory(config, sourceDir)]. *)
Definition setupSourceDirectory (config : Config) (sourceDir : path)
  : M error :=
  (if OptimizeAppSize config then
     forEach (Contents config) (fun item =>
       if isAppDir item then
         e <- optimizeAppBundle (P (Path item)) ;;
         match e, LogWriter config with
         | Some msg, Some sink =>
             ignore (call (Print sink
                             ("Warning: failed to optimize app bundle "
                              ++ Path item ++ ": " ++ msg)))
         | _, _ => ret tt
         end
       else ret tt)
   else ret tt) ;;;
  andThen (forEachE (Contents config) (setupItem config sourceDir))
          (stageBackground "failed to copy background: " config sourceDir).

(** The staging of one item by [createSymbolicLinks]; again a switch
    without a default. *)
Definition symlinkItem (tempDir : path) (item : Item) : M error :=
  let destPath := Join tempDir (GoString.Base (Path item)) in
  if String.eqb (Type_ item) File then
    wrap ("failed to create symbolic link for file " ++ Path item ++ ": ")
         (callE (OsSymlink (Path item) destPath))
  else if String.eqb (Type_ item) Dir then
    wrap ("failed to create symbolic link for directory "
          ++ Path item ++ ": ")
         (callE (OsSymlink (Path item) destPath))
  else if String.eqb (Type_ item) Link then
    wrap ("failed to create symbolic link " ++ Path item ++ ": ")
         (callE (OsSymlink (Path item) destPath))
  else ret None.

(** [createSymbolicLinks(config, tempDir)]. *)
Definition createSymbolicLinks (config : Config) (tempDir : path) : M error :=
  andThen (forEachE (Contents config) (symlinkItem tempDir))
          (stageBackground "failed to copy background: " config tempDir).

(** The staging of one item by [createDMGWithSafeHardLinks]; again a
    switch without a default. *)
Definition safeItem (safeTempDir : path) (item : Item) : M error :=
  let src := P (Path item) in
  let destPath := Join safeTempDir (GoString.Base (Path item)) in
  if String.eqb (Type_ item) File then
    e <- callE (OsLink src destPath) ;;
    match e with
    | None => ret None
    | Some _ =>
        wrap ("failed to copy file " ++ Path item ++ ": ")
             (copyFile src destPath)
    end
  else if String.eqb (Type_ item) Dir then
    wrap ("failed to smart copy dir " ++ Path item ++ ": ")
         (smartCopyAppBundle src destPath)
  else if String.eqb (Type_ item) Link then
    wrap ("failed to create symlink " ++ Path item ++ ": ")
         (callE (OsSymlink (Path item) destPath))
  else ret None.

(** The staging loop of [createDMGWithSafeHardLinks]. *)
Definition safeStage (config : Config) (safeTempDir : path) : M error :=
  forEachE (Contents config) (safeItem safeTempDir).

(* ===================================================================== *)
(** ** Machine arithmetic of the size estimators *)
(* ===================================================================== *)

(** [int64] (and [int] on the 64-bit targets macOS runs on): a value is kept
    in [-2^63, 2^63) by wrapping. *)
Definition wrap64 (z : Z) : Z := (z + 2 ^ 63) mod 2 ^ 64 - 2 ^ 63.
Definition add64 (a b : Z) : Z := wrap64 (a + b).

Definition MiB : Z := 1024 * 1024.

(** [float64]: IEEE binary64, 53 bits of precision. *)
Definition float64 : Type := spec_float.
Definition f64_prec : Z := 53.
Definition f64_emax : Z := 1024.

(** [float64(n)] for an integer [n]: rounded to nearest even. *)
Definition float64_of_int (n : Z) : float64 :=
  binary_normalize f64_prec f64_emax n 0 false.

Definition f64_mul (x y : float64) : float64 := SFmul f64_prec f64_emax x y.

(** The constant [0.5] is 2^52 * 2^-53. *)
Definition f64_0_5 : float64 := S754_finite false (2 ^ 52) (-53).
(** The constant [0.2] is the nearest binary64, 0x3FC999999999999A, that is
    7205759403792794 * 2^-55. *)
Definition f64_0_2 : float64 := S754_finite false 7205759403792794 (-55).

(** [int(x)] for a [float64]: the fraction is discarded (truncation towards
    zero).  A value that does not fit, an infinity or a NaN converts to the
    smallest [int64], as the conversion instruction of the hardware does. *)
Definition int_of_float64 (x : float64) : Z :=
  match x with
  | S754_zero _ => 0
  | S754_finite s m e =>
      let v := if (0 <=? e)%Z then Z.pos m * 2 ^ e
               else Z.quot (Z.pos m) (2 ^ (- e)) in
      let v := if s then - v else v in
      if ((- 2 ^ 63 <=? v)%Z && (v <? 2 ^ 63)%Z)%bool then v else - 2 ^ 63
  | _ => - 2 ^ 63
  end.

Example float_examples :
  int_of_float64 (f64_mul (float64_of_int 135) f64_0_5) = 67 /\
  int_of_float64 (f64_mul (float64_of_int 104) f64_0_2) = 20 /\
  int_of_float64 (f64_mul (float64_of_int 105) f64_0_2) = 21 /\
  int_of_float64 (f64_mul (float64_of_int 0) f64_0_2) = 0 /\
  int_of_float64 (f64_mul (float64_of_int (-7)) f64_0_5) = -3.
Proof. repeat split; vm_compute; reflexivity. Qed.

(* ===================================================================== *)
(** ** The size estimators *)
(* ===================================================================== *)

(** [filepath.Walk(root, fn)] with the callback both estimators use: an
    error reported for an entry stops the walk, a non-directory adds its
    size to the running [int64] total.  [node] is what [os.Lstat] and the
    directory listings show at [p]; the result is the total and the walk's
    error. *)
Definition walkEntries (rec : Node -> path -> Z -> Z * error) (p : path)
  : list (string * Node) -> Z -> Z * error :=
  fix loop (l : list (string * Node)) (total : Z) : Z * error :=
    match l with
    | [] => (total, None)
    | (name, child) :: l' =>
        let (total', e) := rec child (Join p name) total in
        match e with
        | Some _ => (total', e)
        | None => loop l' total'
        end
    end.

Fixpoint walkSize (node : Node) (p : path) (total : Z) {struct node}
  : Z * error :=
  match node with
  | NGone => (total, Errorf "lstat " (pstr p))
  | NFile size => (add64 total size, None)
  | NDir readable entries =>
      if readable then
        walkEntries (fun child q acc => walkSize child q acc) p entries total
      else (total, Errorf "open " (pstr p))
  end.

(** Whole megabytes of a byte total plus the margin [float64(mb) * factor],
    both converted with [int(...)]. *)
Definition withMargin (totalSize : Z) (factor : float64) : Z :=
  let mb := Z.quot totalSize MiB in
  add64 mb (int_of_float64 (f64_mul (float64_of_int mb) factor)).

(** Step 1 of [CreateDMGLikeBash]: the size of the writable image in
    megabytes, from the directory items of the contents.  The result of each
    walk is not looked at. *)
Definition bashTotalSize (contents : list Item) : M Z :=
  fold_left (fun acc item =>
               total <- acc ;;
               if String.eqb (Type_ item) Dir then
                 node <- lstatM (P (Path item)) ;;
                 ret (fst (walkSize node (P (Path item)) total))
               else ret total)
            contents (ret 0).

Definition bashSizeOfTotal (totalSize : Z) : Z :=
  let sizeMB := withMargin totalSize f64_0_5 in
  let sizeMB := if (sizeMB <? 200)%Z then 200 else sizeMB in
  if (2000 <? sizeMB)%Z then 2000 else sizeMB.

(** [calculateDirSize(dir)]. *)
Definition dirSizeOfTotal (totalSize : Z) : Z :=
  let sizeMB := withMargin totalSize f64_0_2 in
  if (sizeMB <? 100)%Z then 100 else sizeMB.

Definition calculateDirSize (dir : path) : M (Z * error) :=
  node <- lstatM dir ;;
  let (totalSize, err) := walkSize node dir 0 in
  match err with
  | Some _ => ret (0, err)
  | None => ret (dirSizeOfTotal totalSize, None)
  end.

(* ===================================================================== *)
(** ** The image builders *)
(* ===================================================================== *)

(** "Set Default Filename": an empty name becomes the title with the image
    extension, and a name without the extension gets it appended. *)
Definition normalizeFileName (config : Config) : Config :=
  let config :=
    if String.eqb (FileName config) ""
    then setFileName config (Title config ++ ".dmg") else config in
  if negb (GoString.HasSuffix (FileName config) ".dmg")
  then setFileName config (FileName config ++ ".dmg") else config.

(** "Set default format if not specified". *)
Definition normalizeFormat (config : Config) : Config :=
  if String.eqb (Format_ config) "" then setFormat config UDZO else config.

Definition defaultLogWriter (config : Config) : Config :=
  match LogWriter config with
  | None => setLogWriter config (Some "stdout")
  | Some _ => config
  end.

Definition isCompressed (f : Format) : bool :=
  (String.eqb f UDZO || String.eqb f UDBZ)%bool.

Definition wantsCustomization (config : Config) : bool :=
  (nonEmpty (Icon config) || nonEmpty (Background config))%bool.

(** [temp_<nanoseconds>_<base>] next to the output file. *)
Definition timedTempName (config : Config) : M path :=
  r <- call TimeNowUnixNano ;;
  let now := match r with ROk out => outStr out | RErr _ => "" end in
  ret (Join (P (GoString.Dir (FileName config)))
            ("temp_" ++ now ++ "_" ++ GoString.Base (FileName config))).

Definition convertArgsOf (level : string) (fallback : list string)
  : list string :=
  if nonEmpty level then ["-imagekey"; "zlib-level=" ++ level] else fallback.

(** The body shared by [createCompressedDMG], [createCompressedDMGDirect]
    and [createCompressedDMGWithSize], which differ only in the call that
    creates the writable image: create it, mount and customize it when an
    icon or background is configured, run the forced-detach pass, convert. *)
Definition compressedBuild (config : Config) (create : path -> Call) : M error :=
  tempDMG <- timedTempName config ;;
  deferring (ignore (call (OsRemove tempDMG)))
    (andThen (wrap "failed to create temp dmg: " (callE (create tempDMG)))
     (andThen (if wantsCustomization config
               then tmpMount tempDMG (customizeVolume config)
               else ret None)
      (forceDetachDMG tempDMG ;;;
       execE "hdiutil convert failed: " "hdiutil"
             (["convert"; pstr tempDMG; "-format"; Format_ config;
               "-o"; FileName config]
              ++ convertArgsOf (CompressionLevel config) [])%list))).

Definition createCompressedDMG (config : Config) (sourceDir : path) : M error :=
  compressedBuild config (HdiutilCreate (Title config) sourceDir UDRW).

Definition createCompressedDMGDirect (config : Config) (tempDir : path)
  : M error :=
  compressedBuild config (HdiutilCreate (Title config) tempDir UDRW).

Definition createCompressedDMGWithSize (config : Config) (sourceDir : path)
           (sizeMB : Z) : M error :=
  compressedBuild config
    (fun out => HdiutilCreateWithSize (Title config) sourceDir UDRW out sizeMB).

(** The uncompressed branch of [CreateDMG] and [CreateDMGDirect]: create the
    image in the target format; a writable target is renamed aside and
    converted to read-only, the renamed file being removed when the builder
    returns.  [rest] is what the builder does afterwards. *)
Definition plainBuild (config : Config) (dir : path) (rest : M error) : M error :=
  andThen (wrap "failed to create dmg: "
                (callE (HdiutilCreate (Title config) dir (Format_ config)
                                      (P (FileName config)))))
    (if String.eqb (Format_ config) UDRW then
       tempFileName <- timedTempName config ;;
       e <- wrap "failed to rename DMG file: "
                 (callE (OsRename (P (FileName config)) tempFileName)) ;;
       match e with
       | Some _ => ret e
       | None =>
           deferring (ignore (call (OsRemove tempFileName)))
             (andThen (wrap "failed to convert DMG: "
                            (callE (HdiutilConvert tempFileName UDRO
                                                   (P (FileName config)))))
                      rest)
       end
     else rest).

(** [createDMGWithSafeHardLinks(config, sourceDir)]. *)
Definition createDMGWithSafeHardLinks (config : Config) (sourceDir : path)
  : M error :=
  r <- call (OsMkdirTemp "*-zapp-dmg-safe") ;;
  match r with
  | RErr e => ret (Errorf "failed to create safe temporary directory: " e)
  | ROk out =>
      let safeTempDir := P (outStr out) in
      deferring (ignore (call (OsRemoveAll safeTempDir)))
        (andThen (safeStage config safeTempDir)
         (andThen (wrap "failed to write .DS_Store: "
                        (callE (DSStoreWrite (layoutStore config)
                                             (Join safeTempDir ".DS_Store"))))
          (andThen (stageBackground "failed to copy background: "
                                    config safeTempDir)
           (sz <- calculateDirSize safeTempDir ;;
            match sz with
            | (_, Some e) =>
                ret (Errorf "failed to calculate directory size: " e)
            | (sizeMB, None) =>
                andThen
                  (if isCompressed (Format_ config) then
                     wrap "failed to create compressed dmg: "
                          (createCompressedDMGWithSize config safeTempDir sizeMB)
                   else
                     wrap "failed to create dmg: "
                          (callE (HdiutilCreateWithSize
                                    (Title config) safeTempDir (Format_ config)
                                    (P (FileName config)) sizeMB)))
                  ((if nonEmpty (Icon config)
                    then ignore (setFileIcon (P (FileName config)) (Icon config))
                    else ret tt) ;;;
                   ret None)
            end))))
  end.

(** The callback [CreateDMG] passes to [tmpMount] on the finished image. *)
Definition finalCustomize (config : Config) (store : DSStore)
           (dmgFilePath mountPoint : path) : M error :=
  andThen
    (if nonEmpty (Icon config)
     then wrap "failed to set DMG icon: " (setDMGIcon mountPoint (Icon config))
     else ret None)
    (if nonEmpty (Background config) then
       let store :=
         SetBackgroundImage
           store (Join (Join mountPoint ".background") "background.png") in
       wrap "failed to write .DS_Store: "
            (callE (DSStoreWrite store (Join mountPoint ".DS_Store")))
     else ret None).

(** The end of [CreateDMG]: the result of [tmpMount] is stored in [err] and
    not looked at again, the result of [setFileIcon] is dropped, and the
    function returns nil. *)
Definition createDMGTail (config : Config) (store : DSStore) : M error :=
  (if wantsCustomization config
   then ignore (tmpMount (P (FileName config)) (finalCustomize config store))
   else ret tt) ;;;
  (if nonEmpty (Icon config)
   then ignore (setFileIcon (P (FileName config)) (Icon config))
   else ret tt) ;;;
  ret None.

(** [CreateDMG(config, sourceDir)]. *)
Definition CreateDMG (config : Config) (sourceDir : path) : M error :=
  if UseHardLinks config then createDMGWithSafeHardLinks config sourceDir
  else
    andThen (wrap "failed to create source directory: "
                  (callE (OsMkdirAll sourceDir)))
    (andThen (wrap "failed to setup source directory: "
                   (setupSourceDirectory config sourceDir))
     (let config := defaultLogWriter config in
      let store := layoutStore config in
      andThen (wrap "failed to write .DS_Store: "
                    (callE (DSStoreWrite store (Join sourceDir ".DS_Store"))))
      (let config := normalizeFormat (normalizeFileName config) in
       if isCompressed (Format_ config) then
         andThen (wrap "failed to create compressed dmg: "
                       (createCompressedDMG config sourceDir))
                 (createDMGTail config store)
       else plainBuild config sourceDir (createDMGTail config store)))).

(** [CreateDMGDirect(config)]. *)
Definition CreateDMGDirect (config : Config) : M error :=
  let config := normalizeFormat (normalizeFileName (defaultLogWriter config)) in
  r <- call (OsMkdirTemp "*-zapp-dmg-direct") ;;
  match r with
  | RErr e => ret (Errorf "failed to create temporary directory: " e)
  | ROk out =>
      let tempDir := P (outStr out) in
      deferring (ignore (call (OsRemoveAll tempDir)))
        (andThen (wrap "failed to create symbolic links: "
                       (createSymbolicLinks config tempDir))
         (andThen (wrap "failed to write .DS_Store: "
                        (callE (DSStoreWrite (layoutStore config)
                                             (Join tempDir ".DS_Store"))))
          (let tail :=
             (if nonEmpty (Icon config)
              then ignore (setFileIcon (P (FileName config)) (Icon config))
              else ret tt) ;;;
             ret None in
           if isCompressed (Format_ config) then
             andThen (wrap "failed to create compressed dmg: "
                           (createCompressedDMGDirect config tempDir))
                     tail
           else plainBuild config tempDir tail)))
  end.

(** The callback [CreateDMGLikeBash] passes to [tmpMount]. *)
Definition bashCustomize (config : Config) (dmgFilePath mountPoint : path)
  : M error :=
  andThen (wrap "failed to create Applications link: "
                (callE (OsSymlink "/Applications"
                                  (Join mountPoint "Applications"))))
  (andThen
     (if nonEmpty (Background config) then
        let backgroundDir := Join mountPoint ".background" in
        andThen (wrap "failed to create .background directory: "
                      (callE (OsMkdirAll backgroundDir)))
        (andThen (wrap "failed to copy background: "
                       (copyFile (P (Background config))
                                 (Join backgroundDir "background.png")))
                 (execE "failed to hide background folder: " "SetFile"
                        ["-a"; "V"; pstr backgroundDir]))
      else ret None)
  (andThen
     (if nonEmpty (Icon config)
      then wrap "failed to set DMG icon: " (setDMGIcon mountPoint (Icon config))
      else ret None)
     (let store := layoutStore config in
      let store :=
        if nonEmpty (Background config)
        then SetBackgroundImage
               store (Join (Join mountPoint ".background") "background.png")
        else store in
      wrap "failed to write .DS_Store: "
           (callE (DSStoreWrite store (Join mountPoint ".DS_Store")))))).

(** The main application bundle: the path of the first directory item whose
    path ends in [.app], the empty string when there is none. *)
Definition mainAppPathOf (contents : list Item) : string :=
  match List.find isAppDir contents with
  | Some item => Path item
  | None => ""
  end.

(** What [CreateDMGLikeBash] does between registering the removal of the
    temporary image and returning. *)
Definition likeBashBuild (config : Config) (sink : string) (tempDMG : path)
  : M error :=
  totalSize <- bashTotalSize (Contents config) ;;
  let sizeMB := bashSizeOfTotal totalSize in
  call (Print sink ("Creating DMG with size: " ++ pretty sizeMB ++ "MB")) ;;;
  let mainAppPath := mainAppPathOf (Contents config) in
  if String.eqb mainAppPath "" then
    ret (Some "no .app directory found in contents")
  else
    call (Print sink ("Creating temporary DMG from " ++ mainAppPath)) ;;;
    andThen (wrap "failed to create temp dmg: "
                  (callE (HdiutilCreateWithSize
                            (Title config) (P mainAppPath) UDRW
                            tempDMG sizeMB)))
    (call (Print sink "Mounting and customizing DMG...") ;;;
     andThen (tmpMount tempDMG (bashCustomize config))
     (call (Print sink "Converting to compressed format...") ;;;
      andThen (execE "hdiutil convert failed: " "hdiutil"
                     (["convert"; pstr tempDMG; "-format"; "UDZO";
                       "-o"; FileName config]
                      ++ convertArgsOf (CompressionLevel config)
                           ["-imagekey"; "zlib-level=9"])%list)
      ((if nonEmpty (Icon config)
        then ignore (setFileIcon (P (FileName config)) (Icon config))
        else ret tt) ;;;
       call (Print sink ("DMG created successfully: " ++ FileName config)) ;;;
       ret None))).

(** [CreateDMGLikeBash(config)]. *)
Definition CreateDMGLikeBash (config : Config) : M error :=
  let config := normalizeFileName (defaultLogWriter config) in
  let sink := default "stdout" (LogWriter config) in
  let tempDMG := Join (P (GoString.Dir (FileName config)))
                      ("temp_" ++ GoString.Base (FileName config)) in
  deferring (ignore (call (OsRemove tempDMG)))
            (likeBashBuild config sink tempDMG).

(* ===================================================================== *)
(** ** Basic facts about computations *)
(* ===================================================================== *)


Lemma bind_eq {A B} (m : M A) (k : A -> M B) w t :
  bind m k w t = k (fst (m w t)) w (snd (m w t)).
Proof. unfold bind. destruct (m w t); reflexivity. Qed.

Lemma call_eq c w t :
  call c w t = (w_reply w t c, (t ++ [(c, w_reply w t c)])%list).
Proof. reflexivity. Qed.

(** A deferred cleanup does not change what the body returns. *)
Lemma fst_deferring {A} (cleanup : M unit) (body : M A) w t :
  fst (deferring cleanup body w t) = fst (body w t).
Proof.
  unfold deferring. rewrite !bind_eq. reflexivity.
Qed.

(** Run the monadic plumbing of a goal up to the next answer of the world. *)
Ltac mrun :=
  cbv beta iota zeta
      delta [bind call callE ret deferring ignore andThen wrap execE
             statM lstatM].

(** The trace only grows. *)
Definition extends {A} (m : M A) : Prop :=
  forall w t, exists t', snd (m w t) = (t ++ t')%list.

Lemma extends_ret {A} (a : A) : extends (ret a).
Proof. intros w t. exists []. simpl. by rewrite app_nil_r. Qed.

Lemma extends_bind {A B} (m : M A) (k : A -> M B) :
  extends m -> (forall a, extends (k a)) -> extends (bind m k).
Proof.
  intros Hm Hk w t. rewrite bind_eq.
  destruct (Hm w t) as [t1 E1]. rewrite E1.
  destruct (Hk (fst (m w t)) w (t ++ t1)%list) as [t2 E2].
  exists (t1 ++ t2)%list. rewrite E2. by rewrite app_assoc.
Qed.

Lemma extends_call c : extends (call c).
Proof. intros w t. eexists. reflexivity. Qed.

(* ===================================================================== *)
(** ** The mount orchestrator *)
(* ===================================================================== *)

Section TmpMount.

Variable w : World.
Variable t : Trace.
Variable dmgPath : path.
Variable process : path -> path -> M error.

(** The temporary directory the world hands out, the mount point under it
    and the trace at the moment the callback starts. *)
Variable dirOut : list string.
Variable attachOut : list string.
Let mkdirCall := OsMkdirTemp "*-zapp-dmg".
Let mountPoint := Join (P (outStr dirOut)) "mount".
Let t1 := (t ++ [(mkdirCall, ROk dirOut)])%list.
Let t2 := (t1 ++ [(HdiutilAttach dmgPath mountPoint, ROk attachOut)])%list.

Hypothesis mkdir_ok : w_reply w t mkdirCall = ROk dirOut.
Hypothesis attach_ok :
  w_reply w t1 (HdiutilAttach dmgPath mountPoint) = ROk attachOut.

(** C1.  Whenever the temporary mount point can be created and Attach
    succeeds, [tmpMount] returns exactly what the customization callback
    returned, whatever the primary detach and the forced-detach pass do. *)
Theorem tmpMount_returns_callback_result :
  fst (tmpMount dmgPath process w t) = fst (process dmgPath mountPoint w t2).
Proof.
  unfold tmpMount. rewrite bind_eq, call_eq. simpl fst. simpl snd.
  fold mkdirCall. rewrite mkdir_ok. rewrite fst_deferring.
  rewrite bind_eq, call_eq. simpl fst. simpl snd.
  fold mountPoint t1. rewrite attach_ok. rewrite fst_deferring.
  reflexivity.
Qed.

End TmpMount.

(** A world in which every detach fails and [hdiutil info] lists the image
    as mounted, so that the forced-detach pass runs and fails too. *)
Definition busyWorld : World :=
  mkWorld
    (fun _ c =>
       match c with
       | OsMkdirTemp _ => ROk ["/tmp/1-zapp-dmg"]
       | HdiutilDetach _ => RErr "resource busy"
       | Exec _ args =>
           match args with
           | ["info"] => ROk ["/dev/disk4s1 Apple_HFS /Volumes/App temp_App.dmg"]
           | _ => ROk []
           end
       | _ => ROk []
       end)
    (fun _ _ => NGone)
    (fun _ _ => NGone).

Definition failingProcess (dmgFilePath mountPoint : path) : M error :=
  ret (Some "customize failed").

Example busyWorld_trace :
  run (tmpMount (P "temp_App.dmg") failingProcess) busyWorld =
  (Some "customize failed",
   [(OsMkdirTemp "*-zapp-dmg", ROk ["/tmp/1-zapp-dmg"]);
    (HdiutilAttach (P "temp_App.dmg") (Join (P "/tmp/1-zapp-dmg") "mount"),
     ROk []);
    (HdiutilDetach (Join (P "/tmp/1-zapp-dmg") "mount"), RErr "resource busy");
    (Print "stdout" "Warning: failed to detach DMG: resource busy", ROk []);
    (Exec "hdiutil" ["info"],
     ROk ["/dev/disk4s1 Apple_HFS /Volumes/App temp_App.dmg"]);
    (HdiutilDetach (P "/Volumes/App"), RErr "resource busy");
    (OsRemoveAll (P "/tmp/1-zapp-dmg"), ROk [])]).
Proof. vm_compute. reflexivity. Qed.

Lemma tmpMount_returns_callback_result_witness :
  fst (tmpMount (P "temp_App.dmg") failingProcess busyWorld []) =
  Some "customize failed".
Proof.
  rewrite (tmpMount_returns_callback_result busyWorld [] (P "temp_App.dmg")
             failingProcess ["/tmp/1-zapp-dmg"] []).
  - reflexivity.
  - reflexivity.
  - reflexivity.
Defined.

(* ===================================================================== *)
(** ** The compressed build path when Attach fails *)
(* ===================================================================== *)

(** The calls that produce or modify image contents: the customization
    steps on a mounted volume and the conversion to the final image. *)
Definition producesImage (c : Call) : bool :=
  match c with
  | Exec _ _ | HdiutilConvert _ _ _ | DSStoreWrite _ _ | OsOpen _
  | OsCreate _ | IoCopyBuffer _ _ | OsMkdirAll _ | OsSymlink _ _
  | OsWriteFile _ _ | OsLink _ _ | OsRename _ _ => true
  | _ => false
  end.

Section AttachFails.

Variable w : World.
Variable t : Trace.
Variable config : Config.
Variable sourceDir : path.
Variables (createOut dirOut : list string) (attachErr : string).

Let now :=
  match w_reply w t TimeNowUnixNano with
  | ROk out => outStr out
  | RErr _ => ""
  end.
Let tempDMG :=
  Join (P (GoString.Dir (FileName config)))
       ("temp_" ++ now ++ "_" ++ GoString.Base (FileName config)).
Let createCall := HdiutilCreate (Title config) sourceDir UDRW tempDMG.
Let mkdirCall := OsMkdirTemp "*-zapp-dmg".
Let tempDir := P (outStr dirOut).
Let attachCall := HdiutilAttach tempDMG (Join tempDir "mount").
Let t1 := (t ++ [(TimeNowUnixNano, w_reply w t TimeNowUnixNano)])%list.
Let t2 := (t1 ++ [(createCall, ROk createOut)])%list.
Let t3 := (t2 ++ [(mkdirCall, ROk dirOut)])%list.
Let t4 := (t3 ++ [(attachCall, RErr attachErr)])%list.
Let t5 := (t4 ++ [(OsRemoveAll tempDir, w_reply w t4 (OsRemoveAll tempDir))])%list.

Hypothesis customized : wantsCustomization config = true.
Hypothesis create_ok : w_reply w t1 createCall = ROk createOut.
Hypothesis mkdir_ok : w_reply w t2 mkdirCall = ROk dirOut.
Hypothesis attach_fails : w_reply w t3 attachCall = RErr attachErr.

Lemma createCompressedDMG_attach_failure_run :
  createCompressedDMG config sourceDir w t =
  (Some ("failed to attach DMG: " ++ attachErr),
   (t ++ [(TimeNowUnixNano, w_reply w t TimeNowUnixNano);
          (createCall, ROk createOut);
          (mkdirCall, ROk dirOut);
          (attachCall, RErr attachErr);
          (OsRemoveAll tempDir, w_reply w t4 (OsRemoveAll tempDir));
          (OsRemove tempDMG, w_reply w t5 (OsRemove tempDMG))])%list).
Proof.
  unfold createCompressedDMG, compressedBuild, timedTempName, tmpMount.
  mrun. fold now tempDMG createCall t1. rewrite create_ok.
  mrun. fold t2. rewrite customized.
  mrun. fold mkdirCall. rewrite mkdir_ok.
  mrun. fold tempDir t3 attachCall. rewrite attach_fails.
  mrun. fold t4 t5. unfold Errorf. f_equal.
  unfold t5, t4, t3, t2, t1. rewrite <- !app_assoc. reflexivity.
Qed.

(** C6.  In the compressed build path, when Attach fails the build returns
    the attach error, and between the creation of the writable image and
    the return only the mount-point directory is created and removed and
    the writable image is removed: no customization step and no conversion
    runs, so no final image is produced. *)
Theorem createCompressedDMG_attach_failure :
  exists steps,
    createCompressedDMG config sourceDir w t =
    (Some ("failed to attach DMG: " ++ attachErr),
     (t ++ (TimeNowUnixNano, w_reply w t TimeNowUnixNano)
        :: (createCall, ROk createOut) :: steps)%list)
    /\ Forall (fun cr => producesImage (fst cr) = false) steps
    /\ map fst steps =
       [mkdirCall; attachCall; OsRemoveAll tempDir; OsRemove tempDMG].
Proof.
  eexists. split; [apply createCompressedDMG_attach_failure_run|].
  split; [|reflexivity].
  repeat constructor.
Qed.

End AttachFails.

Lemma createCompressedDMG_attach_failure_witness :
  fst (createCompressedDMG
         (mkConfig "App.dmg" "App" "icon.icns" 14 128 640 480 "" []
                   None UDZO "6" false false)
         (P "/tmp/src")
         (mkWorld (fun _ c =>
                     match c with
                     | HdiutilAttach _ _ => RErr "corrupt image"
                     | OsMkdirTemp _ => ROk ["/tmp/7-zapp-dmg"]
                     | _ => ROk []
                     end)
                  (fun _ _ => NGone) (fun _ _ => NGone))
         []) = Some "failed to attach DMG: corrupt image".
Proof.
  match goal with
  | |- fst (createCompressedDMG ?c ?d ?w ?t) = _ =>
      destruct (createCompressedDMG_attach_failure
                  w t c d [] ["/tmp/7-zapp-dmg"] "corrupt image")
        as [steps [E _]]
  end; [reflexivity | reflexivity | reflexivity | reflexivity |].
  rewrite E. reflexivity.
Defined.

(** At the level of [CreateDMG]: the attach failure becomes the result of
    the build and no conversion to the final image is among the calls. *)
Example CreateDMG_attach_failure :
  let r := run (CreateDMG
                  (mkConfig "App.dmg" "App" "icon.icns" 14 128 640 480 "" []
                            None UDZO "6" false false)
                  (P "/tmp/src"))
               (mkWorld (fun _ c =>
                           match c with
                           | HdiutilAttach _ _ => RErr "corrupt image"
                           | OsMkdirTemp _ => ROk ["/tmp/7-zapp-dmg"]
                           | _ => ROk []
                           end)
                        (fun _ _ => NGone) (fun _ _ => NGone)) in
  fst r = Some ("failed to create compressed dmg: "
                ++ "failed to attach DMG: corrupt image")
  /\ forallb (fun cr => match fst cr with
                        | Exec _ _ | HdiutilConvert _ _ _ => false
                        | _ => true
                        end) (snd r) = true.
Proof. split; vm_compute; reflexivity. Qed.

(* ===================================================================== *)
(** ** Traces only grow *)
(* ===================================================================== *)

Lemma extends_statM p : extends (statM p).
Proof. intros w t. exists []. simpl. by rewrite app_nil_r. Qed.

Lemma extends_lstatM p : extends (lstatM p).
Proof. intros w t. exists []. simpl. by rewrite app_nil_r. Qed.

Lemma extends_forEach {A} (l : list A) (body : A -> M unit) :
  (forall a, extends (body a)) -> extends (forEach l body).
Proof.
  intros Hb. induction l as [|a l IH]; simpl.
  - apply extends_ret.
  - apply extends_bind; auto.
Qed.

Lemma extends_forEachE {A} (l : list A) (body : A -> M error) :
  (forall a, extends (body a)) -> extends (forEachE l body).
Proof.
  intros Hb. induction l as [|a l IH]; simpl.
  - apply extends_ret.
  - apply extends_bind; auto. intros [e|]; [apply extends_ret | exact IH].
Qed.

Ltac ext_step :=
  first
    [ apply extends_ret | apply extends_call | apply extends_statM
    | apply extends_lstatM
    | apply extends_bind; [|intros ?]
    | apply extends_forEach; intros ?
    | apply extends_forEachE; intros ?
    | match goal with
      | |- extends (match ?x with _ => _ end) => destruct x
      | |- extends (let (_, _) := ?x in _) => destruct x
      end
    | assumption
    | progress unfold callE, andThen, wrap, execE, deferring, ignore ].

Ltac ext := repeat ext_step.

Lemma extends_copyFile src dst : extends (copyFile src dst).
Proof. unfold copyFile. ext. Qed.

Lemma extends_forceDetachDMG p : extends (forceDetachDMG p).
Proof. unfold forceDetachDMG. ext. Qed.

Lemma extends_tmpMount p process :
  (forall a b, extends (process a b)) -> extends (tmpMount p process).
Proof.
  intros H. unfold tmpMount, detachDeferred.
  ext; first [apply H | apply extends_forceDetachDMG].
Qed.

Lemma extends_setDMGIcon mp icon : extends (setDMGIcon mp icon).
Proof. unfold setDMGIcon. ext; apply extends_copyFile. Qed.

Lemma extends_setFileIcon p icon : extends (setFileIcon p icon).
Proof. unfold setFileIcon. ext; apply extends_copyFile. Qed.

Lemma extends_bashCustomize config a b : extends (bashCustomize config a b).
Proof.
  unfold bashCustomize. ext;
    first [apply extends_copyFile | apply extends_setDMGIcon].
Qed.

(* ===================================================================== *)
(** ** The exact-size variant needs an application bundle *)
(* ===================================================================== *)

Lemma bashTotalSize_fold_trace (l : list Item) (acc : M Z) w t :
  snd (acc w t) = t ->
  snd (fold_left (fun acc item =>
                    total <- acc ;;
                    if String.eqb (Type_ item) Dir then
                      node <- lstatM (P (Path item)) ;;
                      ret (fst (walkSize node (P (Path item)) total))
                    else ret total) l acc w t) = t.
Proof.
  revert acc. induction l as [|item l IH]; intros acc Hacc; simpl.
  - exact Hacc.
  - apply IH. rewrite bind_eq, Hacc.
    destruct (String.eqb (Type_ item) Dir); reflexivity.
Qed.

(** Measuring the contents reads the file system and calls nothing. *)
Lemma bashTotalSize_trace (l : list Item) w t :
  snd (bashTotalSize l w t) = t.
Proof. apply bashTotalSize_fold_trace. reflexivity. Qed.

Lemma Contents_normalize config :
  Contents (normalizeFileName (defaultLogWriter config)) = Contents config.
Proof.
  unfold normalizeFileName, defaultLogWriter.
  destruct (LogWriter config); simpl;
    repeat match goal with |- context [if ?b then _ else _] => destruct b end;
    reflexivity.
Qed.

Lemma isAppDir_nonEmpty item :
  isAppDir item = true -> String.eqb (Path item) "" = false.
Proof.
  unfold isAppDir. intros H. apply andb_prop in H as [_ H].
  destruct (Path item); [discriminate | reflexivity].
Qed.

Lemma mainAppPathOf_none (l : list Item) :
  Forall (fun item => isAppDir item = false) l -> mainAppPathOf l = "".
Proof.
  unfold mainAppPathOf. induction 1 as [|item l H _ IH]; simpl.
  - reflexivity.
  - rewrite H. exact IH.
Qed.

(** The main bundle is the first directory item ending in [.app]. *)
Lemma mainAppPathOf_first (pre post : list Item) (item : Item) :
  Forall (fun i => isAppDir i = false) pre ->
  isAppDir item = true ->
  mainAppPathOf (pre ++ item :: post) = Path item.
Proof.
  unfold mainAppPathOf. induction 1 as [|i pre H _ IH]; intros Hit; simpl.
  - rewrite Hit. reflexivity.
  - rewrite H. apply IH, Hit.
Qed.

Lemma deferring_call_eq {A} (c : Call) (body : M A) w t :
  deferring (ignore (call c)) body w t =
  (fst (body w t),
   (snd (body w t) ++ [(c, w_reply w (snd (body w t)) c)])%list).
Proof.
  unfold deferring. rewrite bind_eq. reflexivity.
Qed.

(** A fallible call followed by more work: the call is the next entry of the
    trace. *)
Lemma andThen_callE_trace ctx c (rest : M error) w t :
  extends rest ->
  exists more,
    snd (andThen (wrap ctx (callE c)) rest w t) =
    (t ++ (c, w_reply w t c) :: more)%list.
Proof.
  intros Hrest. mrun. destruct (w_reply w t c) as [out|e]; mrun.
  - destruct (Hrest w (t ++ [(c, ROk out)])%list) as [more E].
    exists more. rewrite E, <- app_assoc. reflexivity.
  - exists []. reflexivity.
Qed.

Lemma likeBashBuild_none config sink tempDMG w t :
  Forall (fun item => isAppDir item = false) (Contents config) ->
  exists msg r,
    likeBashBuild config sink tempDMG w t =
    (Some "no .app directory found in contents",
     (t ++ [(Print sink msg, r)])%list).
Proof.
  intros Hnone. unfold likeBashBuild. unfold bind at 1.
  pose proof (bashTotalSize_trace (Contents config) w t) as Ht.
  destruct (bashTotalSize (Contents config) w t) as [total t'].
  simpl in Ht. subst t'.
  rewrite (mainAppPathOf_none _ Hnone). simpl String.eqb. cbv iota.
  mrun. do 2 eexists. reflexivity.
Qed.

Lemma likeBashBuild_first config sink tempDMG w t pre item post :
  Contents config = (pre ++ item :: post)%list ->
  Forall (fun i => isAppDir i = false) pre ->
  isAppDir item = true ->
  exists msg1 r1 msg2 r2 r3 rest,
    snd (likeBashBuild config sink tempDMG w t) =
    (t ++ (Print sink msg1, r1) :: (Print sink msg2, r2)
       :: (HdiutilCreateWithSize
             (Title config) (P (Path item)) UDRW tempDMG
             (bashSizeOfTotal (fst (bashTotalSize (Contents config) w t))),
           r3) :: rest)%list.
Proof.
  intros Hc Hpre Hitem. unfold likeBashBuild. unfold bind at 1.
  pose proof (bashTotalSize_trace (Contents config) w t) as Ht.
  destruct (bashTotalSize (Contents config) w t) as [total t'].
  simpl in Ht. subst t'.
  rewrite Hc, (mainAppPathOf_first _ _ _ Hpre Hitem).
  rewrite (isAppDir_nonEmpty _ Hitem).
  rewrite bind_eq, call_eq. simpl fst. simpl snd.
  rewrite bind_eq, call_eq. simpl fst. simpl snd.
  match goal with
  | |- context [andThen (wrap ?ctx (callE ?c)) ?rest ?w0 ?t0] =>
      destruct (andThen_callE_trace ctx c rest w0 t0) as [more E]
  end.
  { ext; first [ apply extends_tmpMount; intros; apply extends_bashCustomize
               | apply extends_setFileIcon ]. }
  rewrite E. do 5 eexists. exists more.
  rewrite <- !app_assoc. reflexivity.
Qed.

Section LikeBash.

Variable config : Config.
Variable w : World.
Variable t : Trace.

Let config' := normalizeFileName (defaultLogWriter config).
Let sink := default "stdout" (LogWriter config').
Let tempDMG := Join (P (GoString.Dir (FileName config')))
                    ("temp_" ++ GoString.Base (FileName config')).

(** C10.  [CreateDMGLikeBash] fails with "no .app directory found" when no
    item of the contents is a directory whose path ends in [.app], having
    done nothing but write one log line and remove the temporary image
    name; otherwise the writable image is created from the first such
    item in list order. *)
Theorem CreateDMGLikeBash_main_app :
  (Forall (fun item => isAppDir item = false) (Contents config) ->
   exists msg r1 r2,
     CreateDMGLikeBash config w t =
     (Some "no .app directory found in contents",
      (t ++ [(Print sink msg, r1); (OsRemove tempDMG, r2)])%list))
  /\
  (forall pre item post,
      Contents config = (pre ++ item :: post)%list ->
      Forall (fun i => isAppDir i = false) pre ->
      isAppDir item = true ->
      exists msg1 r1 msg2 r2 sizeMB r3 rest,
        snd (CreateDMGLikeBash config w t) =
        (t ++ (Print sink msg1, r1) :: (Print sink msg2, r2)
           :: (HdiutilCreateWithSize (Title config') (P (Path item)) UDRW
                                     tempDMG sizeMB, r3) :: rest)%list).
Proof.
  unfold CreateDMGLikeBash. fold config' sink tempDMG.
  rewrite deferring_call_eq. split.
  - intros Hnone.
    destruct (likeBashBuild_none config' sink tempDMG w t) as [msg [r1 E]].
    { unfold config'. rewrite Contents_normalize. exact Hnone. }
    rewrite E. simpl fst. simpl snd.
    exists msg, r1. eexists. rewrite <- app_assoc. reflexivity.
  - intros pre item post Hc Hpre Hitem.
    destruct (likeBashBuild_first config' sink tempDMG w t pre item post)
      as (msg1 & r1 & msg2 & r2 & r3 & rest & E); auto.
    { unfold config'. rewrite Contents_normalize. exact Hc. }
    rewrite E. simpl snd.
    exists msg1, r1, msg2, r2. eexists. exists r3. eexists.
    rewrite <- app_assoc. simpl. reflexivity.
Qed.

End LikeBash.

Lemma CreateDMGLikeBash_main_app_witness :
  (exists msg r1 r2,
      CreateDMGLikeBash
        (mkConfig "" "App" "" 14 128 640 480 "" [mkItem 0 0 File "a.txt"]
                  None "" "" false false)
        busyWorld [] =
      (Some "no .app directory found in contents",
       [(Print "stdout" msg, r1);
        (OsRemove (Join (P ".") "temp_App.dmg"), r2)]))
  /\
  (exists msg1 r1 msg2 r2 sizeMB r3 rest,
      snd (CreateDMGLikeBash
             (mkConfig "" "App" "" 14 128 640 480 ""
                       [mkItem 0 0 Dir "docs"; mkItem 0 0 Dir "One.app";
                        mkItem 0 0 Dir "Two.app"]
                       None "" "" false false)
             busyWorld []) =
      (Print "stdout" msg1, r1) :: (Print "stdout" msg2, r2)
        :: (HdiutilCreateWithSize "App" (P "One.app") UDRW
              (Join (P ".") "temp_App.dmg") sizeMB, r3) :: rest).
Proof.
  split.
  - apply (CreateDMGLikeBash_main_app
             (mkConfig "" "App" "" 14 128 640 480 "" [mkItem 0 0 File "a.txt"]
                       None "" "" false false) busyWorld []).
    repeat constructor.
  - apply (proj2 (CreateDMGLikeBash_main_app
                    (mkConfig "" "App" "" 14 128 640 480 ""
                              [mkItem 0 0 Dir "docs"; mkItem 0 0 Dir "One.app";
                               mkItem 0 0 Dir "Two.app"]
                              None "" "" false false) busyWorld [])
                 [mkItem 0 0 Dir "docs"] (mkItem 0 0 Dir "One.app")
                 [mkItem 0 0 Dir "Two.app"]).
    + reflexivity.
    + repeat constructor.
    + reflexivity.
Defined.

(* ===================================================================== *)
(** ** Configuration normalization *)
(* ===================================================================== *)

Lemma chars_app (a b : string) :
  GoString.chars (a ++ b) = (GoString.chars a ++ GoString.chars b)%list.
Proof.
  unfold GoString.chars. induction a as [|c a IH]; simpl.
  - reflexivity.
  - rewrite IH. reflexivity.
Qed.

Lemma hasPrefixL_app (p rest : list ascii) :
  GoString.hasPrefixL (p ++ rest) p = true.
Proof.
  induction p as [|c p IH]; simpl.
  - destruct rest; reflexivity.
  - rewrite Ascii.eqb_refl. exact IH.
Qed.

Lemma HasSuffix_app (s suffix : string) :
  GoString.HasSuffix (s ++ suffix) suffix = true.
Proof.
  unfold GoString.HasSuffix. rewrite chars_app, rev_app_distr.
  apply hasPrefixL_app.
Qed.

(** After "Set Default Filename" the output name ends in [.dmg]. *)
Lemma normalizeFileName_suffix (config : Config) :
  GoString.HasSuffix (FileName (normalizeFileName config)) ".dmg" = true.
Proof.
  unfold normalizeFileName.
  destruct (String.eqb (FileName config) ""); simpl.
  - rewrite HasSuffix_app. simpl. apply HasSuffix_app.
  - destruct (GoString.HasSuffix (FileName config) ".dmg") eqn:E; simpl.
    + exact E.
    + apply HasSuffix_app.
Qed.

(** An empty name becomes the title with the extension. *)
Lemma normalizeFileName_empty (config : Config) :
  FileName config = "" ->
  FileName (normalizeFileName config) = Title config ++ ".dmg".
Proof.
  intros E. unfold normalizeFileName. rewrite E. simpl.
  rewrite HasSuffix_app. reflexivity.
Qed.

(** After "Set default format" the format is set, to the compressed default
    when it was not. *)
Lemma normalizeFormat_set (config : Config) :
  Format_ (normalizeFormat config) <> "" /\
  (Format_ config = "" -> Format_ (normalizeFormat config) = UDZO).
Proof.
  unfold normalizeFormat.
  destruct (String.eqb (Format_ config) "") eqn:E; simpl.
  - split; [discriminate | reflexivity].
  - apply String.eqb_neq in E. split; [exact E | contradiction].
Qed.

(** A world in which every call succeeds and every location shows an empty
    directory. *)
Definition okWorld : World :=
  mkWorld
    (fun _ c =>
       match c with
       | OsMkdirTemp pattern => ROk ["/tmp/" ++ pattern]
       | _ => ROk []
       end)
    (fun _ _ => NDir true [])
    (fun _ _ => NDir true []).

(** C2, the hard-link path.  With [UseHardLinks] set, [CreateDMG] hands the
    configuration to [createDMGWithSafeHardLinks] as it is: for an empty
    file name and an unset format the image is created under the empty name
    in the empty format; neither the [.dmg] name nor the compressed default
    format is ever put in place. *)
Theorem CreateDMG_hard_links_skip_normalization :
  run (CreateDMG (mkConfig "" "App" "" 14 128 640 480 "" []
                           None "" "" true false)
                 (P "/tmp/src"))
      okWorld =
  (None,
   [(OsMkdirTemp "*-zapp-dmg-safe", ROk ["/tmp/*-zapp-dmg-safe"]);
    (DSStoreWrite (mkStore 128 (640, 480, 0, 0) 14 true None [])
                  (Join (P "/tmp/*-zapp-dmg-safe") ".DS_Store"), ROk []);
    (HdiutilCreateWithSize "App" (P "/tmp/*-zapp-dmg-safe") "" (P "") 100,
     ROk []);
    (OsRemoveAll (P "/tmp/*-zapp-dmg-safe"), ROk [])]).
Proof. vm_compute. reflexivity. Qed.

(** The same configuration without [UseHardLinks]: the image is converted
    to [Title + ".dmg"] in the compressed default format. *)
Example CreateDMG_normalizes_without_hard_links :
  In (Exec "hdiutil"
           ["convert"; "./temp__App.dmg"; "-format"; "UDZO"; "-o"; "App.dmg"],
      ROk [])
     (snd (run (CreateDMG (mkConfig "" "App" "" 14 128 640 480 "" []
                                    None "" "" false false)
                          (P "/tmp/src"))
               okWorld)).
Proof. vm_compute. tauto. Qed.

(* ===================================================================== *)
(** ** Customization errors at the end of CreateDMG *)
(* ===================================================================== *)

(** Whatever the mount of the finished image and the file-icon injection
    do, the tail of [CreateDMG] returns nil. *)
Lemma createDMGTail_returns_nil config store w t :
  fst (createDMGTail config store w t) = None.
Proof.
  unfold createDMGTail. rewrite !bind_eq. reflexivity.
Qed.

(** A world whose mounted volumes are read-only: creating the volume icon
    file fails. *)
Definition readOnlyVolumeWorld : World :=
  mkWorld
    (fun _ c =>
       match c with
       | OsMkdirTemp pattern => ROk ["/tmp/" ++ pattern]
       | OsCreate (Join (Join _ "mount") _) => RErr "read-only file system"
       | _ => ROk []
       end)
    (fun _ _ => NDir true [])
    (fun _ _ => NDir true []).

Definition iconConfig : Config :=
  mkConfig "App.dmg" "App" "icon.icns" 14 128 640 480 "" []
           None UDRO "" false false.

(** The customization of the finished image fails in that world ... *)
Example finalCustomize_fails :
  fst (run (tmpMount (P "App.dmg")
                     (finalCustomize iconConfig (layoutStore iconConfig)))
           readOnlyVolumeWorld) =
  Some ("failed to set DMG icon: failed to copy icon to mount point: "
        ++ "read-only file system").
Proof. vm_compute. reflexivity. Qed.

(** C5.  ... and [CreateDMG] nevertheless returns nil: with an icon
    configured and a read-only target format, the volume customization of
    the finished image is attempted, fails on the icon file, and the build
    reports success. *)
Theorem CreateDMG_drops_customization_error :
  fst (run (CreateDMG iconConfig (P "/tmp/src")) readOnlyVolumeWorld) = None
  /\ In (OsCreate (Join (Join (P "/tmp/*-zapp-dmg") "mount") ".VolumeIcon.icns"),
         RErr "read-only file system")
        (snd (run (CreateDMG iconConfig (P "/tmp/src")) readOnlyVolumeWorld)).
Proof. split; vm_compute; [reflexivity | tauto]. Qed.

(** The compressed path does return the error of its customization step. *)
Example createCompressedDMG_returns_customization_error :
  fst (run (CreateDMG (setFormat iconConfig UDZO) (P "/tmp/src"))
           readOnlyVolumeWorld) =
  Some ("failed to create compressed dmg: failed to set DMG icon: "
        ++ "failed to copy icon to mount point: read-only file system").
Proof. vm_compute. reflexivity. Qed.

(* ===================================================================== *)
(** ** Where the copy functions write *)
(* ===================================================================== *)

#[local] Open Scope list_scope.

(** Induction on directory trees, with the property available for every
    entry of a directory. *)
Definition Node_ind' (Pn : Node -> Prop)
           (Hfile : forall size, Pn (NFile size))
           (Hgone : Pn NGone)
           (Hdir : forall readable entries,
               Forall (fun e => Pn (snd e)) entries ->
               Pn (NDir readable entries))
  : forall node, Pn node :=
  fix F (node : Node) : Pn node :=
    match node with
    | NFile size => Hfile size
    | NGone => Hgone
    | NDir readable entries =>
        Hdir readable entries
             ((fix G (l : list (string * Node))
                 : Forall (fun e => Pn (snd e)) l :=
                 match l with
                 | [] => List.Forall_nil _
                 | e :: l' => List.Forall_cons _ e l' (F (snd e)) (G l')
                 end) entries)
    end.

(** [joinAll d [n1; ...; nk]] is [d/n1/.../nk]. *)
Definition joinAll (d : path) (names : list string) : path :=
  fold_left Join names d.

Lemma joinAll_cons d n ns : joinAll d (n :: ns) = joinAll (Join d n) ns.
Proof. reflexivity. Qed.

Lemma joinAll_snoc d ns n : joinAll d (ns ++ [n]) = Join (joinAll d ns) n.
Proof. unfold joinAll. rewrite fold_left_app. reflexivity. Qed.

(** The location a call writes to, when it writes. *)
Definition dstOf (c : Call) : option path :=
  match c with
  | OsMkdirAll p | OsCreate p | OsWriteFile p _ | DSStoreWrite _ p => Some p
  | IoCopyBuffer _ d | OsLink _ d | OsSymlink _ d | OsRename _ d => Some d
  | _ => None
  end.

(** Every write of a trace goes to a location satisfying [good]. *)
Definition writesOnly (good : path -> Prop) (tr : Trace) : Prop :=
  Forall (fun cr => forall p, dstOf (fst cr) = Some p -> good p) tr.

Lemma writesOnly_app good tr1 tr2 :
  writesOnly good tr1 -> writesOnly good tr2 -> writesOnly good (tr1 ++ tr2).
Proof. unfold writesOnly. rewrite Forall_app. auto. Qed.

Lemma writesOnly_impl (good good' : path -> Prop) tr :
  (forall p, good p -> good' p) -> writesOnly good tr -> writesOnly good' tr.
Proof.
  intros H. unfold writesOnly. apply List.Forall_impl. intros cr Hcr p Hp.
  apply H, Hcr, Hp.
Qed.

(** A computation that, from any trace, appends calls writing only to
    [good] locations. *)
Definition writesTo {A} (m : M A) (good : path -> Prop) : Prop :=
  forall w t, exists new,
      snd (m w t) = (t ++ new)%list /\ writesOnly good new.

Lemma writesTo_ret {A} (a : A) good : writesTo (ret a) good.
Proof.
  intros w t. exists []. split; [simpl; by rewrite app_nil_r | constructor].
Qed.

Lemma writesTo_bind {A B} (m : M A) (k : A -> M B) good :
  writesTo m good -> (forall a, writesTo (k a) good) -> writesTo (bind m k) good.
Proof.
  intros Hm Hk w t. rewrite bind_eq.
  destruct (Hm w t) as (n1 & E1 & W1). rewrite E1.
  destruct (Hk (fst (m w t)) w (t ++ n1)%list) as (n2 & E2 & W2).
  exists (n1 ++ n2)%list. split.
  - rewrite E2. by rewrite app_assoc.
  - by apply writesOnly_app.
Qed.

Lemma writesTo_call c (good : path -> Prop) :
  (forall p, dstOf c = Some p -> good p) -> writesTo (call c) good.
Proof.
  intros H w t. eexists. split; [reflexivity|].
  constructor; [exact H | constructor].
Qed.

Lemma writesTo_callE c (good : path -> Prop) :
  (forall p, dstOf c = Some p -> good p) -> writesTo (callE c) good.
Proof.
  intros H. unfold callE. apply writesTo_bind.
  - by apply writesTo_call.
  - intros r. apply writesTo_ret.
Qed.

Lemma writesTo_andThen (m k : M error) good :
  writesTo m good -> writesTo k good -> writesTo (andThen m k) good.
Proof.
  intros Hm Hk. unfold andThen. apply writesTo_bind; [exact Hm|].
  intros [e|]; [apply writesTo_ret | exact Hk].
Qed.

Lemma writesTo_wrap ctx (m : M error) good :
  writesTo m good -> writesTo (wrap ctx m) good.
Proof.
  intros Hm. unfold wrap. apply writesTo_bind; [exact Hm|].
  intros e. apply writesTo_ret.
Qed.

Lemma writesTo_impl {A} (m : M A) (good good' : path -> Prop) :
  (forall p, good p -> good' p) -> writesTo m good -> writesTo m good'.
Proof.
  intros H Hm w t. destruct (Hm w t) as (new & E & W).
  exists new. split; [exact E | by eapply writesOnly_impl].
Qed.

(** [copyFile] writes the destination and makes sure of its directory. *)
Lemma writesTo_copyFile src dst :
  writesTo (copyFile src dst) (fun p => p = dst \/ p = pathDir dst).
Proof.
  unfold copyFile.
  apply writesTo_bind; [apply writesTo_callE; discriminate|].
  intros [e|]; [apply writesTo_ret|].
  apply writesTo_bind;
    [apply writesTo_callE; intros p [= <-]; by right|].
  intros [e|]; [apply writesTo_ret|].
  apply writesTo_bind;
    [apply writesTo_callE; intros p [= <-]; by left|].
  intros [e|]; [apply writesTo_ret|].
  apply writesTo_callE; intros p [= <-]; by left.
Qed.

Lemma writesTo_linkOrCopy src dst :
  writesTo (linkOrCopy src dst) (fun p => p = dst \/ p = pathDir dst).
Proof.
  unfold linkOrCopy.
  apply writesTo_bind;
    [apply writesTo_callE; intros p [= <-]; by left|].
  intros [e|]; [apply writesTo_copyFile | apply writesTo_ret].
Qed.

Section CopyTreeWrites.

Variable skip : string -> bool.
Variable leaf : path -> path -> M error.
Hypothesis leaf_writes :
  forall s d, writesTo (leaf s d) (fun p => p = d \/ p = pathDir d).

(** A location below [dst] none of whose components is skipped. *)
Definition keptBelow (dst p : path) : Prop :=
  exists names,
    p = joinAll dst names /\ Forall (fun n => skip n = false) names.

Lemma keptBelow_here dst : keptBelow dst dst.
Proof. exists []. split; [reflexivity | constructor]. Qed.

Lemma keptBelow_child dst name p :
  skip name = false -> keptBelow (Join dst name) p -> keptBelow dst p.
Proof.
  intros Hs (names & -> & Hn). exists (name :: names).
  split; [reflexivity | by constructor].
Qed.

Lemma copyEntries_writes rec src dst entries :
  Forall (fun e => forall s d, writesTo (rec (snd e) s d) (keptBelow d))
         entries ->
  writesTo (copyEntries skip leaf rec src dst entries) (keptBelow dst).
Proof.
  induction 1 as [|[name child] l Hc _ IH]; simpl.
  - apply writesTo_ret.
  - destruct (skip name) eqn:Hs; [exact IH|].
    destruct child as [size|readable sub|].
    + apply writesTo_andThen; [|exact IH].
      eapply writesTo_impl; [|apply leaf_writes].
      intros p [->| ->]; simpl.
      * apply (keptBelow_child dst name); [exact Hs | apply keptBelow_here].
      * apply keptBelow_here.
    + apply writesTo_andThen; [|exact IH].
      eapply writesTo_impl; [|apply Hc].
      intros p. by apply keptBelow_child.
    + exact IH.
Qed.

(** Whatever the tree and the world, a tree copy writes only below its
    destination, and never at or below a skipped name. *)
Lemma copyTree_writes node :
  forall src dst, writesTo (copyTree skip leaf node src dst) (keptBelow dst).
Proof.
  induction node as [size| |readable entries IH] using Node_ind';
    intros src dst; simpl.
  - apply writesTo_andThen; [|apply writesTo_ret].
    apply writesTo_callE. intros p [= <-]. apply keptBelow_here.
  - apply writesTo_ret.
  - apply writesTo_andThen.
    + apply writesTo_callE. intros p [= <-]. apply keptBelow_here.
    + destruct readable; [|apply writesTo_ret].
      apply copyEntries_writes. exact IH.
Qed.

End CopyTreeWrites.

(** [entryOf node names child]: descending from [node] through the entries
    called [names] leads to [child]. *)
Inductive entryOf : Node -> list string -> Node -> Prop :=
| entry_here readable entries name child :
    In (name, child) entries ->
    entryOf (NDir readable entries) [name] child
| entry_below readable entries name sub rest child :
    In (name, sub) entries ->
    entryOf sub rest child ->
    entryOf (NDir readable entries) (name :: rest) child.

Lemma andThen_None (m k : M error) w t :
  fst (andThen m k w t) = None ->
  fst (m w t) = None /\ fst (k w (snd (m w t))) = None /\
  snd (andThen m k w t) = snd (k w (snd (m w t))).
Proof.
  unfold andThen. rewrite bind_eq.
  destruct (fst (m w t)) as [e|]; simpl; [discriminate | auto].
Qed.

Lemma callE_None c w t :
  fst (callE c w t) = None ->
  exists out, callE c w t = (None, t ++ [(c, ROk out)]).
Proof.
  unfold callE. rewrite bind_eq, call_eq. simpl.
  destruct (w_reply w t c) as [out|e]; simpl; [|discriminate].
  intros _. exists out. reflexivity.
Qed.

Section CopyTreeCovers.

Variable skip : string -> bool.
Variable leaf : path -> path -> M error.

(** What a trace shows when [leaf src dst] has staged a file. *)
Variable leafDone : path -> path -> Trace -> Prop.
Hypothesis leafDone_mono :
  forall s d pre tr post, leafDone s d tr -> leafDone s d (pre ++ tr ++ post).
Hypothesis leaf_done :
  forall s d w t, fst (leaf s d w t) = None ->
                  exists new, snd (leaf s d w t) = t ++ new /\ leafDone s d new.

(** What a trace shows for a staged entry: a file has been handled by
    [leaf], a directory has been created; for an entry whose kind cannot
    be determined nothing is promised. *)
Definition staged (child : Node) (s d : path) (tr : Trace) : Prop :=
  match child with
  | NFile _ => leafDone s d tr
  | NDir _ _ => exists out, In (OsMkdirAll d, ROk out) tr
  | NGone => True
  end.

Lemma staged_mono child s d pre tr post :
  staged child s d tr -> staged child s d (pre ++ tr ++ post).
Proof.
  destruct child; simpl; [apply leafDone_mono | | trivial].
  intros [out H]. exists out. rewrite !in_app_iff. auto.
Qed.

(** The entries reachable from [node] through kept names are all staged
    in [tr], sources below [src] and destinations below [dst]. *)
Definition allStaged (node : Node) (src dst : path) (tr : Trace) : Prop :=
  forall names child,
    entryOf node names child ->
    Forall (fun n => skip n = false) names ->
    staged child (joinAll src names) (joinAll dst names) tr.

Definition covers (node : Node) : Prop :=
  forall src dst w t,
    fst (copyTree skip leaf node src dst w t) = None ->
    exists new,
      snd (copyTree skip leaf node src dst w t) = t ++ new
      /\ allStaged node src dst new
      /\ staged node src dst new.

Lemma copyEntries_covers src dst entries :
  Forall (fun e => covers (snd e)) entries ->
  forall w t,
    fst (copyEntries skip leaf (fun child s d => copyTree skip leaf child s d)
                     src dst entries w t) = None ->
    exists new,
      snd (copyEntries skip leaf
                       (fun child s d => copyTree skip leaf child s d)
                       src dst entries w t) = t ++ new
      /\ forall name child,
          In (name, child) entries -> skip name = false ->
          staged child (Join src name) (Join dst name) new
          /\ allStaged child (Join src name) (Join dst name) new.
Proof.
  induction 1 as [|[name child] l Hc _ IH]; intros w t Hok.
  - exists []. split; [simpl; by rewrite app_nil_r|]. intros ? ? [].
  - simpl in Hok, Hc |- *. destruct (skip name) eqn:Hs.
    { destruct (IH w t Hok) as (new & E & Hall). exists new.
      split; [exact E|]. intros n c [[= <- <-]|Hin] Hn;
        [congruence | by apply Hall]. }
    destruct child as [size|readable sub|].
    + apply andThen_None in Hok as (H1 & H2 & ->).
      destruct (leaf_done _ _ _ _ H1) as (n1 & E1 & D1).
      rewrite E1 in H2 |- *.
      destruct (IH w _ H2) as (n2 & E2 & Hall).
      exists (n1 ++ n2). split; [rewrite E2; by rewrite app_assoc|].
      intros n c [[= <- <-]|Hin] Hn.
      * split.
        -- apply (leafDone_mono _ _ [] n1 n2), D1.
        -- intros ? ? He. inversion He.
      * destruct (Hall n c Hin Hn) as [S1 S2]. split.
        -- apply (staged_mono _ _ _ n1 n2 []) in S1.
           by rewrite app_nil_r in S1.
        -- intros ns c' He Hk.
           specialize (S2 ns c' He Hk).
           apply (staged_mono _ _ _ n1 n2 []) in S2.
           by rewrite app_nil_r in S2.
    + apply andThen_None in Hok as (H1 & H2 & ->).
      destruct (Hc _ _ _ _ H1) as (n1 & E1 & A1 & D1).
      rewrite E1 in H2 |- *.
      destruct (IH w _ H2) as (n2 & E2 & Hall).
      exists (n1 ++ n2). split; [rewrite E2; by rewrite app_assoc|].
      intros n c [[= <- <-]|Hin] Hn.
      * split.
        -- apply (staged_mono _ _ _ [] n1 n2), D1.
        -- intros ns c' He Hk.
           apply (staged_mono _ _ _ [] n1 n2), (A1 ns c' He Hk).
      * destruct (Hall n c Hin Hn) as [S1 S2]. split.
        -- apply (staged_mono _ _ _ n1 n2 []) in S1.
           by rewrite app_nil_r in S1.
        -- intros ns c' He Hk.
           specialize (S2 ns c' He Hk).
           apply (staged_mono _ _ _ n1 n2 []) in S2.
           by rewrite app_nil_r in S2.
    + destruct (IH w t Hok) as (new & E & Hall). exists new.
      split; [exact E|]. intros n c [[= <- <-]|Hin] Hn.
      * split; [exact I|]. intros ? ? He. inversion He.
      * by apply Hall.
Qed.

(** A tree copy that returns nil has staged every entry it could reach
    through kept names and whose kind it could determine. *)
Lemma copyTree_covers node : covers node.
Proof.
  induction node as [size| |readable entries IH] using Node_ind';
    intros src dst w t Hok.
  - simpl in Hok. apply andThen_None in Hok as (_ & H2 & _). discriminate.
  - discriminate.
  - simpl in Hok |- *. apply andThen_None in Hok as (H1 & H2 & ->).
    apply callE_None in H1 as [out E1]. rewrite E1 in H2 |- *. simpl snd in *.
    destruct readable; [|discriminate].
    destruct (copyEntries_covers src dst entries IH w _ H2) as (n2 & E2 & Hall).
    exists ((OsMkdirAll dst, ROk out) :: n2). split.
    { rewrite E2, <- app_assoc. reflexivity. }
    split.
    + intros names child He Hk.
      inversion He as [r es name c Hin | r es name sub rest c Hin Hsub];
        subst; apply Forall_cons in Hk as [Hk1 Hk2].
      * destruct (Hall _ _ Hin Hk1) as [S1 _].
        apply (staged_mono _ _ _ [(OsMkdirAll dst, ROk out)] n2 []) in S1.
        by rewrite app_nil_r in S1.
      * destruct (Hall _ _ Hin Hk1) as [_ S2].
        specialize (S2 _ _ Hsub Hk2).
        apply (staged_mono _ _ _ [(OsMkdirAll dst, ROk out)] n2 []) in S2.
        by rewrite app_nil_r in S2.
    + exists out. by left.
Qed.

End CopyTreeCovers.

(* ===================================================================== *)
(** ** The smart copy: bundle filtering *)
(* ===================================================================== *)

(** A successful [copyFile] is exactly four successful calls. *)
Lemma copyFile_None src dst w t :
  fst (copyFile src dst w t) = None ->
  exists o1 o2 o3 o4,
    copyFile src dst w t =
    (None, t ++ [(OsOpen src, ROk o1); (OsMkdirAll (pathDir dst), ROk o2);
                 (OsCreate dst, ROk o3); (IoCopyBuffer src dst, ROk o4)]).
Proof.
  unfold copyFile. mrun.
  destruct (w_reply w t (OsOpen src)) as [o1|]; mrun; [|discriminate].
  destruct (w_reply w _ (OsMkdirAll (pathDir dst))) as [o2|]; mrun;
    [|discriminate].
  destruct (w_reply w _ (OsCreate dst)) as [o3|]; mrun; [|discriminate].
  destruct (w_reply w _ (IoCopyBuffer src dst)) as [o4|]; mrun;
    [|discriminate].
  intros _. exists o1, o2, o3, o4. rewrite <- !app_assoc. reflexivity.
Qed.

(** The bytes of [src] have been copied to [dst]. *)
Definition copied (src dst : path) (tr : Trace) : Prop :=
  exists out, In (IoCopyBuffer src dst, ROk out) tr.

Lemma copied_mono s d pre tr post :
  copied s d tr -> copied s d (pre ++ tr ++ post).
Proof. intros [out H]. exists out. rewrite !in_app_iff. auto. Qed.

Lemma copyFile_copied s d w t :
  fst (copyFile s d w t) = None ->
  exists new, snd (copyFile s d w t) = t ++ new /\ copied s d new.
Proof.
  intros H. destruct (copyFile_None _ _ _ _ H) as (o1 & o2 & o3 & o4 & E).
  rewrite E. eexists. split; [reflexivity|].
  exists o4. simpl. auto.
Qed.

Fixpoint depth (p : path) : nat :=
  match p with
  | P _ => O
  | Join d _ => S (depth d)
  end.

Lemma depth_joinAll d names :
  depth (joinAll d names) = (depth d + length names)%nat.
Proof.
  revert d. induction names as [|n names IH]; intros d.
  - simpl. lia.
  - rewrite joinAll_cons, IH. simpl. lia.
Qed.

(** Different lists of names lead to different locations. *)
Lemma joinAll_inj d (a b : list string) :
  joinAll d a = joinAll d b -> a = b.
Proof.
  revert b. induction a as [|x a IH] using rev_ind; intros b E.
  - destruct b as [|y b] using rev_ind; [reflexivity|].
    apply (f_equal depth) in E. rewrite !depth_joinAll in E.
    rewrite length_app in E. simpl in E. lia.
  - destruct b as [|y b _] using rev_ind.
    + apply (f_equal depth) in E. rewrite !depth_joinAll in E.
      rewrite length_app in E. simpl in E. lia.
    + rewrite !joinAll_snoc in E. injection E as E1 E2.
      rewrite (IH b E1), E2. reflexivity.
Qed.

(** Writing only through kept names means writing nowhere at or below a
    skipped name. *)
Lemma keptBelow_omits skip dst new names :
  writesOnly (keptBelow skip dst) new ->
  Exists (fun n => skip n = true) names ->
  forall c r, In (c, r) new -> dstOf c <> Some (joinAll dst names).
Proof.
  intros W Hex c r Hin Hd.
  unfold writesOnly in W. rewrite List.Forall_forall in W.
  destruct (W _ Hin _ Hd) as (ns & E & Hk).
  apply joinAll_inj in E. subst ns.
  apply List.Exists_exists in Hex as (n & Hn & Hs).
  rewrite List.Forall_forall in Hk. specialize (Hk n Hn). congruence.
Qed.

Definition kept (name : string) : Prop := shouldExclude name = false.

(** C9 (amended).  Whatever the source tree and the world, [smartCopyDir]
    writes nothing at a location below the destination one of whose path
    components matches the exclusion list (so a [.DS_Store] file and a
    [__MACOSX] directory are omitted with everything below them); and when
    it returns nil, every entry reachable through non-excluded names has
    been staged if its kind could be determined: a file has been copied, a
    directory has been created.  (An entry that cannot be stat'ed is passed
    over silently.) *)
Theorem smartCopyDir_filters (src dst : path) (w : World) (t : Trace) :
  exists new,
    snd (smartCopyDir src dst w t) = t ++ new
    /\ (forall names,
          Exists (fun n => shouldExclude n = true) names ->
          forall c r, In (c, r) new -> dstOf c <> Some (joinAll dst names))
    /\ (fst (smartCopyDir src dst w t) = None ->
        forall names child,
          entryOf (w_stat w t src) names child ->
          Forall kept names ->
          match child with
          | NFile _ => copied (joinAll src names) (joinAll dst names) new
          | NDir _ _ =>
              exists out, In (OsMkdirAll (joinAll dst names), ROk out) new
          | NGone => True
          end).
Proof.
  unfold smartCopyDir, smartCopyDirFrom. rewrite bind_eq. simpl fst. simpl snd.
  destruct (copyTree_writes shouldExclude copyFile writesTo_copyFile
              (w_stat w t src) src dst w t) as (new & E & W).
  exists new. split; [exact E|].
  split; [intros names; by apply keptBelow_omits|].
  intros Hok names child He Hk.
  destruct (copyTree_covers shouldExclude copyFile copied copied_mono
              copyFile_copied (w_stat w t src) src dst w t Hok)
    as (new' & E' & Hall & _).
  rewrite E in E'. apply app_inv_head in E'. subst new'.
  specialize (Hall names child He Hk). destruct child; exact Hall.
Qed.

(** An application bundle with a [.DS_Store] file, a [__MACOSX] directory,
    a log file two levels down, a dangling link and ordinary content. *)
Definition sampleBundle : Node :=
  NDir true
       [(".DS_Store", NFile 6148);
        ("Contents",
         NDir true [("Info.plist", NFile 300);
                    ("MacOS", NDir true [("app", NFile 4096);
                                         ("run.log", NFile 10)])]);
        ("__MACOSX", NDir true [("junk", NFile 1)]);
        ("dangling", NGone)].

Definition bundleWorld : World :=
  mkWorld (fun _ _ => ROk []) (fun _ _ => sampleBundle) (fun _ _ => sampleBundle).

Example smartCopyDir_sample :
  run (smartCopyDir (P "My.app") (P "/stage/My.app")) bundleWorld =
  (None,
   [(OsMkdirAll (P "/stage/My.app"), ROk []);
    (OsMkdirAll (Join (P "/stage/My.app") "Contents"), ROk []);
    (OsOpen (Join (Join (P "My.app") "Contents") "Info.plist"), ROk []);
    (OsMkdirAll (Join (P "/stage/My.app") "Contents"), ROk []);
    (OsCreate (Join (Join (P "/stage/My.app") "Contents") "Info.plist"), ROk []);
    (IoCopyBuffer (Join (Join (P "My.app") "Contents") "Info.plist")
                  (Join (Join (P "/stage/My.app") "Contents") "Info.plist"),
     ROk []);
    (OsMkdirAll (Join (Join (P "/stage/My.app") "Contents") "MacOS"), ROk []);
    (OsOpen (Join (Join (Join (P "My.app") "Contents") "MacOS") "app"), ROk []);
    (OsMkdirAll (Join (Join (P "/stage/My.app") "Contents") "MacOS"), ROk []);
    (OsCreate (Join (Join (Join (P "/stage/My.app") "Contents") "MacOS") "app"),
     ROk []);
    (IoCopyBuffer (Join (Join (Join (P "My.app") "Contents") "MacOS") "app")
                  (Join (Join (Join (P "/stage/My.app") "Contents") "MacOS") "app"),
     ROk [])]).
Proof. vm_compute. reflexivity. Qed.

(** The claim as the specification words it: after a successful smart copy
    every non-excluded entry of the source directory exists in the
    destination. *)
Definition smartCopy_copies_every_kept_entry : Prop :=
  forall (w : World) (src dst : path) readable entries name child,
    w_stat w [] src = NDir readable entries ->
    fst (run (smartCopyDir src dst) w) = None ->
    In (name, child) entries ->
    shouldExclude name = false ->
    exists c out,
      In (c, ROk out) (snd (run (smartCopyDir src dst) w))
      /\ dstOf c = Some (Join dst name).

(** It fails on the bundle above: [dangling] is not excluded, the copy
    returns nil, and nothing is written at [/stage/My.app/dangling]. *)
Lemma smartCopyDir_skips_unreadable_entry :
  ~ smartCopy_copies_every_kept_entry.
Proof.
  intros H.
  destruct (H bundleWorld (P "My.app") (P "/stage/My.app") true
              [(".DS_Store", NFile 6148);
               ("Contents",
                NDir true [("Info.plist", NFile 300);
                           ("MacOS", NDir true [("app", NFile 4096);
                                                ("run.log", NFile 10)])]);
               ("__MACOSX", NDir true [("junk", NFile 1)]);
               ("dangling", NGone)]
              "dangling" NGone)
    as (c & out & Hin & Hd).
  - reflexivity.
  - reflexivity.
  - simpl. tauto.
  - reflexivity.
  - rewrite smartCopyDir_sample in Hin. simpl in Hin.
    repeat (destruct Hin as [[= <- <-]|Hin]; [discriminate Hd|]).
    exact Hin.
Qed.

Lemma smartCopyDir_filters_witness :
  copied (Join (Join (P "My.app") "Contents") "Info.plist")
         (Join (Join (P "/stage/My.app") "Contents") "Info.plist")
         (snd (smartCopyDir (P "My.app") (P "/stage/My.app") bundleWorld []))
  /\ forall c r,
      In (c, r) (snd (smartCopyDir (P "My.app") (P "/stage/My.app")
                                   bundleWorld [])) ->
      dstOf c <> Some (Join (Join (P "/stage/My.app") "__MACOSX") "junk").
Proof.
  destruct (smartCopyDir_filters (P "My.app") (P "/stage/My.app")
                                 bundleWorld [])
    as (new & E & Hex & Hok).
  rewrite E. simpl app. split.
  - apply (Hok eq_refl ["Contents"; "Info.plist"] (NFile 300)).
    + eapply entry_below; [simpl; eauto|].
      apply entry_here. simpl. eauto.
    + repeat constructor.
  - apply (Hex ["__MACOSX"; "junk"]). left. reflexivity.
Defined.

(* ===================================================================== *)
(** ** The hard-link staging *)
(* ===================================================================== *)

(** A computation all of whose calls satisfy [Q]. *)
Definition emits {A} (m : M A) (Q : Call -> Prop) : Prop :=
  forall w t, exists new,
      snd (m w t) = t ++ new /\ Forall (fun cr => Q (fst cr)) new.

Lemma emits_ret {A} (a : A) Q : emits (ret a) Q.
Proof.
  intros w t. exists []. split; [simpl; by rewrite app_nil_r | constructor].
Qed.

Lemma emits_bind {A B} (m : M A) (k : A -> M B) Q :
  emits m Q -> (forall a, emits (k a) Q) -> emits (bind m k) Q.
Proof.
  intros Hm Hk w t. rewrite bind_eq.
  destruct (Hm w t) as (n1 & E1 & W1). rewrite E1.
  destruct (Hk (fst (m w t)) w (t ++ n1)) as (n2 & E2 & W2).
  exists (n1 ++ n2). split.
  - rewrite E2. by rewrite app_assoc.
  - apply Forall_app. auto.
Qed.

Lemma emits_callE c (Q : Call -> Prop) : Q c -> emits (callE c) Q.
Proof.
  intros H w t. unfold callE. rewrite bind_eq, call_eq. simpl.
  eexists. split; [reflexivity|]. by repeat constructor.
Qed.

Lemma emits_andThen (m k : M error) Q :
  emits m Q -> emits k Q -> emits (andThen m k) Q.
Proof.
  intros Hm Hk. unfold andThen. apply emits_bind; [exact Hm|].
  intros [e|]; [apply emits_ret | exact Hk].
Qed.

Lemma emits_copyFile src dst (Q : Call -> Prop) :
  Q (OsOpen src) -> Q (OsMkdirAll (pathDir dst)) -> Q (OsCreate dst) ->
  Q (IoCopyBuffer src dst) -> emits (copyFile src dst) Q.
Proof.
  intros Q1 Q2 Q3 Q4. unfold copyFile.
  apply emits_bind; [by apply emits_callE|].
  intros [e|]; [apply emits_ret|].
  apply emits_bind; [by apply emits_callE|].
  intros [e|]; [apply emits_ret|].
  apply emits_bind; [by apply emits_callE|].
  intros [e|]; [apply emits_ret|].
  by apply emits_callE.
Qed.

Lemma copyTree_emits skip leaf (Q : Call -> Prop) :
  (forall s d, emits (leaf s d) Q) ->
  (forall p, Q (OsMkdirAll p)) ->
  forall node src dst, emits (copyTree skip leaf node src dst) Q.
Proof.
  intros Hleaf Hmk.
  induction node as [size| |readable entries IH] using Node_ind';
    intros src dst; simpl.
  - apply emits_andThen; [by apply emits_callE | apply emits_ret].
  - apply emits_ret.
  - apply emits_andThen; [by apply emits_callE|].
    destruct readable; [|apply emits_ret].
    revert src dst.
    induction IH as [|[name child] l Hc _ IHl]; intros src dst; simpl.
    + apply emits_ret.
    + destruct (skip name); [apply IHl|].
      destruct child; simpl in Hc.
      * apply emits_andThen; [apply Hleaf | apply IHl].
      * apply emits_andThen; [apply Hc | apply IHl].
      * apply IHl.
Qed.

Definition isLink (c : Call) : bool :=
  match c with
  | OsLink _ _ => true
  | _ => false
  end.

(** The smart copy never attempts a hard link. *)
Lemma smartCopyDir_never_links src dst :
  emits (smartCopyDir src dst) (fun c => isLink c = false).
Proof.
  unfold smartCopyDir, smartCopyDirFrom. apply emits_bind.
  - intros w t. exists []. split; [simpl; by rewrite app_nil_r | constructor].
  - intros node. apply copyTree_emits; [|reflexivity].
    intros s d. by apply emits_copyFile.
Qed.







(** A world where hard links across devices fail for [Info.plist]. *)
Definition linkWorld : World :=
  mkWorld
    (fun _ c =>
       match c with
       | OsLink (Join _ "Info.plist") _ => RErr "cross-device link"
       | OsMkdirTemp _ => ROk ["/tmp/safe"]
       | _ => ROk []
       end)
    (fun _ _ => sampleBundle) (fun _ _ => sampleBundle).

Example copyDirWithHardLinks_sample :
  run (copyDirWithHardLinks (P "My.app") (P "/stage/My.app")) linkWorld =
  (None,
   [(OsMkdirAll (P "/stage/My.app"), ROk []);
    (OsLink (Join (P "My.app") ".DS_Store")
            (Join (P "/stage/My.app") ".DS_Store"), ROk []);
    (OsMkdirAll (Join (P "/stage/My.app") "Contents"), ROk []);
    (OsLink (Join (Join (P "My.app") "Contents") "Info.plist")
            (Join (Join (P "/stage/My.app") "Contents") "Info.plist"),
     RErr "cross-device link");
    (OsOpen (Join (Join (P "My.app") "Contents") "Info.plist"), ROk []);
    (OsMkdirAll (Join (P "/stage/My.app") "Contents"), ROk []);
    (OsCreate (Join (Join (P "/stage/My.app") "Contents") "Info.plist"), ROk []);
    (IoCopyBuffer (Join (Join (P "My.app") "Contents") "Info.plist")
                  (Join (Join (P "/stage/My.app") "Contents") "Info.plist"),
     ROk []);
    (OsMkdirAll (Join (Join (P "/stage/My.app") "Contents") "MacOS"), ROk []);
    (OsLink (Join (Join (Join (P "My.app") "Contents") "MacOS") "app")
            (Join (Join (Join (P "/stage/My.app") "Contents") "MacOS") "app"),
     ROk []);
    (OsLink (Join (Join (Join (P "My.app") "Contents") "MacOS") "run.log")
            (Join (Join (Join (P "/stage/My.app") "Contents") "MacOS") "run.log"),
     ROk []);
    (OsMkdirAll (Join (P "/stage/My.app") "__MACOSX"), ROk []);
    (OsLink (Join (Join (P "My.app") "__MACOSX") "junk")
            (Join (Join (P "/stage/My.app") "__MACOSX") "junk"), ROk [])]).
Proof. vm_compute. reflexivity. Qed.


(** The hard-link-safe build of a bundle: every file of the bundle is copied
    in full and no hard link is attempted for any of them. *)
Definition hardLinkConfig : Config :=
  mkConfig "App.dmg" "App" "" 14 128 640 480 ""
           [mkItem 160 240 Dir "My.app"] None UDRO "" true false.



(* ===================================================================== *)
(** ** One staged entry per content item *)
(* ===================================================================== *)

(** What [filepath.Join(dir, n)] makes of a last element [n] that is not
    the name of an entry.  The result of [filepath.Join] is cleaned: for
    [.], for [/] and for an empty element it is [dir] itself, for [..] it
    is the parent of [dir].  [filepath.Base] returns [.] for an empty path,
    [/] for a path of slashes and [..] for a path that ends in [..]; every
    other base name is the name of an entry. *)
Definition staysInDir (n : string) : bool :=
  String.eqb n "." || String.eqb n "/" || String.eqb n "".

Definition entryName (n : string) : bool :=
  negb (staysInDir n || String.eqb n "..").

(** The declared item types, the cases of the staging switches. *)
Definition declaredType (ty : ItemType) : bool :=
  String.eqb ty File || String.eqb ty Dir || String.eqb ty Link.

(** [p] is the directory [dir], possibly written with last elements that
    stay in it. *)
Fixpoint denotes (dir p : path) : bool :=
  if decide (p = dir) then true
  else match p with
       | P _ => false
       | Join d n => staysInDir n && denotes dir d
       end.

(** The entry of directory [dir] that a location lies in: [n] for
    [dir/n] and for everything below it, nothing for [dir] itself, for its
    parent and for locations that are not below [dir].  (Elements below the
    first one are names from directory listings or fixed names.) *)
Fixpoint topName (dir p : path) : option string :=
  match p with
  | P _ => None
  | Join d n =>
      if denotes dir d
      then (if entryName n then Some n else None)
      else topName dir d
  end.

Lemma denotes_refl dir : denotes dir dir = true.
Proof. destruct dir; simpl; rewrite decide_True; reflexivity. Qed.

Lemma denotes_depth dir p : denotes dir p = true -> (depth dir <= depth p)%nat.
Proof.
  induction p as [s|d IH n]; simpl.
  - destruct (decide (P s = dir)) as [<-|_]; [simpl; lia | discriminate].
  - destruct (decide (Join d n = dir)) as [<-|_]; [simpl; lia|].
    intros H. apply andb_prop in H as [_ H]. specialize (IH H). lia.
Qed.

Lemma topName_depth dir p n :
  topName dir p = Some n -> (depth dir < depth p)%nat.
Proof.
  induction p as [s|d IH m]; simpl; [discriminate|].
  destruct (denotes dir d) eqn:Ed.
  - intros _. apply denotes_depth in Ed. lia.
  - intros H. specialize (IH H). lia.
Qed.

Lemma topName_self dir : topName dir dir = None.
Proof.
  destruct (topName dir dir) as [n|] eqn:E; [|reflexivity].
  apply topName_depth in E. lia.
Qed.

(** The directory itself, however written, is not one of its entries. *)
Lemma topName_denotes dir p : denotes dir p = true -> topName dir p = None.
Proof.
  intros H. destruct (decide (p = dir)) as [->|Hne]; [apply topName_self|].
  destruct p as [s|d n]; [reflexivity|].
  simpl in H. rewrite decide_False in H by exact Hne.
  apply andb_prop in H as [Hn Hd]. simpl. rewrite Hd.
  unfold entryName. rewrite Hn. reflexivity.
Qed.

Lemma denotes_below dir b names :
  entryName b = true -> denotes dir (joinAll (Join dir b) names) = false.
Proof.
  intros Hb. induction names as [|x names IH] using rev_ind.
  - simpl. rewrite decide_False.
    + unfold entryName in Hb. apply negb_true_iff, orb_false_elim in Hb.
      destruct Hb as [-> _]. reflexivity.
    + intros E. apply (f_equal depth) in E. simpl in E. lia.
  - rewrite joinAll_snoc. simpl. rewrite decide_False.
    + rewrite IH. apply andb_false_r.
    + intros E. apply (f_equal depth) in E. simpl in E.
      rewrite depth_joinAll in E. simpl in E. lia.
Qed.

Lemma topName_entry dir b : entryName b = true -> topName dir (Join dir b) = Some b.
Proof. intros Hb. simpl. rewrite denotes_refl, Hb. reflexivity. Qed.

Lemma topName_below dir b names :
  entryName b = true ->
  topName dir (joinAll (Join dir b) names) = Some b.
Proof.
  intros Hb. induction names as [|x names IH] using rev_ind.
  - apply topName_entry, Hb.
  - rewrite joinAll_snoc. simpl. rewrite denotes_below by exact Hb. exact IH.
Qed.

(** The entries of [dir] that the successful calls of a trace have written
    (created, or written into). *)
Definition topNames (dir : path) (tr : Trace) : list string :=
  omap (fun cr : Call * Reply =>
          match snd cr with
          | ROk _ => p ← dstOf (fst cr); topName dir p
          | RErr _ => None
          end) tr.

Definition stagedNames (dir : path) (tr : Trace) : gset string :=
  list_to_set (topNames dir tr).

Lemma topNames_app dir tr1 tr2 :
  topNames dir (tr1 ++ tr2) = topNames dir tr1 ++ topNames dir tr2.
Proof. unfold topNames. apply omap_app. Qed.

Lemma stagedNames_app dir tr1 tr2 :
  stagedNames dir (tr1 ++ tr2) = stagedNames dir tr1 ∪ stagedNames dir tr2.
Proof.
  unfold stagedNames. rewrite topNames_app. apply list_to_set_app_L.
Qed.

(** A location inside the entry [b] of [dir], or [dir] itself. *)
Definition inEntry (dir : path) (b : string) (p : path) : Prop :=
  topName dir p = Some b \/ denotes dir p = true.

Lemma stagedNames_inEntry dir b tr :
  writesOnly (inEntry dir b) tr -> stagedNames dir tr ⊆ {[ b ]}.
Proof.
  unfold writesOnly, stagedNames, topNames.
  induction 1 as [|[c r] tr H _ IH]; simpl.
  - set_solver.
  - destruct r as [out|e]; simpl; [|exact IH].
    destruct (dstOf c) as [p|] eqn:Ed; simpl; [|exact IH].
    destruct (H p Ed) as [E|E].
    + rewrite E. simpl. set_solver.
    + rewrite (topName_denotes _ _ E). exact IH.
Qed.

Lemma stagedNames_none dir tr :
  Forall (fun cr => dstOf (fst cr) = None) tr -> stagedNames dir tr = ∅.
Proof.
  unfold stagedNames, topNames.
  induction 1 as [|[c r] tr H _ IH]; simpl; [reflexivity|].
  simpl in H. rewrite H. destruct r; exact IH.
Qed.

Lemma stagedNames_written dir b tr c out :
  entryName b = true ->
  In (c, ROk out) tr -> dstOf c = Some (Join dir b) -> b ∈ stagedNames dir tr.
Proof.
  intros Hb Hin Hd. unfold stagedNames. apply elem_of_list_to_set.
  unfold topNames. apply list_elem_of_omap.
  exists (c, ROk out). split.
  - by apply list_elem_of_In.
  - cbn [fst snd]. rewrite Hd. cbn [mbind option_bind].
    apply topName_entry, Hb.
Qed.

(** What the staging of one item must achieve: it writes only inside the
    entry [b] of [dir], and when it succeeds that entry has been written. *)
Definition stagesEntry (m : M error) (dir : path) (b : string) : Prop :=
  forall w t, exists new,
      snd (m w t) = t ++ new
      /\ writesOnly (inEntry dir b) new
      /\ (fst (m w t) = None ->
          exists c out, In (c, ROk out) new /\ dstOf c = Some (Join dir b)).

Lemma stagesEntry_names m dir b w t :
  entryName b = true ->
  stagesEntry m dir b ->
  exists new,
    snd (m w t) = t ++ new
    /\ stagedNames dir new ⊆ {[ b ]}
    /\ (fst (m w t) = None -> stagedNames dir new = {[ b ]}).
Proof.
  intros Hb H. destruct (H w t) as (new & E & W & S).
  exists new. split; [exact E|].
  pose proof (stagedNames_inEntry _ _ _ W) as Hsub.
  split; [exact Hsub|]. intros Hok.
  destruct (S Hok) as (c & out & Hin & Hd).
  pose proof (stagedNames_written _ _ _ _ _ Hb Hin Hd).
  set_solver.
Qed.

Lemma wrap_fst ctx (m : M error) w t :
  fst (wrap ctx m w t) = None <-> fst (m w t) = None.
Proof.
  unfold wrap, Errorf. rewrite bind_eq. simpl.
  destruct (fst (m w t)); simpl; split; congruence.
Qed.

Lemma wrap_snd ctx (m : M error) w t : snd (wrap ctx m w t) = snd (m w t).
Proof. unfold wrap. rewrite bind_eq. reflexivity. Qed.

Lemma stagesEntry_wrap ctx m dir b :
  stagesEntry m dir b -> stagesEntry (wrap ctx m) dir b.
Proof.
  intros H w t. destruct (H w t) as (new & E & W & S).
  exists new. rewrite wrap_snd, wrap_fst. auto.
Qed.

(** A first attempt and, when it fails, a second one into the same entry. *)
Lemma stagesEntry_fallback (m1 m2 : M error) dir b :
  stagesEntry m1 dir b -> stagesEntry m2 dir b ->
  stagesEntry (e <- m1 ;; match e with
                          | None => ret None
                          | Some _ => m2
                          end) dir b.
Proof.
  intros H1 H2 w t. rewrite bind_eq.
  destruct (H1 w t) as (n1 & E1 & W1 & S1). rewrite E1.
  destruct (fst (m1 w t)) as [e|].
  - destruct (H2 w (t ++ n1)) as (n2 & E2 & W2 & S2).
    exists (n1 ++ n2). rewrite E2, app_assoc.
    split; [reflexivity|]. split; [by apply writesOnly_app|].
    intros Hok. destruct (S2 Hok) as (c & out & Hin & Hd).
    exists c, out. rewrite in_app_iff. auto.
  - exists n1. simpl. rewrite app_nil_r || idtac.
    split; [reflexivity|]. split; [exact W1|]. intros _. by apply S1.
Qed.

Lemma stagesEntry_call (c : Call) dir b :
  entryName b = true ->
  dstOf c = Some (Join dir b) -> stagesEntry (callE c) dir b.
Proof.
  intros Hb Hd w t. unfold callE. rewrite bind_eq, call_eq. simpl.
  eexists. split; [reflexivity|]. split.
  - constructor; [|constructor]. cbn [fst]. intros p Hp.
    rewrite Hd in Hp. injection Hp as <-. left. apply topName_entry, Hb.
  - destruct (w_reply w t c) as [out|e]; [|discriminate].
    intros _. exists c, out. simpl. auto.
Qed.

Lemma inEntry_leaf dir b p :
  entryName b = true ->
  p = Join dir b \/ p = pathDir (Join dir b) -> inEntry dir b p.
Proof.
  intros Hb [->| ->]; [left|right].
  - apply topName_entry, Hb.
  - apply denotes_refl.
Qed.

Lemma stagesEntry_copyFile src dir b :
  entryName b = true ->
  stagesEntry (copyFile src (Join dir b)) dir b.
Proof.
  intros Hb w t.
  destruct (writesTo_copyFile src (Join dir b) w t) as (new & E & W).
  exists new. split; [exact E|]. split.
  - eapply writesOnly_impl; [|exact W]. intros p. apply inEntry_leaf, Hb.
  - intros Hok. destruct (copyFile_None _ _ _ _ Hok) as (o1 & o2 & o3 & o4 & E').
    rewrite E' in E. simpl in E. apply app_inv_head in E. subst new.
    exists (OsCreate (Join dir b)), o3. simpl. auto.
Qed.

Lemma inEntry_keptBelow skip dir b p :
  entryName b = true ->
  keptBelow skip (Join dir b) p -> inEntry dir b p.
Proof. intros Hb (names & -> & _). left. apply topName_below, Hb. Qed.

(** A tree copy into [dir/b] stages the entry [b]. *)
Lemma stagesEntry_copyTree skip leaf node src dir b :
  entryName b = true ->
  (forall s d, writesTo (leaf s d) (fun p => p = d \/ p = pathDir d)) ->
  stagesEntry (copyTree skip leaf node src (Join dir b)) dir b.
Proof.
  intros Hb Hleaf w t.
  destruct (copyTree_writes skip leaf Hleaf node src (Join dir b) w t)
    as (new & E & W).
  exists new. split; [exact E|]. split.
  - eapply writesOnly_impl; [|exact W]. intros p. apply inEntry_keptBelow, Hb.
  - intros Hok.
    destruct (copyTree_covers skip leaf (fun _ _ _ => True)
                (fun _ _ _ _ _ _ => I)
                (fun s d w t _ =>
                   match Hleaf s d w t with
                   | ex_intro _ n (conj En _) => ex_intro _ n (conj En I)
                   end)
                node src (Join dir b) w t Hok) as (new' & E' & _ & S).
    rewrite E in E'. apply app_inv_head in E'. subst new'.
    destruct node as [size|readable entries|].
    + simpl in Hok. apply andThen_None in Hok as (_ & H2 & _). discriminate.
    + destruct S as [out Hin]. exists (OsMkdirAll (Join dir b)), out. auto.
    + discriminate.
Qed.

Lemma stagesEntry_stat (f : Node -> M error) src dir b :
  (forall node, stagesEntry (f node) dir b) ->
  stagesEntry (node <- statM src ;; f node) dir b.
Proof. intros H w t. rewrite bind_eq. simpl. apply H. Qed.

Lemma stagesEntry_andThen (m1 m2 : M error) dir b :
  stagesEntry m1 dir b -> writesTo m2 (inEntry dir b) ->
  stagesEntry (andThen m1 m2) dir b.
Proof.
  intros H1 H2 w t.
  destruct (H1 w t) as (n1 & E1 & W1 & S1).
  unfold andThen. rewrite bind_eq, E1.
  destruct (fst (m1 w t)) as [e|] eqn:Ef.
  - exists n1. split; [reflexivity|]. split; [exact W1 | discriminate].
  - destruct (H2 w (t ++ n1)) as (n2 & E2 & W2).
    exists (n1 ++ n2). rewrite E2, app_assoc.
    split; [reflexivity|]. split; [by apply writesOnly_app|].
    intros _. destruct (S1 eq_refl) as (c & out & Hin & Hd).
    exists c, out. rewrite in_app_iff. auto.
Qed.

Definition baseOf (item : Item) : string := GoString.Base (Path item).

(** An item the staging switches have a case for, whose base name is the
    name of an entry. *)
Definition stageable (item : Item) : Prop :=
  declaredType (Type_ item) = true /\ entryName (baseOf item) = true.

(** The three cases of a staging switch. *)
Lemma declaredType_cases (ty : ItemType) :
  declaredType ty = true ->
  String.eqb ty File = false ->
  String.eqb ty Dir = false ->
  String.eqb ty Link = true.
Proof.
  unfold declaredType. intros H EF ED. rewrite EF, ED in H. exact H.
Qed.

Lemma setupItem_stages config dir item :
  stageable item ->
  stagesEntry (setupItem config dir item) dir (baseOf item).
Proof.
  intros [Hty Hb]. unfold setupItem. fold (baseOf item).
  destruct (String.eqb (Type_ item) File) eqn:EF.
  - destruct (UseHardLinks config).
    + apply (stagesEntry_fallback (callE _)).
      * by apply stagesEntry_call.
      * apply stagesEntry_wrap, stagesEntry_copyFile, Hb.
    + apply stagesEntry_wrap, stagesEntry_copyFile, Hb.
  - destruct (String.eqb (Type_ item) Dir) eqn:ED.
    + destruct (UseHardLinks config).
      * apply (stagesEntry_fallback (copyDirWithHardLinks _ _)).
        -- apply stagesEntry_stat. intros node.
           apply stagesEntry_copyTree; [exact Hb | apply writesTo_linkOrCopy].
        -- apply stagesEntry_wrap, stagesEntry_stat. intros node.
           apply stagesEntry_copyTree; [exact Hb | apply writesTo_copyFile].
      * destruct (GoString.HasSuffix (Path item) ".app");
          apply stagesEntry_wrap, stagesEntry_stat; intros node;
          (apply stagesEntry_copyTree; [exact Hb | apply writesTo_copyFile]).
    + rewrite (declaredType_cases _ Hty EF ED).
      apply stagesEntry_wrap. by apply stagesEntry_call.
Qed.

Lemma symlinkItem_stages dir item :
  stageable item ->
  stagesEntry (symlinkItem dir item) dir (baseOf item).
Proof.
  intros [Hty Hb]. unfold symlinkItem. fold (baseOf item).
  destruct (String.eqb (Type_ item) File) eqn:EF;
    [apply stagesEntry_wrap; by apply stagesEntry_call|].
  destruct (String.eqb (Type_ item) Dir) eqn:ED;
    [apply stagesEntry_wrap; by apply stagesEntry_call|].
  rewrite (declaredType_cases _ Hty EF ED).
  apply stagesEntry_wrap. by apply stagesEntry_call.
Qed.

Lemma safeItem_stages dir item :
  stageable item ->
  stagesEntry (safeItem dir item) dir (baseOf item).
Proof.
  intros [Hty Hb]. unfold safeItem. fold (baseOf item).
  destruct (String.eqb (Type_ item) File) eqn:EF.
  - apply (stagesEntry_fallback (callE _)).
    + by apply stagesEntry_call.
    + apply stagesEntry_wrap, stagesEntry_copyFile, Hb.
  - destruct (String.eqb (Type_ item) Dir) eqn:ED.
    + apply stagesEntry_wrap. unfold smartCopyAppBundle, smartCopyDir.
      apply stagesEntry_stat. intros node.
      apply stagesEntry_copyTree; [exact Hb | apply writesTo_copyFile].
    + rewrite (declaredType_cases _ Hty EF ED).
      apply stagesEntry_wrap. by apply stagesEntry_call.
Qed.

(** A stager and the entries it is to make in [dir]: whatever happens it
    writes into no other entry of [dir], and when it returns nil it has
    written into every one of them. *)
Definition stagesNames (m : M error) (dir : path) (names : gset string)
           (w : World) (t : Trace) : Prop :=
  exists new,
    snd (m w t) = t ++ new
    /\ stagedNames dir new ⊆ names
    /\ (fst (m w t) = None -> stagedNames dir new = names).

Lemma stagesNames_andThen (m1 m2 : M error) dir (s1 s2 : gset string) w t :
  stagesNames m1 dir s1 w t ->
  (forall t', stagesNames m2 dir s2 w t') ->
  stagesNames (andThen m1 m2) dir (s1 ∪ s2) w t.
Proof.
  intros (n1 & E1 & S1 & N1) H2. unfold stagesNames, andThen.
  rewrite bind_eq, E1.
  destruct (fst (m1 w t)) as [e|] eqn:Ef.
  - exists n1. split; [reflexivity|]. split; [set_solver | discriminate].
  - destruct (H2 (t ++ n1)) as (n2 & E2 & S2 & N2).
    exists (n1 ++ n2). rewrite E2, app_assoc. split; [reflexivity|].
    rewrite stagedNames_app. split; [set_solver|].
    intros Hok. rewrite (N1 eq_refl), (N2 Hok). reflexivity.
Qed.

(** A staging loop writes into the entries named by the base names of the
    items, and into all of them when it succeeds. *)
Lemma forEachE_stages (stage : Item -> M error) dir (items : list Item) :
  Forall (fun item => entryName (baseOf item) = true
                      /\ stagesEntry (stage item) dir (baseOf item)) items ->
  forall w t,
    stagesNames (forEachE items stage) dir
                (list_to_set (map baseOf items)) w t.
Proof.
  induction 1 as [|item items [Hb Hst] _ IH]; intros w t.
  - exists []. simpl. rewrite app_nil_r.
    split; [reflexivity|]. split; [set_solver | reflexivity].
  - change (forEachE (item :: items) stage)
      with (andThen (stage item) (forEachE items stage)).
    change (list_to_set (map baseOf (item :: items)) : gset string)
      with ({[ baseOf item ]} ∪ list_to_set (map baseOf items) : gset string).
    apply stagesNames_andThen; [|intros t'; apply IH].
    apply stagesEntry_names; assumption.
Qed.

(** The entry the background image adds to a staging directory. *)
Definition backgroundNames (config : Config) : gset string :=
  if nonEmpty (Background config) then {[ ".background" ]} else ∅.

Lemma stageBackground_stages ctx config dir w t :
  stagesNames (stageBackground ctx config dir) dir (backgroundNames config)
              w t.
Proof.
  unfold stageBackground, backgroundNames.
  destruct (nonEmpty (Background config)).
  - apply stagesEntry_names; [reflexivity|]. apply stagesEntry_andThen.
    + apply stagesEntry_wrap. by apply stagesEntry_call.
    + apply writesTo_wrap.
      eapply writesTo_impl; [|apply writesTo_copyFile].
      intros p [->| ->]; left.
      * by apply (topName_below dir ".background" ["background.png"]).
      * by apply (topName_below dir ".background" []).
  - exists []. simpl. rewrite app_nil_r.
    split; [reflexivity|]. split; [set_solver | reflexivity].
Qed.

Lemma emits_call c (Q : Call -> Prop) : Q c -> emits (call c) Q.
Proof.
  intros H w t. rewrite call_eq. simpl.
  eexists. split; [reflexivity|]. by repeat constructor.
Qed.

Lemma emits_statM p Q : emits (statM p) Q.
Proof.
  intros w t. exists []. split; [simpl; by rewrite app_nil_r | constructor].
Qed.

Lemma emits_forEach {A} (l : list A) (body : A -> M unit) Q :
  (forall a, emits (body a) Q) -> emits (forEach l body) Q.
Proof.
  intros Hb. induction l as [|a l IH]; simpl.
  - apply emits_ret.
  - apply emits_bind; auto.
Qed.

Ltac emit_step :=
  first
    [ apply emits_ret | apply emits_statM
    | apply emits_call; reflexivity
    | apply emits_bind; [|intros ?]
    | apply emits_forEach; intros ?
    | match goal with
      | |- emits (match ?x with _ => _ end) _ => destruct x
      end
    | progress unfold ignore ].

(** The bundle-size optimization removes files and writes nothing. *)
Lemma optimizeAppBundle_writes_nothing appPath :
  emits (optimizeAppBundle appPath) (fun c => dstOf c = None).
Proof. unfold optimizeAppBundle. repeat emit_step. Qed.

Lemma stageable_stages (stage : Item -> M error) dir (items : list Item) :
  (forall item, stageable item ->
                stagesEntry (stage item) dir (baseOf item)) ->
  Forall stageable items ->
  Forall (fun item => entryName (baseOf item) = true
                      /\ stagesEntry (stage item) dir (baseOf item)) items.
Proof.
  intros Hst. apply List.Forall_impl. intros item H.
  split; [apply H | apply Hst, H].
Qed.

Lemma setupSourceDirectory_stages config dir w t :
  Forall stageable (Contents config) ->
  stagesNames (setupSourceDirectory config dir) dir
              (list_to_set (map baseOf (Contents config))
               ∪ backgroundNames config) w t.
Proof.
  intros Hall. unfold setupSourceDirectory.
  set (prelude := if OptimizeAppSize config then _ else _).
  assert (Hpre : emits prelude (fun c => dstOf c = None)).
  { unfold prelude. destruct (OptimizeAppSize config); [|apply emits_ret].
    apply emits_forEach. intros item. destruct (isAppDir item);
      [|apply emits_ret].
    apply emits_bind; [apply optimizeAppBundle_writes_nothing|].
    intros e. repeat emit_step. }
  destruct (Hpre w t) as (n0 & E0 & W0).
  destruct (stagesNames_andThen
              (forEachE (Contents config) (setupItem config dir))
              (stageBackground "failed to copy background: " config dir)
              dir _ _ w (t ++ n0)
              (forEachE_stages _ dir _
                 (stageable_stages _ dir _ (setupItem_stages config dir) Hall)
                 w (t ++ n0))
              (fun t' => stageBackground_stages _ config dir w t'))
    as (n1 & E1 & S1 & N1).
  exists (n0 ++ n1). rewrite bind_eq, E0, E1, app_assoc.
  split; [reflexivity|].
  rewrite stagedNames_app, (stagedNames_none _ _ W0).
  split; [set_solver|]. intros Hok. rewrite (N1 Hok). set_solver.
Qed.

Lemma createSymbolicLinks_stages config dir w t :
  Forall stageable (Contents config) ->
  stagesNames (createSymbolicLinks config dir) dir
              (list_to_set (map baseOf (Contents config))
               ∪ backgroundNames config) w t.
Proof.
  intros Hall. unfold createSymbolicLinks.
  apply stagesNames_andThen.
  - apply forEachE_stages, (stageable_stages _ dir _ (symlinkItem_stages dir)),
      Hall.
  - intros t'. apply stageBackground_stages.
Qed.

(** C8 (amended).  Take content items that all have one of the declared
    types ([File], [Dir], [Link]) and whose base names are pairwise
    distinct names of entries (not [.], [..] or [/]).  There are then as
    many base names as items, and every staging strategy --
    [setupSourceDirectory] (direct copy, and hard links with
    [UseHardLinks]), the staging loop of [createDMGWithSafeHardLinks] and
    [createSymbolicLinks] -- writes in the working directory into no entry
    other than those named by these base names (and [.background] when a
    background image is configured), and when it succeeds it has written
    into every one of them: one entry per item, named by the item's base
    name. *)
Theorem staging_one_entry_per_item
        (config : Config) (dir : path) (w : World) (t : Trace) :
  NoDup (map baseOf (Contents config)) ->
  Forall stageable (Contents config) ->
  size (list_to_set (map baseOf (Contents config)) : gset string)
  = length (Contents config)
  /\ stagesNames (setupSourceDirectory config dir) dir
                 (list_to_set (map baseOf (Contents config))
                  ∪ backgroundNames config) w t
  /\ stagesNames (safeStage config dir) dir
                 (list_to_set (map baseOf (Contents config))) w t
  /\ stagesNames (createSymbolicLinks config dir) dir
                 (list_to_set (map baseOf (Contents config))
                  ∪ backgroundNames config) w t.
Proof.
  intros Hnd Hall. split.
  { rewrite size_list_to_set; [by rewrite length_map | exact Hnd]. }
  split; [by apply setupSourceDirectory_stages|].
  split; [|by apply createSymbolicLinks_stages].
  apply forEachE_stages, (stageable_stages _ dir _ (safeItem_stages dir)), Hall.
Qed.

(** The sample contents: an application bundle and the link to
    [/Applications]. *)
Definition sampleContents : list Item :=
  [mkItem 160 240 Dir "build/My.app"; mkItem 480 240 Link "/Applications"].

Definition sampleStaging (useHardLinks : bool) : Config :=
  mkConfig "App.dmg" "App" "" 14 128 640 480 "" sampleContents
           None UDZO "" useHardLinks false.

Lemma staging_one_entry_per_item_witness :
  stagedNames (P "/stage")
    (snd (run (setupSourceDirectory (sampleStaging false) (P "/stage"))
              bundleWorld))
  = {[ "My.app"; "Applications" ]}
  /\ stagedNames (P "/stage")
       (snd (run (setupSourceDirectory (sampleStaging true) (P "/stage"))
                 bundleWorld))
     = {[ "My.app"; "Applications" ]}
  /\ stagedNames (P "/stage")
       (snd (run (safeStage (sampleStaging true) (P "/stage")) bundleWorld))
     = {[ "My.app"; "Applications" ]}
  /\ stagedNames (P "/stage")
       (snd (run (createSymbolicLinks (sampleStaging false) (P "/stage"))
                 bundleWorld))
     = {[ "My.app"; "Applications" ]}.
Proof.
  assert (Hnd : NoDup (map baseOf sampleContents)).
  { apply NoDup_cons. split; [|apply NoDup_singleton].
    intros H. apply list_elem_of_singleton in H. discriminate H. }
  assert (Hall : Forall stageable sampleContents).
  { repeat (constructor; [split; reflexivity|]). constructor. }
  destruct (staging_one_entry_per_item
              (sampleStaging false) (P "/stage") bundleWorld [] Hnd Hall)
    as (_ & (n1 & E1 & _ & N1) & _ & (n3 & E3 & _ & N3)).
  destruct (staging_one_entry_per_item
              (sampleStaging true) (P "/stage") bundleWorld [] Hnd Hall)
    as (_ & (n2 & E2 & _ & N2) & (n4 & E4 & _ & N4) & _).
  unfold run. rewrite E1, E2, E3, E4. cbn [app].
  rewrite (N1 eq_refl), (N2 eq_refl), (N3 eq_refl), (N4 eq_refl).
  unfold backgroundNames. simpl. repeat split; set_solver.
Defined.

(** An item of an undeclared type, and an item whose base name is [.]. *)
Definition undeclaredContents : list Item :=
  [mkItem 160 240 "folder" "docs"].

Definition dotContents : list Item := [mkItem 160 240 Dir "."].

Definition stagingOf (contents : list Item) : Config :=
  mkConfig "App.dmg" "App" "" 14 128 640 480 "" contents
           None UDZO "" false false.

(** A world whose current directory holds two files. *)
Definition dotWorld : World :=
  mkWorld (fun _ _ => ROk [])
          (fun _ _ => NDir true [("a.txt", NFile 10); ("b.txt", NFile 20)])
          (fun _ _ => NDir true [("a.txt", NFile 10); ("b.txt", NFile 20)]).

(** The claim as the specification words it does not hold of every
    contents list with distinct base names.  An item whose type is none of
    the declared ones is passed over by all three staging switches, which
    have no default case: the stager returns nil and has made no call, so
    no entry exists for the item.  And a directory item whose path is [.]
    has the base name [.], for which [filepath.Join] gives the working
    directory itself: [setupSourceDirectory] succeeds and has written the
    two entries of the source directory, none of them named [.]. *)
Lemma staging_passes_over_items :
  (NoDup (map baseOf undeclaredContents)
   /\ run (setupSourceDirectory (stagingOf undeclaredContents) (P "/stage"))
          okWorld = (None, [])
   /\ run (safeStage (stagingOf undeclaredContents) (P "/stage")) okWorld
      = (None, [])
   /\ run (createSymbolicLinks (stagingOf undeclaredContents) (P "/stage"))
          okWorld = (None, []))
  /\ (NoDup (map baseOf dotContents)
      /\ map baseOf dotContents = ["."]
      /\ fst (run (setupSourceDirectory (stagingOf dotContents) (P "/stage"))
                  dotWorld) = None
      /\ stagedNames (P "/stage")
           (snd (run (setupSourceDirectory (stagingOf dotContents)
                                           (P "/stage")) dotWorld))
         = {[ "a.txt"; "b.txt" ]}).
Proof.
  split.
  - split; [apply NoDup_singleton|]. repeat split; reflexivity.
  - split; [apply NoDup_singleton|].
    split; [reflexivity|]. split; [reflexivity|].
    unfold stagedNames.
    replace (topNames (P "/stage")
               (snd (run (setupSourceDirectory (stagingOf dotContents)
                                               (P "/stage")) dotWorld)))
      with ["a.txt"; "a.txt"; "b.txt"; "b.txt"]
      by (vm_compute; reflexivity).
    set_solver.
Qed.

(* ===================================================================== *)
(** ** Binary64 rounding of a product *)
(* ===================================================================== *)

Module Binary64.

#[local] Open Scope Z_scope.

(** The number of binary digits. *)
Lemma digits2_pos_size (p : positive) : digits2_pos p = Pos.size p.
Proof. induction p; simpl; congruence. Qed.

Lemma digits_log2 (p : positive) :
  Z.pos (digits2_pos p) = Z.succ (Z.log2 (Z.pos p)).
Proof.
  rewrite digits2_pos_size.
  destruct p; simpl; try rewrite Pos2Z.inj_succ; reflexivity.
Qed.

Lemma digits_bounds (p : positive) :
  2 ^ (Z.pos (digits2_pos p) - 1) <= Z.pos p < 2 ^ Z.pos (digits2_pos p).
Proof.
  rewrite digits_log2.
  replace (Z.succ (Z.log2 (Z.pos p)) - 1) with (Z.log2 (Z.pos p)) by lia.
  apply Z.log2_spec. lia.
Qed.

Lemma digits_unique (p : positive) (k : Z) :
  2 ^ (k - 1) <= Z.pos p < 2 ^ k -> Z.pos (digits2_pos p) = k.
Proof.
  intros H. rewrite digits_log2.
  assert (0 <= k - 1).
  { destruct (Z.le_gt_cases 0 (k - 1)) as [|Hneg]; [assumption|].
    destruct H as [_ H]. destruct (Z.le_gt_cases 0 k) as [Hk|Hk].
    - assert (k = 0) by lia. subst k. simpl in H. lia.
    - rewrite Z.pow_neg_r in H by lia. lia. }
  rewrite (Z.log2_unique (Z.pos p) (k - 1)); [lia | lia |].
  replace (Z.succ (k - 1)) with k by lia. exact H.
Qed.

(** Shifting right. *)
Lemma iter_pos_nat {A} (f : A -> A) (p : positive) (x : A) :
  SpecFloat.iter_pos f p x = Nat.iter (Pos.to_nat p) f x.
Proof.
  revert x. induction p as [p IH|p IH|]; intros x.
  - change (SpecFloat.iter_pos f p~1 x)
      with (SpecFloat.iter_pos f p (SpecFloat.iter_pos f p (f x))).
    rewrite !IH, Pos2Nat.inj_xI, Nat.iter_succ_r.
    replace (2 * Pos.to_nat p)%nat with (Pos.to_nat p + Pos.to_nat p)%nat
      by lia.
    rewrite Nat.iter_add. reflexivity.
  - change (SpecFloat.iter_pos f p~0 x)
      with (SpecFloat.iter_pos f p (SpecFloat.iter_pos f p x)).
    rewrite !IH, Pos2Nat.inj_xO.
    replace (2 * Pos.to_nat p)%nat with (Pos.to_nat p + Pos.to_nat p)%nat
      by lia.
    rewrite Nat.iter_add. reflexivity.
  - reflexivity.
Qed.

Lemma shr_1_m (mrs : shr_record) :
  0 <= shr_m mrs -> shr_m (shr_1 mrs) = shr_m mrs / 2.
Proof.
  destruct mrs as [m r s]. cbn [shr_m]. intros Hm.
  destruct m as [|[p|p|]|p]; unfold shr_1; cbn [shr_m]; try lia.
  - reflexivity.
  - apply (Z.div_unique _ 2 _ 1); lia.
  - apply (Z.div_unique _ 2 _ 0); lia.
  - reflexivity.
Qed.

Lemma shr_iter_m (k : nat) (mrs : shr_record) :
  0 <= shr_m mrs ->
  shr_m (Nat.iter k shr_1 mrs) = shr_m mrs / 2 ^ Z.of_nat k.
Proof.
  intros Hm. induction k as [|k IH].
  - simpl. rewrite Z.div_1_r. reflexivity.
  - rewrite Nat.iter_succ, shr_1_m, IH.
    + rewrite Z.div_div by lia.
      rewrite Nat2Z.inj_succ, Z.pow_succ_r by lia.
      f_equal. lia.
    + rewrite IH. apply Z.div_pos; lia.
Qed.

(** [shr] by a positive amount divides the mantissa and moves the
    exponent. *)
Lemma shr_spec (mrs : shr_record) (e n : Z) :
  0 <= shr_m mrs -> 0 < n ->
  shr_m (fst (shr mrs e n)) = shr_m mrs / 2 ^ n
  /\ snd (shr mrs e n) = e + n.
Proof.
  intros Hm Hn. destruct n as [|p|p]; try lia. simpl.
  rewrite iter_pos_nat, shr_iter_m by assumption.
  rewrite positive_nat_Z. auto.
Qed.

Lemma shr_zero (mrs : shr_record) (e : Z) : shr mrs e 0 = (mrs, e).
Proof. reflexivity. Qed.

(** Rounding to nearest even moves to a neighbour. *)
Lemma round_nearest_even_near (q : Z) (l : location) :
  round_nearest_even q l = q \/ round_nearest_even q l = q + 1.
Proof.
  destruct l as [|[| |]]; simpl; auto.
  destruct (Z.even q); auto.
Qed.

(** A 53-bit mantissa in the exponent range is not changed by rounding. *)
Lemma round_aux_exact (s : bool) (m : positive) (e : Z) :
  Z.pos (digits2_pos m) = 53 -> -1074 <= e <= 971 ->
  binary_round_aux 53 1024 s (Z.pos m) e loc_Exact = S754_finite s m e.
Proof.
  intros Hd He.
  assert (Hs : shr_fexp 53 1024 (Z.pos m) e loc_Exact
               = ({| shr_m := Z.pos m; shr_r := false; shr_s := false |}, e)).
  { unfold shr_fexp. cbn [Zdigits2 shr_record_of_loc]. rewrite Hd.
    unfold fexp, emin.
    replace (Z.max (53 + e - 53) (3 - 1024 - 53) - e) with 0 by lia.
    reflexivity. }
  unfold binary_round_aux. rewrite Hs.
  cbn [shr_m loc_of_shr_record round_nearest_even]. rewrite Hs.
  cbn [shr_m].
  destruct (Z.leb_spec e (1024 - 53)); [reflexivity | lia].
Qed.

(** The rounding of a mantissa of more than 53 bits: it is shifted down
    to 53 bits and moved to a neighbour; when that neighbour is 2^53 the
    mantissa is renormalised to 2^52 one exponent higher. *)
Lemma round_aux_long (pP : positive) (E : Z) :
  let d := Z.pos (digits2_pos pP) in
  54 <= d -> -1074 <= E + (d - 53) -> E + (d - 53) < 971 ->
  exists (M : positive) (e M1 : Z),
    binary_round_aux 53 1024 false (Z.pos pP) E loc_Exact
    = S754_finite false M e
    /\ Z.pos pP / 2 ^ (d - 53) <= M1 <= Z.pos pP / 2 ^ (d - 53) + 1
    /\ ((Z.pos M = M1 /\ e = E + (d - 53))
        \/ (M1 = 2 ^ 53 /\ Z.pos M = 2 ^ 52 /\ e = E + (d - 53) + 1)).
Proof.
  intros d Hd Hlo Hhi.
  set (n1 := d - 53). set (q := Z.pos pP / 2 ^ n1).
  assert (Hq : 2 ^ 52 <= q < 2 ^ 53).
  { pose proof (digits_bounds pP) as Hb. fold d in Hb.
    assert (Hp : 0 < 2 ^ n1) by (apply Z.pow_pos_nonneg; lia).
    assert (E1 : 2 ^ (d - 1) = 2 ^ 52 * 2 ^ n1).
    { rewrite <- Z.pow_add_r by lia. f_equal. lia. }
    assert (E2 : 2 ^ d = 2 ^ 53 * 2 ^ n1).
    { rewrite <- Z.pow_add_r by lia. f_equal. lia. }
    unfold q. split.
    - apply Z.div_le_lower_bound; lia.
    - apply Z.div_lt_upper_bound; lia. }
  unfold binary_round_aux.
  assert (H1 : exists mrs,
             shr_fexp 53 1024 (Z.pos pP) E loc_Exact = (mrs, E + n1)
             /\ shr_m mrs = q).
  { unfold shr_fexp. cbn [Zdigits2 shr_record_of_loc]. fold d.
    unfold fexp, emin.
    replace (Z.max (d + E - 53) (3 - 1024 - 53) - E) with n1
      by (unfold n1; lia).
    destruct (shr_spec {| shr_m := Z.pos pP; shr_r := false; shr_s := false |}
                       E n1) as [Hm He]; [cbn; lia | unfold n1; lia |].
    destruct (shr _ E n1) as [mrs e1]. cbn [fst snd shr_m] in Hm, He.
    exists mrs. subst e1. split; [reflexivity | exact Hm]. }
  destruct H1 as (mrs & -> & Hm).
  set (M1 := round_nearest_even (shr_m mrs) (loc_of_shr_record mrs)).
  assert (HM1 : M1 = q \/ M1 = q + 1).
  { unfold M1. rewrite Hm. apply round_nearest_even_near. }
  assert (HM1pos : 0 < M1) by lia.
  destruct M1 as [|pM|pM] eqn:EM; try lia.
  destruct (Z.lt_ge_cases (Z.pos pM) (2 ^ 53)) as [Hlt|Hge].
  - (* the neighbour still has 53 bits *)
    assert (Hd1 : Z.pos (digits2_pos pM) = 53).
    { apply digits_unique. change (53 - 1) with 52. lia. }
    assert (Hs : shr_fexp 53 1024 (Z.pos pM) (E + n1) loc_Exact
                 = ({| shr_m := Z.pos pM; shr_r := false; shr_s := false |},
                    E + n1)).
    { unfold shr_fexp. cbn [Zdigits2 shr_record_of_loc]. rewrite Hd1.
      unfold fexp, emin.
      replace (Z.max (53 + (E + n1) - 53) (3 - 1024 - 53) - (E + n1))
        with 0 by (unfold n1; lia).
      reflexivity. }
    rewrite Hs. cbn [shr_m].
    destruct (Z.leb_spec (E + n1) (1024 - 53)); [|unfold n1 in *; lia].
    exists pM, (E + n1), (Z.pos pM). split; [reflexivity|].
    fold q. split; [lia|]. left. auto.
  - (* the neighbour is 2^53 *)
    assert (HpM : Z.pos pM = 2 ^ 53) by lia.
    assert (Hd1 : Z.pos (digits2_pos pM) = 54).
    { apply digits_unique. change (54 - 1) with 53. rewrite HpM.
      split; [lia|]. apply Z.pow_lt_mono_r; lia. }
    assert (Hs : exists mrs2,
               shr_fexp 53 1024 (Z.pos pM) (E + n1) loc_Exact
               = (mrs2, E + n1 + 1) /\ shr_m mrs2 = 2 ^ 52).
    { unfold shr_fexp. cbn [Zdigits2 shr_record_of_loc]. rewrite Hd1.
      unfold fexp, emin.
      replace (Z.max (54 + (E + n1) - 53) (3 - 1024 - 53) - (E + n1))
        with 1 by (unfold n1; lia).
      destruct (shr_spec {| shr_m := Z.pos pM; shr_r := false;
                            shr_s := false |} (E + n1) 1)
        as [Hm2 He2]; [cbn; lia | lia |].
      destruct (shr _ (E + n1) 1) as [mrs2 e2].
      cbn [fst snd shr_m] in Hm2, He2.
      exists mrs2. subst e2. split; [reflexivity|].
      rewrite Hm2, HpM. reflexivity. }
    destruct Hs as (mrs2 & -> & Hm2). rewrite Hm2.
    change (2 ^ 52) with (Z.pos 4503599627370496).
    cbv iota beta.
    destruct (Z.leb_spec (E + n1 + 1) (1024 - 53)); [|unfold n1 in *; lia].
    exists 4503599627370496%positive, (E + n1 + 1), (Z.pos pM).
    split; [reflexivity|]. fold q. split; [lia|]. right.
    split; [exact HpM|]. split; reflexivity.
Qed.

Lemma iter_xO (m k : positive) :
  Z.pos (Pos.iter xO m k) = Z.pos m * 2 ^ Z.pos k.
Proof.
  rewrite <- Z.shiftl_mul_pow2 by lia. cbn [Z.shiftl].
  apply (Pos.iter_swap_gen _ _ Z.pos xO (Z.mul 2)). reflexivity.
Qed.

(** [float64(m)] for a positive integer of at most 53 bits is exact: the
    integer shifted up to a 53-bit mantissa. *)
Lemma float64_of_int_pos (m : positive) :
  let d := Z.pos (digits2_pos m) in
  d <= 53 ->
  exists mz,
    float64_of_int (Z.pos m) = S754_finite false mz (d - 53)
    /\ Z.pos mz = Z.pos m * 2 ^ (53 - d)
    /\ Z.pos (digits2_pos mz) = 53.
Proof.
  intros d Hd.
  pose proof (digits_bounds m) as Hb. fold d in Hb.
  assert (Hd1 : 1 <= d) by (unfold d; lia).
  unfold float64_of_int, binary_normalize, binary_round.
  fold d. unfold fexp, emin, f64_prec, f64_emax.
  replace (Z.max (d + 0 - 53) (3 - 1024 - 53)) with (d - 53) by lia.
  assert (Hsh : exists mz,
             shl_align m 0 (d - 53) = (mz, d - 53)
             /\ Z.pos mz = Z.pos m * 2 ^ (53 - d)).
  { unfold shl_align. destruct (d - 53 - 0) as [|k|k] eqn:Ek; try lia.
    - exists m. replace (d - 53) with 0 by lia.
      replace (53 - d) with 0 by lia. split; [reflexivity | lia].
    - exists (Pos.iter xO m k). split; [reflexivity|].
      rewrite iter_xO. f_equal. f_equal. lia. }
  destruct Hsh as (mz & -> & Hmz).
  assert (Hdz : Z.pos (digits2_pos mz) = 53).
  { apply digits_unique. rewrite Hmz. change (53 - 1) with 52.
    assert (Hp : 0 < 2 ^ (53 - d)) by (apply Z.pow_pos_nonneg; lia).
    assert (E1 : 2 ^ 52 = 2 ^ (d - 1) * 2 ^ (53 - d)).
    { rewrite <- Z.pow_add_r by lia. f_equal. lia. }
    assert (E2 : 2 ^ 53 = 2 ^ d * 2 ^ (53 - d)).
    { rewrite <- Z.pow_add_r by lia. f_equal. lia. }
    rewrite E1, E2. split.
    - apply Z.mul_le_mono_nonneg_r; lia.
    - apply Z.mul_lt_mono_pos_r; lia. }
  exists mz. split; [|split; assumption].
  apply round_aux_exact; [exact Hdz | lia].
Qed.

Lemma div_between (a b k : Z) :
  0 < b -> k * b <= a < (k + 1) * b -> a / b = k.
Proof.
  intros Hb H. symmetry. apply (Z.div_unique a b k (a - k * b)); lia.
Qed.

(** The integer part of the rounded product of a positive integer [m] of
    at most 53 bits and a positive binary64 constant [my * 2^ey] with a
    53-bit mantissa: it is [k] whenever the exact product lies in
    [[k, k+1)] and stays [2m] units of [2^ey] away from [k+1], so that
    rounding to the nearest binary64 cannot reach the next integer. *)
Lemma mul_trunc (m my : positive) (ey k : Z) :
  let dm := Z.pos (digits2_pos m) in
  dm <= 53 -> Z.pos (digits2_pos my) = 53 ->
  -1000 <= ey -> dm + ey < 0 -> 0 <= k < 2 ^ 63 ->
  k * 2 ^ (- ey) <= Z.pos m * Z.pos my ->
  Z.pos m * (Z.pos my + 2) < (k + 1) * 2 ^ (- ey) ->
  int_of_float64 (f64_mul (float64_of_int (Z.pos m))
                          (S754_finite false my ey)) = k.
Proof.
  intros dm Hdm Hdy Hey Hneg Hk Hlo Hhi.
  destruct (float64_of_int_pos m Hdm) as (mz & -> & Hmz & Hdz).
  fold dm in Hmz.
  unfold f64_mul, f64_prec, f64_emax. cbn [SFmul xorb]. fold dm.
  set (pP := (mz * my)%positive). set (E := dm - 53 + ey).
  pose proof (digits_bounds m) as Bm. fold dm in Bm.
  pose proof (digits_bounds mz) as Bz. rewrite Hdz in Bz.
  pose proof (digits_bounds my) as By. rewrite Hdy in By.
  change (53 - 1) with 52 in Bz, By.
  pose proof (digits_bounds pP) as BP.
  set (dP := Z.pos (digits2_pos pP)) in *.
  assert (HP : Z.pos pP = Z.pos mz * Z.pos my) by reflexivity.
  assert (HdP : 105 <= dP <= 106).
  { assert (2 ^ 104 <= Z.pos pP < 2 ^ 106).
    { rewrite HP. change (2 ^ 104) with (2 ^ 52 * 2 ^ 52).
      change (2 ^ 106) with (2 ^ 53 * 2 ^ 53). split.
      - apply Z.mul_le_mono_nonneg; lia.
      - apply Z.mul_lt_mono_nonneg; lia. }
    assert (1 <= dP) by (unfold dP; lia).
    split.
    - destruct (Z.lt_ge_cases 104 dP) as [|Hc]; [lia|].
      assert (2 ^ dP <= 2 ^ 104) by (apply Z.pow_le_mono_r; lia). lia.
    - destruct (Z.lt_ge_cases (dP - 1) 106) as [|Hc]; [lia|].
      assert (2 ^ 106 <= 2 ^ (dP - 1)) by (apply Z.pow_le_mono_r; lia).
      lia. }
  assert (Hdm1 : 1 <= dm) by (unfold dm; lia).
  destruct (round_aux_long pP E) as (M & e & M1 & -> & Hq & Hcase);
    fold dP; [lia | unfold E; lia | unfold E; lia |].
  fold dP in Hq, Hcase.
  set (n1 := dP - 53) in *. set (A := - (E + n1)).
  assert (HA : 1 <= A) by (unfold A, E, n1; lia).
  set (T := 2 ^ (53 - dm)). set (U := 2 ^ (- ey)) in *.
  set (N := 2 ^ n1) in *. set (B := 2 ^ A).
  assert (HT : 0 < T) by (apply Z.pow_pos_nonneg; lia).
  assert (HU : 0 < U) by (apply Z.pow_pos_nonneg; lia).
  assert (HN : 0 < N) by (apply Z.pow_pos_nonneg; unfold n1; lia).
  assert (HB : 0 < B) by (apply Z.pow_pos_nonneg; lia).
  assert (HBN : B * N = T * U).
  { unfold B, N, T, U. rewrite <- !Z.pow_add_r by (unfold n1; lia).
    f_equal. unfold A, E. lia. }
  assert (HNm : N <= 2 * Z.pos m * T).
  { assert (N <= 2 ^ 53) by (apply Z.pow_le_mono_r; unfold n1; lia).
    assert (2 ^ 53 = 2 ^ dm * T).
    { unfold T. rewrite <- Z.pow_add_r by lia. f_equal. lia. }
    assert (2 ^ dm = 2 * 2 ^ (dm - 1)).
    { rewrite <- Z.pow_succ_r by lia. f_equal. lia. }
    nia. }
  assert (HPm : Z.pos pP = Z.pos m * Z.pos my * T).
  { rewrite HP, Hmz. fold T. ring. }
  set (q := Z.pos pP / N) in *.
  assert (Hq1 : q * N <= Z.pos pP).
  { unfold q. rewrite Z.mul_comm. apply Z.mul_div_le. exact HN. }
  assert (Hq2 : Z.pos pP < (q + 1) * N).
  { unfold q. rewrite Z.mul_comm. apply Z.mul_succ_div_gt. exact HN. }
  assert (HkB : k * B <= M1 < (k + 1) * B).
  { split.
    - assert (k * B <= q); [|lia].
      apply Z.div_le_lower_bound; [exact HN|].
      replace (N * (k * B)) with (k * (B * N)) by ring.
      rewrite HBN, HPm. nia.
    - assert (q + 1 < (k + 1) * B); [|lia].
      assert (Z.pos pP + N < (k + 1) * (B * N)).
      { rewrite HBN, HPm. nia. }
      nia. }
  unfold int_of_float64.
  assert (Hval : (if (0 <=? e)%Z then Z.pos M * 2 ^ e
                  else Z.quot (Z.pos M) (2 ^ (- e))) = k).
  { destruct Hcase as [[HM He]|(HM1 & HM & He)].
    - assert (e < 0) by (rewrite He; unfold A in HA; lia).
      destruct (Z.leb_spec 0 e); [lia|].
      rewrite Z.quot_div_nonneg by (try apply Z.pow_pos_nonneg; lia).
      replace (- e) with A by (unfold A; lia). fold B.
      rewrite HM. by apply div_between.
    - assert (HBA : B = 2 * 2 ^ (A - 1)).
      { unfold B. rewrite <- Z.pow_succ_r by lia. f_equal. lia. }
      assert (0 < 2 ^ (A - 1)) by (apply Z.pow_pos_nonneg; lia).
      assert (H53 : (2 ^ 53 = 2 * 2 ^ 52)%Z) by reflexivity.
      destruct (Z.leb_spec 0 e).
      + assert (He0 : e = 0) by (rewrite He; unfold A in HA; lia).
        assert (A = 1) by (unfold A; lia).
        rewrite He0, HM, Z.pow_0_r, Z.mul_1_r.
        replace (A - 1) with 0 in HBA by lia. rewrite Z.pow_0_r in HBA.
        lia.
      + rewrite Z.quot_div_nonneg by (try apply Z.pow_pos_nonneg; lia).
        replace (- e) with (A - 1) by (unfold A; lia).
        rewrite HM. apply div_between; [assumption|]. nia. }
  rewrite Hval.
  destruct (Z.leb_spec (- 2 ^ 63) k); [|lia].
  destruct (Z.ltb_spec k (2 ^ 63)); [reflexivity | lia].
Qed.

End Binary64.

(* ===================================================================== *)
(** ** The margins of the size estimators *)
(* ===================================================================== *)

Lemma digits_below (m : positive) (n : Z) :
  0 <= n -> Z.pos m < 2 ^ n -> Z.pos (digits2_pos m) <= n.
Proof.
  intros Hn Hm. pose proof (Binary64.digits_bounds m) as [Hb _].
  destruct (Z.le_gt_cases (Z.pos (digits2_pos m)) n) as [|Hc]; [assumption|].
  assert (2 ^ n <= 2 ^ (Z.pos (digits2_pos m) - 1))
    by (apply Z.pow_le_mono_r; lia).
  lia.
Qed.

(** [int(float64(m) * 0.5)] is [m / 2], rounded down. *)
Lemma half_margin (m : Z) :
  0 <= m < 2 ^ 43 ->
  int_of_float64 (f64_mul (float64_of_int m) f64_0_5) = m / 2.
Proof.
  intros Hm. destruct m as [|p|p]; [reflexivity | | lia].
  pose proof (digits_below p 43 ltac:(lia) ltac:(lia)) as Hd.
  pose proof (Z.div_mod (Z.pos p) 2 ltac:(lia)) as Hdiv.
  pose proof (Z.mod_pos_bound (Z.pos p) 2 ltac:(lia)) as Hmod.
  apply (Binary64.mul_trunc p (2 ^ 52) (-53) (Z.pos p / 2)).
  - lia.
  - reflexivity.
  - lia.
  - lia.
  - split; [apply Z.div_pos; lia|].
    assert (Z.pos p / 2 <= Z.pos p) by (apply Z.div_le_upper_bound; lia).
    lia.
  - change (2 ^ (- -53)) with 9007199254740992.
    change (Z.pos (2 ^ 52)) with 4503599627370496. lia.
  - change (2 ^ (- -53)) with 9007199254740992.
    change (Z.pos (2 ^ 52)) with 4503599627370496.
    change (2 ^ 43) with 8796093022208 in Hm. lia.
Qed.

(** [int(float64(m) * 0.2)] is [m / 5], rounded down: the binary64 nearest
    to 0.2 is slightly above one fifth, but never by enough to reach the
    next integer. *)
Lemma fifth_margin (m : Z) :
  0 <= m < 2 ^ 43 ->
  int_of_float64 (f64_mul (float64_of_int m) f64_0_2) = m / 5.
Proof.
  intros Hm. destruct m as [|p|p]; [reflexivity | | lia].
  pose proof (digits_below p 43 ltac:(lia) ltac:(lia)) as Hd.
  pose proof (Z.div_mod (Z.pos p) 5 ltac:(lia)) as Hdiv.
  pose proof (Z.mod_pos_bound (Z.pos p) 5 ltac:(lia)) as Hmod.
  apply (Binary64.mul_trunc p 7205759403792794 (-55) (Z.pos p / 5)).
  - lia.
  - reflexivity.
  - lia.
  - lia.
  - split; [apply Z.div_pos; lia|].
    assert (Z.pos p / 5 <= Z.pos p) by (apply Z.div_le_upper_bound; lia).
    lia.
  - change (2 ^ (- -55)) with 36028797018963968. lia.
  - change (2 ^ (- -55)) with 36028797018963968.
    change (2 ^ 43) with 8796093022208 in Hm. lia.
Qed.

Lemma wrap64_range (z : Z) : - 2 ^ 63 <= wrap64 z < 2 ^ 63.
Proof.
  unfold wrap64.
  pose proof (Z.mod_pos_bound (z + 2 ^ 63) (2 ^ 64) ltac:(lia)). lia.
Qed.

Lemma wrap64_id (z : Z) : - 2 ^ 63 <= z < 2 ^ 63 -> wrap64 z = z.
Proof.
  intros H. unfold wrap64. rewrite Z.mod_small; lia.
Qed.

Lemma wrap64_add (a b : Z) : wrap64 (wrap64 a + b) = wrap64 (a + b).
Proof.
  unfold wrap64.
  replace ((a + 2 ^ 63) mod 2 ^ 64 - 2 ^ 63 + b + 2 ^ 63)
    with ((a + 2 ^ 63) mod 2 ^ 64 + b) by lia.
  rewrite Zplus_mod_idemp_l. f_equal. f_equal. lia.
Qed.

(** Whole mebibytes of a byte total. *)
Definition wholeMiB (totalSize : Z) : Z := totalSize / MiB.

Lemma wholeMiB_bounds (S : Z) :
  0 <= S < 2 ^ 63 -> 0 <= wholeMiB S < 2 ^ 43 /\ Z.quot S MiB = wholeMiB S.
Proof.
  intros H. unfold wholeMiB, MiB. split.
  - split; [apply Z.div_pos; lia|].
    apply Z.div_lt_upper_bound; [lia|].
    change (1024 * 1024 * 2 ^ 43) with (2 ^ 63). lia.
  - apply Z.quot_div_nonneg; lia.
Qed.

Lemma withMargin_half (S : Z) :
  0 <= S < 2 ^ 63 ->
  withMargin S f64_0_5 = wholeMiB S + wholeMiB S / 2.
Proof.
  intros H. destruct (wholeMiB_bounds S H) as [Hq Eq].
  unfold withMargin. rewrite Eq, half_margin by exact Hq.
  unfold add64. apply wrap64_id.
  assert (0 <= wholeMiB S / 2 <= wholeMiB S).
  { split; [apply Z.div_pos; lia | apply Z.div_le_upper_bound; lia]. }
  change (2 ^ 43) with 8796093022208 in Hq. lia.
Qed.

Lemma withMargin_fifth (S : Z) :
  0 <= S < 2 ^ 63 ->
  withMargin S f64_0_2 = wholeMiB S + wholeMiB S / 5.
Proof.
  intros H. destruct (wholeMiB_bounds S H) as [Hq Eq].
  unfold withMargin. rewrite Eq, fifth_margin by exact Hq.
  unfold add64. apply wrap64_id.
  assert (0 <= wholeMiB S / 5 <= wholeMiB S).
  { split; [apply Z.div_pos; lia | apply Z.div_le_upper_bound; lia]. }
  change (2 ^ 43) with 8796093022208 in Hq. lia.
Qed.

(** The bytes of the files of a tree, directories themselves not counted. *)
Fixpoint treeSize (node : Node) : Z :=
  match node with
  | NFile size => size
  | NDir _ entries =>
      fold_right (fun e acc => treeSize (snd e) + acc) 0 entries
  | NGone => 0
  end.

(** A tree that [filepath.Walk] traverses without an error, with file sizes
    that are sizes. *)
Fixpoint walkable (node : Node) : bool :=
  match node with
  | NFile size => (0 <=? size)%Z && (size <? 2 ^ 63)%Z
  | NDir readable entries =>
      readable && forallb (fun e => walkable (snd e)) entries
  | NGone => false
  end.

Lemma walkSize_total (node : Node) :
  forall p total,
    walkable node = true -> - 2 ^ 63 <= total < 2 ^ 63 ->
    walkSize node p total = (wrap64 (total + treeSize node), None).
Proof.
  induction node as [size| |readable entries IH] using Node_ind';
    intros p total Hw Ht.
  - reflexivity.
  - discriminate.
  - simpl in Hw. apply andb_prop in Hw as [-> Hall]. cbn [walkSize treeSize].
    revert total Ht.
    induction IH as [|[name child] l Hc _ IHl]; intros total Ht.
    + simpl. rewrite Z.add_0_r, wrap64_id by exact Ht. reflexivity.
    + simpl in Hall. apply andb_prop in Hall as [Hchild Hl].
      simpl. simpl in Hc. rewrite (Hc _ _ Hchild Ht).
      rewrite (IHl Hl) by apply wrap64_range.
      rewrite wrap64_add. f_equal. f_equal. lia.
Qed.

(** The bytes under the directory items of the contents. *)
Definition dirItemsSize (w : World) (t : Trace) (contents : list Item) : Z :=
  fold_right (fun item acc =>
                if String.eqb (Type_ item) Dir
                then treeSize (w_lstat w t (P (Path item))) + acc
                else acc) 0 contents.

Definition dirItemsWalkable (w : World) (t : Trace) (contents : list Item)
  : Prop :=
  forall item, In item contents -> Type_ item = Dir ->
               walkable (w_lstat w t (P (Path item))) = true.

Lemma bashTotalSize_fold_sum (l : list Item) (acc : M Z) w t :
  dirItemsWalkable w t l ->
  snd (acc w t) = t -> - 2 ^ 63 <= fst (acc w t) < 2 ^ 63 ->
  fst (fold_left (fun acc item =>
                    total <- acc ;;
                    if String.eqb (Type_ item) Dir then
                      node <- lstatM (P (Path item)) ;;
                      ret (fst (walkSize node (P (Path item)) total))
                    else ret total) l acc w t)
  = wrap64 (fst (acc w t) + dirItemsSize w t l).
Proof.
  revert acc. induction l as [|item l IH]; intros acc Hw Hs Hr.
  - simpl. rewrite Z.add_0_r, wrap64_id by exact Hr. reflexivity.
  - cbn [fold_left]. rewrite IH.
    + rewrite bind_eq, Hs. cbn [dirItemsSize fold_right].
      fold (dirItemsSize w t l).
      destruct (String.eqb_spec (Type_ item) Dir) as [Ety|Hne].
      * mrun. cbn [fst].
        rewrite walkSize_total;
          [|apply Hw; [by left | exact Ety] | exact Hr].
        cbn [fst]. rewrite wrap64_add. f_equal. lia.
      * reflexivity.
    + intros it Hin. apply Hw. by right.
    + rewrite bind_eq, Hs.
      destruct (String.eqb (Type_ item) Dir); reflexivity.
    + rewrite bind_eq, Hs.
      destruct (String.eqb_spec (Type_ item) Dir) as [Ety|Hne].
      * mrun. cbn [fst].
        rewrite walkSize_total;
          [|apply Hw; [by left | exact Ety] | exact Hr].
        apply wrap64_range.
      * exact Hr.
Qed.

(** Step 1 of [CreateDMGLikeBash] sums the files under the directory
    items. *)
Lemma bashTotalSize_sum (contents : list Item) w t :
  dirItemsWalkable w t contents ->
  0 <= dirItemsSize w t contents < 2 ^ 63 ->
  fst (bashTotalSize contents w t) = dirItemsSize w t contents.
Proof.
  intros Hw Hs. unfold bashTotalSize.
  rewrite bashTotalSize_fold_sum; [|exact Hw | reflexivity | simpl; lia].
  simpl. apply wrap64_id. lia.
Qed.

Lemma bashSizeOfTotal_eq (S : Z) :
  0 <= S < 2 ^ 63 ->
  bashSizeOfTotal S = Z.min 2000 (Z.max 200 (wholeMiB S + wholeMiB S / 2)).
Proof.
  intros H. unfold bashSizeOfTotal. rewrite withMargin_half by exact H.
  destruct (Z.ltb_spec (wholeMiB S + wholeMiB S / 2) 200);
    [destruct (Z.ltb_spec 2000 200); lia|].
  destruct (Z.ltb_spec 2000 (wholeMiB S + wholeMiB S / 2)); lia.
Qed.

Lemma dirSizeOfTotal_eq (S : Z) :
  0 <= S < 2 ^ 63 ->
  dirSizeOfTotal S = Z.max 100 (wholeMiB S + wholeMiB S / 5).
Proof.
  intros H. unfold dirSizeOfTotal. rewrite withMargin_fifth by exact H.
  destruct (Z.ltb_spec (wholeMiB S + wholeMiB S / 5) 100); lia.
Qed.

(* ===================================================================== *)
(** ** The declared image capacity *)
(* ===================================================================== *)

(** The estimates as the specification words them, over the rationals:
    megabytes rounded up, times the margin, clamped. *)
Definition ceilMiB (S : Z) : Z := (S + MiB - 1) / MiB.

Definition clampQ (x lo hi : Q) : Q :=
  if Qle_bool x lo then lo else if Qle_bool hi x then hi else x.

Definition specConservative (S : Z) : Q :=
  clampQ (inject_Z (ceilMiB S) * (3 # 2)) (inject_Z 200) (inject_Z 2000).


Section ExactSize.

Variable config : Config.
Variable w : World.
Variable t : Trace.

Let config' := normalizeFileName (defaultLogWriter config).
Let sink := default "stdout" (LogWriter config').
Let tempDMG := Join (P (GoString.Dir (FileName config')))
                    ("temp_" +:+ GoString.Base (FileName config')).
Let S := dirItemsSize w t (Contents config).

(** C3 (amended).  In [CreateDMGLikeBash], when the trees under the
    directory items of the contents can be walked and their files sum to
    [S] bytes (directories themselves, and items that are not directories,
    contribute nothing), the writable image is created with a capacity of
    [clamp(q + floor(q / 2), 200, 2000)] megabytes, where [q = floor(S /
    1MiB)]: whole megabytes are rounded down, not up, and so is the
    half. *)
Theorem exact_size_capacity pre item post :
  Contents config = pre ++ item :: post ->
  Forall (fun i => isAppDir i = false) pre ->
  isAppDir item = true ->
  dirItemsWalkable w t (Contents config) ->
  0 <= S < 2 ^ 63 ->
  exists msg1 r1 msg2 r2 r3 rest,
    snd (CreateDMGLikeBash config w t) =
    t ++ (Print sink msg1, r1) :: (Print sink msg2, r2)
      :: (HdiutilCreateWithSize
            (Title config') (P (Path item)) UDRW tempDMG
            (Z.min 2000 (Z.max 200 (wholeMiB S + wholeMiB S / 2))), r3)
      :: rest.
Proof.
  intros Hc Hpre Hitem Hwalk HS.
  unfold CreateDMGLikeBash. fold config' sink tempDMG.
  rewrite deferring_call_eq. cbn [snd].
  destruct (likeBashBuild_first config' sink tempDMG w t pre item post)
    as (msg1 & r1 & msg2 & r2 & r3 & rest & E); auto.
  { unfold config'. rewrite Contents_normalize. exact Hc. }
  rewrite E. unfold config' at 2. rewrite Contents_normalize.
  rewrite bashTotalSize_sum by assumption. fold S.
  rewrite bashSizeOfTotal_eq by exact HS.
  exists msg1, r1, msg2, r2, r3. eexists.
  rewrite <- app_assoc. reflexivity.
Qed.

End ExactSize.

(** A world in which every location shows a directory with one file of the
    given size. *)
Definition sizeWorld (size : Z) : World :=
  mkWorld
    (fun _ c =>
       match c with
       | OsMkdirTemp _ => ROk ["/tmp/zapp"]
       | _ => ROk []
       end)
    (fun _ _ => NDir true [("payload", NFile size)])
    (fun _ _ => NDir true [("payload", NFile size)]).

Definition bashConfig : Config :=
  mkConfig "App.dmg" "App" "" 14 128 640 480 ""
           [mkItem 160 240 Dir "My.app"] None "" "" false false.

Lemma exact_size_capacity_witness :
  exists msg1 r1 msg2 r2 r3 rest,
    snd (CreateDMGLikeBash bashConfig (sizeWorld (135 * MiB + 1)) []) =
    (Print "stdout" msg1, r1) :: (Print "stdout" msg2, r2)
      :: (HdiutilCreateWithSize "App" (P "My.app") UDRW
                                (Join (P ".") "temp_App.dmg") 202, r3)
      :: rest.
Proof.
  apply (exact_size_capacity bashConfig (sizeWorld (135 * MiB + 1)) []
           [] (mkItem 160 240 Dir "My.app") []).
  - reflexivity.
  - constructor.
  - reflexivity.
  - intros item [<-|[]] _. reflexivity.
  - vm_compute. split; [discriminate | reflexivity].
Defined.

(** For 135 MiB and one byte the specification's formula gives
    [136 * 1.5 = 204] megabytes; the image is created with 202. *)
Lemma exact_size_capacity_not_ceil :
  dirItemsSize (sizeWorld (135 * MiB + 1)) [] (Contents bashConfig)
  = 135 * MiB + 1
  /\ In (HdiutilCreateWithSize "App" (P "My.app") UDRW
                               (Join (P ".") "temp_App.dmg") 202, ROk [])
        (snd (run (CreateDMGLikeBash bashConfig)
                  (sizeWorld (135 * MiB + 1))))
  /\ (specConservative (135 * MiB + 1) == inject_Z 204)%Q
  /\ ~ (inject_Z 202 == specConservative (135 * MiB + 1))%Q.
Proof.
  split; [reflexivity|].
  split; [vm_compute; tauto|].
  split; [reflexivity|].
  intros H. vm_compute in H. discriminate H.
Qed.




(* ===================================================================== *)
(** ** The mount orchestrator: setup failures and guaranteed release *)
(* ===================================================================== *)

(** When the mount-point directory cannot be created, or the image cannot
    be attached, [tmpMount] returns the wrapped error without running the
    callback and without any detach; a directory that was created is
    removed. *)
Theorem tmpMount_setup_failure
        (dmgPath : path) (process : path -> path -> M error)
        (w : World) (t : Trace) :
  (forall e,
      w_reply w t (OsMkdirTemp "*-zapp-dmg") = RErr e ->
      tmpMount dmgPath process w t =
      (Some ("failed to create temporary directory: " +:+ e),
       t ++ [(OsMkdirTemp "*-zapp-dmg", RErr e)]))
  /\ (forall out e,
         w_reply w t (OsMkdirTemp "*-zapp-dmg") = ROk out ->
         w_reply w (t ++ [(OsMkdirTemp "*-zapp-dmg", ROk out)])
                 (HdiutilAttach dmgPath (Join (P (outStr out)) "mount"))
         = RErr e ->
         exists r,
           tmpMount dmgPath process w t =
           (Some ("failed to attach DMG: " +:+ e),
            t ++ [(OsMkdirTemp "*-zapp-dmg", ROk out);
                  (HdiutilAttach dmgPath (Join (P (outStr out)) "mount"),
                   RErr e);
                  (OsRemoveAll (P (outStr out)), r)])).
Proof.
  split.
  - intros e He. unfold tmpMount. mrun. rewrite He. reflexivity.
  - intros out e Hm Ha. unfold tmpMount. mrun. rewrite Hm. mrun.
    rewrite Ha. mrun. eexists. unfold Errorf.
    rewrite <- !app_assoc. reflexivity.
Qed.

Lemma tmpMount_setup_failure_witness :
  exists r,
    tmpMount (P "App.dmg") failingProcess
             (mkWorld (fun _ c =>
                         match c with
                         | HdiutilAttach _ _ => RErr "corrupt image"
                         | OsMkdirTemp _ => ROk ["/tmp/7-zapp-dmg"]
                         | _ => ROk []
                         end)
                      (fun _ _ => NGone) (fun _ _ => NGone)) [] =
    (Some "failed to attach DMG: corrupt image",
     [(OsMkdirTemp "*-zapp-dmg", ROk ["/tmp/7-zapp-dmg"]);
      (HdiutilAttach (P "App.dmg") (Join (P "/tmp/7-zapp-dmg") "mount"),
       RErr "corrupt image");
      (OsRemoveAll (P "/tmp/7-zapp-dmg"), r)]).
Proof.
  match goal with
  | |- exists r, tmpMount ?d ?p ?w ?t = _ =>
      apply (proj2 (tmpMount_setup_failure d p w t)
                   ["/tmp/7-zapp-dmg"] "corrupt image")
  end; reflexivity.
Defined.

(** The calls of the forced-detach pass and of the warning before it. *)
Definition isRecovery (c : Call) : bool :=
  match c with
  | Exec "hdiutil" ["info"] | HdiutilDetach _ | Print _ _ => true
  | _ => false
  end.

Lemma forceDetachDMG_emits dmgPath :
  emits (forceDetachDMG dmgPath) (fun c => isRecovery c = true).
Proof.
  unfold forceDetachDMG. apply emits_bind; [by apply emits_call|].
  intros [out|e]; [|apply emits_ret].
  apply emits_forEach. intros line.
  destruct (_ && _); [|apply emits_ret].
  destruct (GoString.Fields line) as [|a [|b [|c l]]]; try apply emits_ret.
  unfold ignore. apply emits_bind; [by apply emits_call|].
  intros r. apply emits_ret.
Qed.

(** Once the image is attached, the volume is detached and the mount-point
    directory removed whatever the callback does: right after the
    callback's last call comes the one primary detach, then -- only if it
    failed -- the warning and the forced-detach pass, and the removal of the
    temporary directory is the last call. *)
Theorem tmpMount_releases
        (dmgPath : path) (process : path -> path -> M error)
        (w : World) (t : Trace) (dirOut attachOut : list string) :
  let mountPoint := Join (P (outStr dirOut)) "mount" in
  let t1 := t ++ [(OsMkdirTemp "*-zapp-dmg", ROk dirOut)] in
  let t2 := t1 ++ [(HdiutilAttach dmgPath mountPoint, ROk attachOut)] in
  let tp := snd (process dmgPath mountPoint w t2) in
  w_reply w t (OsMkdirTemp "*-zapp-dmg") = ROk dirOut ->
  w_reply w t1 (HdiutilAttach dmgPath mountPoint) = ROk attachOut ->
  exists recovery r,
    snd (tmpMount dmgPath process w t) =
    tp ++ (HdiutilDetach mountPoint, w_reply w tp (HdiutilDetach mountPoint))
       :: recovery ++ [(OsRemoveAll (P (outStr dirOut)), r)]
    /\ Forall (fun cr => isRecovery (fst cr) = true) recovery
    /\ (forall out,
           w_reply w tp (HdiutilDetach mountPoint) = ROk out -> recovery = []).
Proof.
  intros mountPoint t1 t2 tp Hm Ha.
  unfold tmpMount. rewrite bind_eq, call_eq. cbn [fst snd].
  rewrite Hm. fold t1. rewrite deferring_call_eq. cbn [snd].
  rewrite bind_eq, call_eq. cbn [fst snd]. fold mountPoint.
  rewrite Ha. fold t2.
  unfold deferring. rewrite bind_eq. fold tp. rewrite bind_eq. cbn [snd].
  unfold detachDeferred. rewrite bind_eq, call_eq. cbn [fst snd].
  destruct (w_reply w tp (HdiutilDetach mountPoint)) as [out|e] eqn:Ed.
  - exists []. eexists. cbn [ret snd app]. split.
    + rewrite <- app_assoc. reflexivity.
    + split; [constructor | reflexivity].
  - rewrite bind_eq, call_eq. cbn [fst snd].
    destruct (forceDetachDMG_emits dmgPath w
                ((tp ++ [(HdiutilDetach mountPoint, RErr e)])
                   ++ [(Print "stdout"
                              ("Warning: failed to detach DMG: " +:+ e),
                        w_reply w (tp ++ [(HdiutilDetach mountPoint, RErr e)])
                                (Print "stdout"
                                   ("Warning: failed to detach DMG: " +:+ e)))]))
      as (forced & E & Hf).
    rewrite E. cbn [ret snd].
    eexists (_ :: forced). eexists. split.
    + rewrite <- !app_assoc. reflexivity.
    + split; [constructor; [reflexivity | exact Hf] | discriminate].
Qed.

Lemma tmpMount_releases_witness :
  exists recovery r,
    snd (tmpMount (P "temp_App.dmg") failingProcess busyWorld []) =
    [(OsMkdirTemp "*-zapp-dmg", ROk ["/tmp/1-zapp-dmg"]);
     (HdiutilAttach (P "temp_App.dmg") (Join (P "/tmp/1-zapp-dmg") "mount"),
      ROk [])]
      ++ (HdiutilDetach (Join (P "/tmp/1-zapp-dmg") "mount"),
          RErr "resource busy")
      :: recovery ++ [(OsRemoveAll (P "/tmp/1-zapp-dmg"), r)]
    /\ Forall (fun cr => isRecovery (fst cr) = true) recovery.
Proof.
  destruct (tmpMount_releases (P "temp_App.dmg") failingProcess busyWorld []
                              ["/tmp/1-zapp-dmg"] [] eq_refl eq_refl)
    as (recovery & r & E & Hf & _).
  exists recovery, r. split; [exact E | exact Hf].
Defined.

(* ===================================================================== *)
(** ** The forced-detach pass *)
(* ===================================================================== *)

Lemma hasPrefixL_spec (p l : list ascii) :
  GoString.hasPrefixL l p = true <-> exists b, l = p ++ b.
Proof.
  revert l. induction p as [|c p IH]; intros l.
  - split; [intros _; by exists l | intros _; by destruct l].
  - destruct l as [|d l].
    + split; [discriminate | intros [b Hb]; discriminate Hb].
    + change (GoString.hasPrefixL (d :: l) (c :: p))
        with (Ascii.eqb c d && GoString.hasPrefixL l p).
      split.
      * intros H. apply andb_prop in H as [Hc Hp].
        apply Ascii.eqb_eq in Hc as ->. apply IH in Hp as [b ->].
        by exists b.
      * intros [b Hb]. injection Hb as -> ->.
        rewrite Ascii.eqb_refl. apply IH. by exists b.
Qed.

Lemma containsL_spec (l p : list ascii) :
  GoString.containsL l p = true <-> exists a b, l = a ++ p ++ b.
Proof.
  induction l as [|c l IH].
  - cbn [GoString.containsL]. rewrite orb_false_r. split.
    + intros H. apply hasPrefixL_spec in H as [b Hb]. by exists [], b.
    + intros (a & b & H). apply hasPrefixL_spec.
      destruct a; [by exists b | discriminate H].
  - cbn [GoString.containsL]. split.
    + intros H. apply orb_prop in H as [H|H].
      * apply hasPrefixL_spec in H as [b Hb]. by exists [], b.
      * apply IH in H as (a & b & ->). by exists (c :: a), b.
    + intros (a & b & H). apply orb_true_iff. destruct a as [|c' a].
      * left. apply hasPrefixL_spec. by exists b.
      * right. injection H as _ ->. apply IH. by exists a, b.
Qed.

(** The pieces of a split are contiguous parts of the list, the first one a
    prefix. *)
Lemma splitOn_infix (sep : ascii -> bool) (l : list ascii) :
  exists h rest,
    GoString.splitOn sep l = h :: rest
    /\ (exists post, l = h ++ post)
    /\ forall x, In x rest -> exists a b, l = a ++ x ++ b.
Proof.
  induction l as [|c l (h & rest & E & [post Hh] & Hr)].
  - exists [], []. split; [reflexivity|]. split; [by exists [] | intros ? []].
  - cbn [GoString.splitOn]. rewrite E. destruct (sep c).
    + exists [], (h :: rest). split; [reflexivity|].
      split; [by exists (c :: l)|].
      intros x [<-|Hx].
      * exists [c], post. by rewrite Hh.
      * destruct (Hr x Hx) as (a & b & ->). by exists (c :: a), b.
    + exists (c :: h), rest. split; [reflexivity|].
      split; [exists post; by rewrite Hh|].
      intros x Hx. destruct (Hr x Hx) as (a & b & ->). by exists (c :: a), b.
Qed.

Lemma Contains_line (output line sub : string) :
  In line (GoString.Lines output) ->
  GoString.Contains line sub = true ->
  GoString.Contains output sub = true.
Proof.
  unfold GoString.Lines, GoString.Contains. intros Hin.
  apply in_map_iff in Hin as (piece & <- & Hp).
  unfold GoString.str, GoString.chars.
  rewrite list_ascii_of_string_of_list_ascii.
  fold (GoString.chars output) (GoString.chars sub).
  intros H. apply containsL_spec in H as (a & b & Hpc).
  apply containsL_spec. subst piece.
  destruct (splitOn_infix GoString.isNewline (GoString.chars output))
    as (h & rest & E & [post Hh] & Hr).
  rewrite E in Hp. destruct Hp as [Hp|Hp].
  - exists a, (b ++ post). rewrite Hh, Hp, <- !app_assoc. reflexivity.
  - destruct (Hr _ Hp) as (a' & b' & Ho).
    exists (a' ++ a), (b ++ b'). rewrite Ho, <- !app_assoc. reflexivity.
Qed.

Lemma forEach_skip {A} (l : list A) (body : A -> M unit) w t :
  (forall a, In a l -> body a w t = (tt, t)) -> forEach l body w t = (tt, t).
Proof.
  induction l as [|a l IH]; intros H; [reflexivity|].
  cbn [forEach]. unfold bind. rewrite (H a (or_introl eq_refl)).
  apply IH. intros b Hb. apply H. by right.
Qed.

(** The forced-detach pass detaches nothing when [hdiutil info] fails or
    when its output does not mention the image file: its only call is the
    query. *)
Theorem forceDetachDMG_unrelated (dmgPath : path) (w : World) (t : Trace) :
  (forall e,
      w_reply w t (Exec "hdiutil" ["info"]) = RErr e ->
      forceDetachDMG dmgPath w t =
      (tt, t ++ [(Exec "hdiutil" ["info"], RErr e)]))
  /\ (forall out,
         w_reply w t (Exec "hdiutil" ["info"]) = ROk out ->
         GoString.Contains (outStr out) (pstr dmgPath) = false ->
         forceDetachDMG dmgPath w t =
         (tt, t ++ [(Exec "hdiutil" ["info"], ROk out)])).
Proof.
  split.
  - intros e He. unfold forceDetachDMG. mrun. rewrite He. reflexivity.
  - intros out Ho Hc. unfold forceDetachDMG. mrun. rewrite Ho.
    apply forEach_skip. intros line Hin.
    destruct (GoString.Contains line (pstr dmgPath)) eqn:El; [|reflexivity].
    rewrite (Contains_line _ _ _ Hin El) in Hc. discriminate Hc.
Qed.

Lemma forceDetachDMG_unrelated_witness :
  forceDetachDMG (P "/out/temp_Other.dmg") busyWorld [] =
  (tt, [(Exec "hdiutil" ["info"],
         ROk ["/dev/disk4s1 Apple_HFS /Volumes/App temp_App.dmg"])]).
Proof.
  apply (proj2 (forceDetachDMG_unrelated (P "/out/temp_Other.dmg")
                                         busyWorld [])).
  - reflexivity.
  - reflexivity.
Defined.

(* ===================================================================== *)
(** ** File and directory copies: failure and reach *)
(* ===================================================================== *)

Definition isOk (r : Reply) : bool :=
  match r with
  | ROk _ => true
  | RErr _ => false
  end.

(** [copyFile] stops at its first failing call and returns that call's
    error: the calls made are an initial part of open, make-directory,
    create, copy, all successful but the last.  In particular the
    destination is not created when the source cannot be opened. *)
Theorem copyFile_stops_at_first_error (src dst : path) (w : World) (t : Trace)
        (e : string) :
  fst (copyFile src dst w t) = Some e ->
  exists done c,
    snd (copyFile src dst w t) = t ++ done ++ [(c, RErr e)]
    /\ forallb (fun cr => isOk (snd cr)) done = true
    /\ map fst done ++ [c] =
       firstn (S (length done))
              [OsOpen src; OsMkdirAll (pathDir dst); OsCreate dst;
               IoCopyBuffer src dst].
Proof.
  unfold copyFile. mrun.
  destruct (w_reply w t (OsOpen src)) as [o1|e1] eqn:E1; mrun.
  2:{ intros [= <-]. exists [], (OsOpen src). repeat split. }
  destruct (w_reply w _ (OsMkdirAll (pathDir dst))) as [o2|e2] eqn:E2; mrun.
  2:{ intros [= <-]. exists [(OsOpen src, ROk o1)], (OsMkdirAll (pathDir dst)).
      rewrite <- !app_assoc. repeat split. }
  destruct (w_reply w _ (OsCreate dst)) as [o3|e3] eqn:E3; mrun.
  2:{ intros [= <-].
      exists [(OsOpen src, ROk o1); (OsMkdirAll (pathDir dst), ROk o2)],
             (OsCreate dst).
      rewrite <- !app_assoc. repeat split. }
  destruct (w_reply w _ (IoCopyBuffer src dst)) as [o4|e4] eqn:E4; mrun.
  { discriminate. }
  intros [= <-].
  exists [(OsOpen src, ROk o1); (OsMkdirAll (pathDir dst), ROk o2);
          (OsCreate dst, ROk o3)], (IoCopyBuffer src dst).
  rewrite <- !app_assoc. repeat split.
Qed.

Lemma copyFile_stops_at_first_error_witness :
  exists done c,
    snd (copyFile (P "icon.icns") (Join (Join (P "/tmp/d") "mount") "x")
                  readOnlyVolumeWorld [])
    = [] ++ done ++ [(c, RErr "read-only file system")]
    /\ forallb (fun cr => isOk (snd cr)) done = true
    /\ map fst done ++ [c] =
       firstn (S (length done))
              [OsOpen (P "icon.icns");
               OsMkdirAll (pathDir (Join (Join (P "/tmp/d") "mount") "x"));
               OsCreate (Join (Join (P "/tmp/d") "mount") "x");
               IoCopyBuffer (P "icon.icns")
                            (Join (Join (P "/tmp/d") "mount") "x")].
Proof.
  apply (copyFile_stops_at_first_error
           (P "icon.icns") (Join (Join (P "/tmp/d") "mount") "x")
           readOnlyVolumeWorld [] "read-only file system").
  reflexivity.
Defined.

Lemma writesOnly_below skip dst new :
  writesOnly (keptBelow skip dst) new ->
  forall c r p, In (c, r) new -> dstOf c = Some p ->
                exists names, p = joinAll dst names.
Proof.
  unfold writesOnly. rewrite List.Forall_forall. intros W c r p Hin Hd.
  destruct (W _ Hin _ Hd) as (names & E & _). by exists names.
Qed.

(** Whatever the source tree and the world, none of the three recursive
    copies ever writes outside its destination directory. *)
Theorem tree_copies_write_below_destination
        (src dst : path) (w : World) (t : Trace) :
  (exists new,
      snd (copyDir src dst w t) = t ++ new
      /\ forall c r p, In (c, r) new -> dstOf c = Some p ->
                       exists names, p = joinAll dst names)
  /\ (exists new,
         snd (copyDirWithHardLinks src dst w t) = t ++ new
         /\ forall c r p, In (c, r) new -> dstOf c = Some p ->
                          exists names, p = joinAll dst names)
  /\ (exists new,
         snd (smartCopyDir src dst w t) = t ++ new
         /\ forall c r p, In (c, r) new -> dstOf c = Some p ->
                          exists names, p = joinAll dst names).
Proof.
  unfold copyDir, copyDirWithHardLinks, smartCopyDir,
    copyDirFrom, copyDirWithHardLinksFrom, smartCopyDirFrom.
  rewrite !bind_eq. cbn [statM fst snd].
  split; [|split].
  - destruct (copyTree_writes (fun _ => false) copyFile writesTo_copyFile
                (w_stat w t src) src dst w t) as (new & E & W).
    exists new. split; [exact E | by eapply writesOnly_below].
  - destruct (copyTree_writes (fun _ => false) linkOrCopy writesTo_linkOrCopy
                (w_stat w t src) src dst w t) as (new & E & W).
    exists new. split; [exact E | by eapply writesOnly_below].
  - destruct (copyTree_writes shouldExclude copyFile writesTo_copyFile
                (w_stat w t src) src dst w t) as (new & E & W).
    exists new. split; [exact E | by eapply writesOnly_below].
Qed.



(** A source that cannot be stat'ed makes each of the three recursive
    copies fail before any call; a source that is not a directory makes it
    fail after the destination directory has been requested, which is then
    its only call. *)
Theorem tree_copies_bad_source
        (copy : path -> path -> M error) (src dst : path)
        (w : World) (t : Trace) :
  In copy [copyDir; copyDirWithHardLinks; smartCopyDir] ->
  (w_stat w t src = NGone ->
   fst (copy src dst w t) <> None /\ snd (copy src dst w t) = t)
  /\ (forall size,
         w_stat w t src = NFile size ->
         fst (copy src dst w t) <> None
         /\ snd (copy src dst w t)
            = t ++ [(OsMkdirAll dst, w_reply w t (OsMkdirAll dst))]).
Proof.
  intros Hin.
  assert (Hshape : exists skip leaf,
             copy = fun s d => node <- statM s ;; copyTree skip leaf node s d).
  { destruct Hin as [<-|[<-|[<-|[]]]]; do 2 eexists; reflexivity. }
  destruct Hshape as (skip & leaf & ->). split.
  - intros Hs. mrun. rewrite Hs. cbn [copyTree]. mrun.
    split; [discriminate | reflexivity].
  - intros size Hs. mrun. rewrite Hs. cbn [copyTree]. mrun.
    destruct (w_reply w t (OsMkdirAll dst)); mrun; split;
      first [discriminate | reflexivity].
Qed.

Lemma tree_copies_bad_source_witness :
  fst (smartCopyDir (P "missing.app") (P "/stage/missing.app") busyWorld [])
  <> None
  /\ snd (smartCopyDir (P "missing.app") (P "/stage/missing.app") busyWorld [])
     = [].
Proof.
  apply (tree_copies_bad_source smartCopyDir (P "missing.app")
                                (P "/stage/missing.app") busyWorld []).
  - simpl. tauto.
  - reflexivity.
Defined.

(* ===================================================================== *)
(** ** The smart copy as a copy of the filtered tree *)
(* ===================================================================== *)

Definition pruneEntries (skip : string -> bool) (rec : Node -> Node)
  : list (string * Node) -> list (string * Node) :=
  fix loop (l : list (string * Node)) : list (string * Node) :=
    match l with
    | [] => []
    | (name, child) :: l' =>
        if skip name then loop l' else (name, rec child) :: loop l'
    end.

(** The tree without the entries whose name is skipped, at every depth. *)
Fixpoint prune (skip : string -> bool) (node : Node) : Node :=
  match node with
  | NDir readable entries =>
      NDir readable (pruneEntries skip (fun child => prune skip child) entries)
  | _ => node
  end.

Lemma copyTree_prune skip leaf node :
  forall src dst,
    copyTree skip leaf node src dst
    = copyTree (fun _ => false) leaf (prune skip node) src dst.
Proof.
  induction node as [size| |readable entries IH] using Node_ind';
    intros src dst; try reflexivity.
  cbn [copyTree prune]. f_equal. destruct readable; [|reflexivity].
  induction IH as [|[name child] l Hc _ IHl]; [reflexivity|].
  cbn [copyEntries pruneEntries].
  destruct (skip name); [exact IHl|].
  cbn [copyEntries]. cbn [snd] in Hc.
  destruct child as [size|r sub|].
  - cbn [prune]. f_equal. exact IHl.
  - rewrite Hc. cbn [prune]. f_equal. exact IHl.
  - cbn [prune]. exact IHl.
Qed.

(** No name of the pruned tree is skipped. *)
Lemma prune_kept skip node :
  forall names child,
    entryOf (prune skip node) names child ->
    Forall (fun n => skip n = false) names.
Proof.
  induction node as [size| |readable entries IH] using Node_ind';
    intros names child He; try (inversion He; fail).
  cbn [prune] in He.
  assert (Hin : forall name c,
             In (name, c)
                (pruneEntries skip (fun child => prune skip child) entries) ->
             skip name = false
             /\ exists c0, In (name, c0) entries /\ c = prune skip c0).
  { clear. induction entries as [|[n0 c0] l IHl]; intros name c; [intros []|].
    cbn [pruneEntries]. destruct (skip n0) eqn:Es.
    - intros H. destruct (IHl _ _ H) as (Hs & c1 & H1 & E).
      split; [exact Hs|]. exists c1. split; [by right | exact E].
    - intros [[= <- <-]|H].
      + split; [exact Es|]. exists c0. split; [by left | reflexivity].
      + destruct (IHl _ _ H) as (Hs & c1 & H1 & E).
        split; [exact Hs|]. exists c1. split; [by right | exact E]. }
  inversion He as [r es name c Hc | r es name sub rest c Hc Hsub]; subst.
  - destruct (Hin _ _ Hc) as [Hs _]. by repeat constructor.
  - destruct (Hin _ _ Hc) as (Hs & c0 & Hc0 & ->).
    constructor; [exact Hs|].
    rewrite List.Forall_forall in IH.
    apply (IH (name, c0) Hc0 rest child Hsub).
Qed.

(** [smartCopyDir] is [copyDir] applied to the source tree from which every
    entry matching the exclusion list has been removed, at every depth:
    same calls, same result, in every world. *)
Theorem smartCopyDir_is_copyDir_of_pruned
        (node : Node) (src dst : path) (w : World) (t : Trace) :
  smartCopyDirFrom node src dst w t
  = copyDirFrom (prune shouldExclude node) src dst w t
  /\ forall names child,
      entryOf (prune shouldExclude node) names child ->
      Forall (fun n => shouldExclude n = false) names.
Proof.
  split.
  - unfold smartCopyDirFrom, copyDirFrom. by rewrite copyTree_prune.
  - apply prune_kept.
Qed.

Example prune_sampleBundle :
  prune shouldExclude sampleBundle =
  NDir true
       [("Contents",
         NDir true [("Info.plist", NFile 300);
                    ("MacOS", NDir true [("app", NFile 4096)])]);
        ("dangling", NGone)].
Proof. reflexivity. Qed.

(* ===================================================================== *)
(** ** The exclusion list *)
(* ===================================================================== *)

Definition noStar (p : list ascii) : bool :=
  forallb (fun c => negb (Ascii.eqb c "*"%char)) p.

Definition noSlashL (l : list ascii) : bool :=
  forallb (fun c => negb (GoString.isSlash c)) l.

Definition noSlash (s : string) : bool := noSlashL (GoString.chars s).

Lemma matchL_literal (p name : list ascii) :
  noStar p = true -> (matchL p name = true <-> name = p).
Proof.
  revert name. induction p as [|c p IH]; intros name Hp.
  - destruct name; simpl; split; congruence.
  - cbn [noStar forallb] in Hp. apply andb_prop in Hp as [Hc Hp].
    apply negb_true_iff in Hc. cbn [matchL]. rewrite Hc.
    destruct name as [|d name]; [split; discriminate|].
    split.
    + intros H. apply andb_prop in H as [H1 H2].
      apply Ascii.eqb_eq in H1 as ->. apply (IH _ Hp) in H2 as ->.
      reflexivity.
    + intros [= -> ->]. rewrite Ascii.eqb_refl. by apply IH.
Qed.

Lemma matchL_star_eq (lit n : list ascii) :
  matchL ("*"%char :: lit) n =
  matchL lit n ||
  match n with
  | [] => false
  | d :: n' => negb (GoString.isSlash d) && matchL ("*"%char :: lit) n'
  end.
Proof. destruct n; reflexivity. Qed.

Lemma matchL_star (lit name : list ascii) :
  noStar lit = true ->
  (matchL ("*"%char :: lit) name = true
   <-> exists pre, name = pre ++ lit /\ noSlashL pre = true).
Proof.
  intros Hl. induction name as [|d name IH]; rewrite matchL_star_eq.
  - rewrite orb_false_r. split.
    + intros H. apply (matchL_literal _ _ Hl) in H. exists []. by split.
    + intros (pre & H & _). apply (matchL_literal _ _ Hl).
      destruct pre; [exact H | discriminate H].
  - split.
    + intros H. apply orb_prop in H as [H|H].
      * apply (matchL_literal _ _ Hl) in H. exists []. by split.
      * apply andb_prop in H as [Hd H]. apply IH in H as (pre & -> & Hp).
        exists (d :: pre). split; [reflexivity|].
        cbn [noSlashL forallb]. by rewrite Hd.
    + intros (pre & H & Hp). apply orb_true_iff. destruct pre as [|c pre].
      * left. by apply (matchL_literal _ _ Hl).
      * right. injection H as -> ->.
        cbn [noSlashL forallb] in Hp. apply andb_prop in Hp as [Hc Hp].
        rewrite Hc. apply IH. by exists pre.
Qed.

Lemma chars_inj (a b : string) : GoString.chars a = GoString.chars b -> a = b.
Proof.
  unfold GoString.chars. intros H.
  rewrite <- (string_of_list_ascii_of_string a),
          <- (string_of_list_ascii_of_string b), H.
  reflexivity.
Qed.

Lemma Match_literal (pattern name : string) :
  noStar (GoString.chars pattern) = true ->
  (Match pattern name = true <-> name = pattern).
Proof.
  intros Hp. unfold Match. rewrite (matchL_literal _ _ Hp). split.
  - apply chars_inj.
  - by intros ->.
Qed.

Lemma Match_star_suffix (ext name : string) :
  noStar (GoString.chars ext) = true ->
  (Match ("*" +:+ ext) name = true
   <-> exists pre, name = pre +:+ ext /\ noSlash pre = true).
Proof.
  intros Hp. unfold Match.
  change (GoString.chars ("*" +:+ ext)) with ("*"%char :: GoString.chars ext).
  rewrite (matchL_star _ _ Hp). split.
  - intros (pre & H & Hs). exists (GoString.str pre). split.
    + apply chars_inj. rewrite chars_app, H. f_equal.
      unfold GoString.chars, GoString.str.
      by rewrite list_ascii_of_string_of_list_ascii.
    + unfold noSlash, GoString.chars, GoString.str.
      by rewrite list_ascii_of_string_of_list_ascii.
  - intros (pre & -> & Hs). exists (GoString.chars pre).
    split; [apply chars_app | exact Hs].
Qed.

(** What [smartCopyDir] leaves out: the six fixed names, and every name
    that ends in [.tmp], [.log] or [.cache] -- files and directories alike,
    the bare extension included. *)
Theorem shouldExclude_spec (name : string) :
  shouldExclude name = true <->
  In name [".DS_Store"; "__MACOSX"; ".Trashes"; ".fseventsd";
           ".Spotlight-V100"; ".TemporaryItems"]
  \/ exists pre ext,
      In ext [".tmp"; ".log"; ".cache"]
      /\ name = pre +:+ ext /\ noSlash pre = true.
Proof.
  unfold shouldExclude. rewrite existsb_exists. split.
  - intros (pattern & Hin & Hm). unfold excludePatterns in Hin.
    repeat (destruct Hin as [<-|Hin];
            [first [ apply Match_literal in Hm; [|reflexivity];
                     left; subst name; simpl; tauto
                   | apply (Match_star_suffix _ name) in Hm; [|reflexivity];
                     destruct Hm as (pre & -> & Hs);
                     right; eexists pre, _;
                     split; [|split; [reflexivity | exact Hs]];
                     simpl; tauto ]|]).
    destruct Hin.
  - intros [Hin|(pre & ext & Hin & -> & Hs)].
    + exists name. split.
      * unfold excludePatterns. simpl in Hin |- *. tauto.
      * apply Match_literal; [|reflexivity].
        simpl in Hin. destruct Hin as [<-|[<-|[<-|[<-|[<-|[<-|[]]]]]]];
          reflexivity.
    + exists ("*" +:+ ext). split.
      * unfold excludePatterns. simpl in Hin |- *.
        destruct Hin as [<-|[<-|[<-|[]]]]; simpl; tauto.
      * apply Match_star_suffix.
        -- simpl in Hin. destruct Hin as [<-|[<-|[<-|[]]]]; reflexivity.
        -- by exists pre.
Qed.

(* ===================================================================== *)
(** ** The bundle-size optimization *)
(* ===================================================================== *)

Lemma emits_impl {A} (m : M A) (Q Q' : Call -> Prop) :
  (forall c, Q c -> Q' c) -> emits m Q -> emits m Q'.
Proof.
  intros H Hm w t. destruct (Hm w t) as (new & E & F).
  exists new. split; [exact E|].
  eapply List.Forall_impl; [|exact F]. intros cr. apply H.
Qed.

Lemma emits_wrap ctx (m : M error) Q : emits m Q -> emits (wrap ctx m) Q.
Proof.
  intros Hm. unfold wrap. apply emits_bind; [exact Hm|].
  intros e. apply emits_ret.
Qed.

Lemma emits_extends {A} (m : M A) Q : emits m Q -> extends m.
Proof. intros H w t. destruct (H w t) as (new & E & _). by exists new. Qed.

Definition isRemoveOrGlob (c : Call) : bool :=
  match c with
  | OsRemove _ | FilepathGlob _ _ => true
  | _ => false
  end.

Definition isPrint (c : Call) : bool :=
  match c with
  | Print _ _ => true
  | _ => false
  end.

Lemma optimizeAppBundle_nil appPath w t :
  fst (optimizeAppBundle appPath w t) = None.
Proof. unfold optimizeAppBundle. rewrite !bind_eq. reflexivity. Qed.

Lemma optimizeAppBundle_emits appPath :
  emits (optimizeAppBundle appPath) (fun c => isRemoveOrGlob c = true).
Proof. unfold optimizeAppBundle. repeat emit_step. Qed.

Lemma linkOrCopy_emits src dst (Q : Call -> Prop) :
  Q (OsLink src dst) -> Q (OsOpen src) -> Q (OsMkdirAll (pathDir dst)) ->
  Q (OsCreate dst) -> Q (IoCopyBuffer src dst) ->
  emits (linkOrCopy src dst) Q.
Proof.
  intros. unfold linkOrCopy. apply emits_bind; [by apply emits_callE|].
  intros [e|]; [by apply emits_copyFile | apply emits_ret].
Qed.

Ltac emit_quiet :=
  repeat first
    [ apply emits_ret | apply emits_statM
    | apply emits_callE; reflexivity
    | apply emits_call; reflexivity
    | apply emits_wrap
    | apply emits_andThen
    | apply emits_copyFile; reflexivity
    | apply linkOrCopy_emits; reflexivity
    | apply copyTree_emits; [intros ? ? | reflexivity]
    | apply emits_bind; [|intros ?]
    | match goal with
      | |- emits (match ?x with _ => _ end) _ => destruct x
      | |- emits (if ?x then _ else _) _ => destruct x
      end ].

Lemma setupItem_quiet config dir item :
  emits (setupItem config dir item) (fun c => isPrint c = false).
Proof.
  unfold setupItem, copyDirWithHardLinks, copyDir, smartCopyAppBundle,
    smartCopyDir, copyDirWithHardLinksFrom, copyDirFrom, smartCopyDirFrom.
  emit_quiet.
Qed.

Lemma emits_forEachE {A} (l : list A) (body : A -> M error) Q :
  (forall a, emits (body a) Q) -> emits (forEachE l body) Q.
Proof.
  intros Hb. induction l as [|a l IH]; simpl.
  - apply emits_ret.
  - apply emits_bind; auto. intros [e|]; [apply emits_ret | exact IH].
Qed.

(** [optimizeAppBundle] returns nil whatever happens, and all it does is
    look for files and remove them; consequently [setupSourceDirectory]
    never writes its "failed to optimize app bundle" warning, nor anything
    else, to the log. *)
Theorem setupSourceDirectory_never_warns
        (config : Config) (dir : path) (w : World) (t : Trace) :
  (forall appPath, fst (optimizeAppBundle appPath w t) = None)
  /\ (forall appPath, exists new,
         snd (optimizeAppBundle appPath w t) = t ++ new
         /\ Forall (fun cr => isRemoveOrGlob (fst cr) = true) new)
  /\ exists new,
      snd (setupSourceDirectory config dir w t) = t ++ new
      /\ Forall (fun cr => isPrint (fst cr) = false) new.
Proof.
  split; [intros p; apply optimizeAppBundle_nil|].
  split; [intros p; apply optimizeAppBundle_emits|].
  revert w t. change (emits (setupSourceDirectory config dir)
                            (fun c => isPrint c = false)).
  unfold setupSourceDirectory. apply emits_bind.
  - destruct (OptimizeAppSize config); [|apply emits_ret].
    apply emits_forEach. intros item.
    destruct (isAppDir item); [|apply emits_ret].
    intros w t. rewrite bind_eq, optimizeAppBundle_nil.
    destruct (optimizeAppBundle_emits (P (Path item)) w t) as (new & E & F).
    exists new. rewrite E. split.
    + destruct (LogWriter config); reflexivity.
    + eapply List.Forall_impl; [|exact F].
      intros [c r]. simpl. by destruct c.
  - intros _. apply emits_andThen.
    + apply emits_forEachE. intros item. apply setupItem_quiet.
    + unfold stageBackground. emit_quiet.
Qed.

(** A computation whose first call is [c]. *)
Definition startsWith {A} (m : M A) (c : Call) (w : World) (t : Trace) : Prop :=
  exists more, snd (m w t) = t ++ (c, w_reply w t c) :: more.

Lemma startsWith_bind {A B} (m : M A) (k : A -> M B) c w t :
  startsWith m c w t -> (forall a, extends (k a)) ->
  startsWith (bind m k) c w t.
Proof.
  intros [more E] Hk. unfold startsWith. rewrite bind_eq, E.
  destruct (Hk (fst (m w t)) w (t ++ (c, w_reply w t c) :: more))
    as [more' E'].
  exists (more ++ more'). rewrite E', <- app_assoc. reflexivity.
Qed.

Lemma extends_optimizeAppBundle appPath : extends (optimizeAppBundle appPath).
Proof. eapply emits_extends, optimizeAppBundle_emits. Qed.

(** With [OptimizeAppSize], staging starts by deleting from the original
    application bundle -- not from a staged copy -- its code-signature
    resource file when there is one: for a leading [.app] item that is the
    first call of [setupSourceDirectory]. *)
Theorem setupSourceDirectory_strips_source_bundle
        (config : Config) (dir : path) (w : World) (t : Trace)
        (item : Item) (rest : list Item) :
  let codeResources :=
    Join (Join (Join (P (Path item)) "Contents") "_CodeSignature")
         "CodeResources" in
  OptimizeAppSize config = true ->
  Contents config = item :: rest ->
  isAppDir item = true ->
  w_stat w t codeResources <> NGone ->
  exists more,
    snd (setupSourceDirectory config dir w t) =
    t ++ (OsRemove codeResources, w_reply w t (OsRemove codeResources))
      :: more.
Proof.
  intros codeResources Hopt Hc Hitem Hstat.
  change (startsWith (setupSourceDirectory config dir)
                     (OsRemove codeResources) w t).
  unfold setupSourceDirectory. rewrite Hopt, Hc.
  apply startsWith_bind.
  2:{ intros _. eapply emits_extends. apply emits_andThen.
      - apply emits_forEachE. intros it. apply setupItem_quiet.
      - unfold stageBackground. emit_quiet. }
  cbn [forEach]. rewrite Hitem. apply startsWith_bind.
  2:{ intros _. apply extends_forEach. intros it.
      destruct (isAppDir it); [|apply extends_ret].
      apply extends_bind; [apply extends_optimizeAppBundle|].
      intros e. ext. }
  apply startsWith_bind; [|intros e; ext].
  unfold optimizeAppBundle. apply startsWith_bind; [|intros _; ext].
  cbn [forEach]. apply startsWith_bind; [|intros _; ext].
  fold codeResources. unfold startsWith. mrun.
  destruct (w_stat w t codeResources); [| |contradiction];
    exists []; reflexivity.
Qed.

Lemma setupSourceDirectory_strips_source_bundle_witness :
  exists more,
    snd (setupSourceDirectory
           (mkConfig "App.dmg" "App" "" 14 128 640 480 ""
                     [mkItem 160 240 Dir "build/My.app"]
                     None UDZO "" false true)
           (P "/stage") bundleWorld []) =
    (OsRemove (Join (Join (Join (P "build/My.app") "Contents")
                          "_CodeSignature") "CodeResources"), ROk [])
      :: more.
Proof.
  apply (setupSourceDirectory_strips_source_bundle
           (mkConfig "App.dmg" "App" "" 14 128 640 480 ""
                     [mkItem 160 240 Dir "build/My.app"]
                     None UDZO "" false true)
           (P "/stage") bundleWorld [] (mkItem 160 240 Dir "build/My.app") []).
  - reflexivity.
  - reflexivity.
  - reflexivity.
  - discriminate.
Defined.

(* ===================================================================== *)
(** ** The symlink-direct stager *)
(* ===================================================================== *)

Lemma wrap_callE_eq ctx c w t :
  wrap ctx (callE c) w t =
  (match w_reply w t c with ROk _ => None | RErr e => Errorf ctx e end,
   t ++ [(c, w_reply w t c)]).
Proof. mrun. destruct (w_reply w t c); reflexivity. Qed.

(** The one call [createSymbolicLinks] makes for an item. *)
Definition symlinkCall (tempDir : path) (item : Item) : Call :=
  OsSymlink (Path item) (Join tempDir (baseOf item)).

(** The context [createSymbolicLinks] puts before the error of the link
    made for an item. *)
Definition symlinkContext (item : Item) : string :=
  if String.eqb (Type_ item) File then
    "failed to create symbolic link for file " +:+ Path item +:+ ": "
  else if String.eqb (Type_ item) Dir then
    "failed to create symbolic link for directory " +:+ Path item +:+ ": "
  else "failed to create symbolic link " +:+ Path item +:+ ": ".

(** The items [createSymbolicLinks] has a case for. *)
Definition linkedItems (contents : list Item) : list Item :=
  List.filter (fun item => declaredType (Type_ item)) contents.

Lemma symlinkItem_run tempDir item w t :
  symlinkItem tempDir item w t =
  if declaredType (Type_ item) then
    (match w_reply w t (symlinkCall tempDir item) with
     | ROk _ => None
     | RErr e => Some (symlinkContext item +:+ e)
     end,
     t ++ [(symlinkCall tempDir item, w_reply w t (symlinkCall tempDir item))])
  else (None, t).
Proof.
  unfold symlinkItem, symlinkCall, symlinkContext, declaredType, baseOf.
  destruct (String.eqb (Type_ item) File);
    [|destruct (String.eqb (Type_ item) Dir);
      [|destruct (String.eqb (Type_ item) Link)]];
    cbn [orb]; try reflexivity;
    rewrite wrap_callE_eq; unfold Errorf;
    destruct (w_reply w t _); reflexivity.
Qed.

Lemma forEachE_cons {A} (a : A) (l : list A) (body : A -> M error) w t :
  forEachE (a :: l) body w t =
  match fst (body a w t) with
  | Some e => (Some e, snd (body a w t))
  | None => forEachE l body w (snd (body a w t))
  end.
Proof.
  cbn [forEachE]. rewrite bind_eq. destruct (fst (body a w t)); reflexivity.
Qed.

Lemma andThen_ret_None (m : M error) w t : andThen m (ret None) w t = m w t.
Proof.
  unfold andThen. rewrite bind_eq. destruct (m w t) as [[e|] t']; reflexivity.
Qed.

(** What the loop of [createSymbolicLinks] has done when it ends: [done]
    are the links made, all successful; either they are the links of all
    the items, or the link of the next item failed and its error is
    returned. *)
Definition linksMade (tempDir : path) (items : list Item)
           (result : error * Trace) (t : Trace) (done : Trace) : Prop :=
  forallb (fun cr => isOk (snd cr)) done = true
  /\ map fst done = map (symlinkCall tempDir) (firstn (length done) items)
  /\ match fst result with
     | None => snd result = t ++ done /\ length done = length items
     | Some msg =>
         exists item e,
           nth_error items (length done) = Some item
           /\ snd result = t ++ done ++ [(symlinkCall tempDir item, RErr e)]
           /\ msg = symlinkContext item +:+ e
     end.

Lemma symlinkLoop_run tempDir w (contents : list Item) :
  forall t,
  exists done,
    linksMade tempDir (linkedItems contents)
              (forEachE contents (symlinkItem tempDir) w t) t done.
Proof.
  induction contents as [|item l IH]; intros t.
  - exists []. repeat split. cbn. by rewrite app_nil_r.
  - rewrite forEachE_cons, symlinkItem_run. unfold linkedItems.
    cbn [List.filter]. fold (linkedItems l).
    destruct (declaredType (Type_ item)); [|apply IH].
    cbn [fst snd].
    destruct (w_reply w t (symlinkCall tempDir item)) as [out|e].
    + destruct (IH (t ++ [(symlinkCall tempDir item, ROk out)]))
        as (done & Hok & Hmap & Hres).
      exists ((symlinkCall tempDir item, ROk out) :: done).
      split; [cbn; exact Hok|].
      split; [cbn; by rewrite Hmap|].
      destruct (fst (forEachE l (symlinkItem tempDir) w
                       (t ++ [(symlinkCall tempDir item, ROk out)]))).
      * destruct Hres as (it & e & Hn & Es & Em).
        exists it, e. split; [exact Hn|]. split; [|exact Em].
        rewrite Es, <- app_assoc. reflexivity.
      * destruct Hres as [Es El]. split.
        -- rewrite Es, <- app_assoc. reflexivity.
        -- cbn. by rewrite El.
    + exists []. repeat split. exists item, e. repeat split.
Qed.

(** Without a background image, [createSymbolicLinks] makes one symbolic
    link for each item of a declared type, in list order, each pointing at
    the item's path exactly as configured, and makes no other call; items
    of any other type are passed over.  It goes on as long as the links
    succeed: either every such item has been linked and nil is returned,
    or the link of the first item that could not be linked is the last
    call and its error is returned with the context naming the item. *)
Theorem createSymbolicLinks_one_link_per_item
        (config : Config) (tempDir : path) (w : World) (t : Trace) :
  Background config = "" ->
  exists done,
    forallb (fun cr => isOk (snd cr)) done = true
    /\ map fst done =
       map (symlinkCall tempDir)
           (firstn (length done) (linkedItems (Contents config)))
    /\ match fst (createSymbolicLinks config tempDir w t) with
       | None =>
           snd (createSymbolicLinks config tempDir w t) = t ++ done
           /\ length done = length (linkedItems (Contents config))
       | Some msg =>
           exists item e,
             nth_error (linkedItems (Contents config)) (length done)
             = Some item
             /\ snd (createSymbolicLinks config tempDir w t)
                = t ++ done ++ [(symlinkCall tempDir item, RErr e)]
             /\ msg = symlinkContext item +:+ e
       end.
Proof.
  intros Hbg.
  assert (createSymbolicLinks config tempDir w t
          = forEachE (Contents config) (symlinkItem tempDir) w t) as ->.
  { unfold createSymbolicLinks, stageBackground, nonEmpty.
    rewrite Hbg. cbn [String.eqb negb]. apply andThen_ret_None. }
  apply symlinkLoop_run.
Qed.

(** A world in which the second symbolic link cannot be made. *)
Definition secondLinkFails : World :=
  mkWorld (fun t _ => match t with
                      | [] => ROk []
                      | _ => RErr "file exists"
                      end)
          (fun _ _ => NGone) (fun _ _ => NGone).

Lemma createSymbolicLinks_one_link_per_item_witness :
  createSymbolicLinks (sampleStaging false) (P "/tmp/direct")
                      secondLinkFails [] =
  (Some "failed to create symbolic link /Applications: file exists",
   [(OsSymlink "build/My.app" (Join (P "/tmp/direct") "My.app"), ROk []);
    (OsSymlink "/Applications" (Join (P "/tmp/direct") "Applications"),
     RErr "file exists")])
  /\ exists done,
      linksMade (P "/tmp/direct") (linkedItems sampleContents)
                (createSymbolicLinks (sampleStaging false) (P "/tmp/direct")
                                     secondLinkFails [])
                [] done.
Proof.
  split; [reflexivity|].
  exact (createSymbolicLinks_one_link_per_item
           (sampleStaging false) (P "/tmp/direct") secondLinkFails []
           eq_refl).
Defined.

(* ===================================================================== *)
(** ** Temporary images and staging directories are released *)
(* ===================================================================== *)

Lemma extends_customizeVolume config a b :
  extends (customizeVolume config a b).
Proof.
  unfold customizeVolume. ext;
    first [apply extends_copyFile | apply extends_setDMGIcon].
Qed.

Lemma extends_compressedBody config create tempDMG :
  extends
    (andThen (wrap "failed to create temp dmg: " (callE (create tempDMG)))
       (andThen (if wantsCustomization config
                 then tmpMount tempDMG (customizeVolume config)
                 else ret None)
          (forceDetachDMG tempDMG ;;;
           execE "hdiutil convert failed: " "hdiutil"
                 (["convert"; pstr tempDMG; "-format"; Format_ config;
                   "-o"; FileName config]
                  ++ convertArgsOf (CompressionLevel config) [])))).
Proof.
  ext; first [ apply extends_tmpMount; intros; apply extends_customizeVolume
             | apply extends_forceDetachDMG ].
Qed.

Definition isMount (c : Call) : bool :=
  match c with
  | HdiutilAttach _ _ | OsMkdirTemp _ => true
  | _ => false
  end.

Section CompressedBuild.

Variable config : Config.
Variable create : path -> Call.
Variable w : World.
Variable t : Trace.

Let now :=
  match w_reply w t TimeNowUnixNano with
  | ROk out => outStr out
  | RErr _ => ""
  end.
Let tempDMG :=
  Join (P (GoString.Dir (FileName config)))
       ("temp_" +:+ now +:+ "_" +:+ GoString.Base (FileName config)).
Let t1 := t ++ [(TimeNowUnixNano, w_reply w t TimeNowUnixNano)].

Hypothesis create_no_mount : isMount (create tempDMG) = false.

(** The compressed builds ([createCompressedDMG], [createCompressedDMGDirect],
    [createCompressedDMGWithSize]) remove the intermediate writable image as
    their last call on every path.  When creating that image fails, nothing
    else is attempted and the error is returned with its context.  When
    neither an icon nor a background is configured, the image is never
    mounted. *)
Theorem compressedBuild_releases_image :
  exists body r,
    snd (compressedBuild config create w t) =
    t1 ++ body ++ [(OsRemove tempDMG, r)]
    /\ (forall e,
           w_reply w t1 (create tempDMG) = RErr e ->
           body = [(create tempDMG, RErr e)]
           /\ fst (compressedBuild config create w t)
              = Some ("failed to create temp dmg: " +:+ e))
    /\ (wantsCustomization config = false ->
        Forall (fun cr => isMount (fst cr) = false) body).
Proof.
  unfold compressedBuild, timedTempName.
  rewrite bind_eq, bind_eq, call_eq. cbn [fst snd ret].
  fold now tempDMG t1. rewrite deferring_call_eq. cbn [fst snd].
  set (body := andThen _ _).
  assert (Hemit : wantsCustomization config = false ->
                  emits body (fun c => isMount c = false)).
  { intros Hw. unfold body. rewrite Hw. apply emits_andThen.
    - apply emits_wrap, emits_callE. exact create_no_mount.
    - apply emits_andThen; [apply emits_ret|].
      apply emits_bind.
      + eapply emits_impl; [|apply forceDetachDMG_emits].
        intros c Hc. by destruct c.
      + intros _. unfold execE. apply emits_bind; [by apply emits_call|].
        intros r. apply emits_ret. }
  destruct (extends_compressedBody config create tempDMG w t1) as [new E].
  fold body in E. rewrite E.
  exists new. eexists. split; [rewrite <- app_assoc; reflexivity|].
  split.
  - intros e He. revert E. unfold body. mrun. rewrite He. mrun.
    intros E. apply app_inv_head in E. subst new.
    split; reflexivity.
  - intros Hw. destruct (Hemit Hw w t1) as (new' & E' & F).
    rewrite E in E'. apply app_inv_head in E'. by subst new'.
Qed.

End CompressedBuild.

Lemma compressedBuild_releases_image_witness :
  exists body r,
    snd (createCompressedDMG
           (mkConfig "App.dmg" "App" "" 14 128 640 480 "" []
                     None UDZO "6" false false)
           (P "/tmp/src") okWorld []) =
    [(TimeNowUnixNano, ROk [])] ++ body
      ++ [(OsRemove (Join (P ".") "temp__App.dmg"), r)]
    /\ Forall (fun cr => isMount (fst cr) = false) body.
Proof.
  destruct (compressedBuild_releases_image
              (mkConfig "App.dmg" "App" "" 14 128 640 480 "" []
                        None UDZO "6" false false)
              (HdiutilCreate "App" (P "/tmp/src") UDRW) okWorld [] eq_refl)
    as (body & r & E & _ & Hm).
  exists body, r. split; [exact E | exact (Hm eq_refl)].
Defined.

Lemma extends_symlinkItem dir item : extends (symlinkItem dir item).
Proof. unfold symlinkItem. ext. Qed.

Lemma extends_safeItem dir item : extends (safeItem dir item).
Proof.
  unfold safeItem.
  repeat match goal with
         | |- extends (if ?b then _ else _) => destruct b
         end.
  - apply extends_bind; [ext|].
    intros [e|]; [|apply extends_ret].
    unfold wrap. apply extends_bind; [apply extends_copyFile|].
    intros; apply extends_ret.
  - unfold wrap, smartCopyAppBundle. apply extends_bind.
    + eapply emits_extends, smartCopyDir_never_links.
    + intros; apply extends_ret.
  - ext.
  - apply extends_ret.
Qed.

Lemma extends_stageBackground ctx config dir :
  extends (stageBackground ctx config dir).
Proof. unfold stageBackground. ext; try apply extends_copyFile. Qed.

Lemma extends_compressedBuild config create :
  extends (compressedBuild config create).
Proof.
  unfold compressedBuild, timedTempName.
  apply extends_bind; [ext|]. intros tempDMG. unfold deferring.
  apply extends_bind; [apply extends_compressedBody | intros; ext].
Qed.

Lemma extends_calculateDirSize dir : extends (calculateDirSize dir).
Proof. unfold calculateDirSize. ext. Qed.

Lemma extends_createSymbolicLinks config dir :
  extends (createSymbolicLinks config dir).
Proof.
  unfold createSymbolicLinks, andThen. apply extends_bind.
  - apply extends_forEachE. intros item. apply extends_symlinkItem.
  - intros [e|]; [apply extends_ret | apply extends_stageBackground].
Qed.

Lemma extends_plainBuild config dir rest :
  extends rest -> extends (plainBuild config dir rest).
Proof. intros H. unfold plainBuild, timedTempName. ext. Qed.

(** A builder that works in a directory of its own: the directory is made
    first; when that fails nothing else happens, and otherwise its removal
    is the builder's last call. *)
Definition inOwnTempDir (f : M error) (pattern ctx : string)
           (w : World) (t : Trace) : Prop :=
  (forall e,
      w_reply w t (OsMkdirTemp pattern) = RErr e ->
      f w t = (Some (ctx +:+ e), t ++ [(OsMkdirTemp pattern, RErr e)]))
  /\ (forall out,
         w_reply w t (OsMkdirTemp pattern) = ROk out ->
         exists body r,
           snd (f w t) =
           t ++ (OsMkdirTemp pattern, ROk out)
             :: body ++ [(OsRemoveAll (P (outStr out)), r)]).

Lemma inOwnTempDir_intro pattern ctx (body : path -> M error) w t :
  (forall d, extends (body d)) ->
  inOwnTempDir
    (r <- call (OsMkdirTemp pattern) ;;
     match r with
     | RErr e => ret (Errorf ctx e)
     | ROk out =>
         deferring (ignore (call (OsRemoveAll (P (outStr out)))))
                   (body (P (outStr out)))
     end) pattern ctx w t.
Proof.
  intros Hb. split.
  - intros e He. mrun. rewrite He. reflexivity.
  - intros out Ho. rewrite bind_eq, call_eq. cbn [fst snd]. rewrite Ho.
    rewrite deferring_call_eq. cbn [snd].
    destruct (Hb (P (outStr out)) w (t ++ [(OsMkdirTemp pattern, ROk out)]))
      as [new E].
    rewrite E. exists new. eexists. rewrite <- !app_assoc. reflexivity.
Qed.

(** [createDMGWithSafeHardLinks] and [CreateDMGDirect] stage into a
    temporary directory of their own.  If it cannot be created they return
    the wrapped error and do nothing else; otherwise, whatever happens
    during staging and image creation, removing that directory is their
    last call. *)
Theorem staging_directory_released
        (config : Config) (sourceDir : path) (w : World) (t : Trace) :
  inOwnTempDir (createDMGWithSafeHardLinks config sourceDir)
               "*-zapp-dmg-safe"
               "failed to create safe temporary directory: " w t
  /\ inOwnTempDir (CreateDMGDirect config)
                  "*-zapp-dmg-direct"
                  "failed to create temporary directory: " w t.
Proof.
  split.
  - unfold createDMGWithSafeHardLinks.
    apply (inOwnTempDir_intro
             "*-zapp-dmg-safe" "failed to create safe temporary directory: "
             (fun d => andThen (safeStage config d) _)).
    intros d. unfold andThen at 1. apply extends_bind.
    + apply extends_forEachE. intros item. apply extends_safeItem.
    + intros [e|]; [apply extends_ret|].
      ext; first [ apply extends_stageBackground
                 | apply extends_calculateDirSize
                 | apply extends_compressedBuild
                 | apply extends_setFileIcon ].
  - unfold CreateDMGDirect.
    apply (inOwnTempDir_intro
             "*-zapp-dmg-direct" "failed to create temporary directory: "
             (fun d => andThen (wrap _ (createSymbolicLinks _ d)) _)).
    intros d. unfold andThen at 1. apply extends_bind.
    + unfold wrap. apply extends_bind;
        [apply extends_createSymbolicLinks | intros; apply extends_ret].
    + intros [e|]; [apply extends_ret|].
      unfold andThen at 1. apply extends_bind; [ext|].
      intros [e|]; [apply extends_ret|].
      match goal with
      | |- extends (if ?b then _ else _) => destruct b
      end.
      * unfold andThen, wrap, createCompressedDMGDirect.
        apply extends_bind.
        -- apply extends_bind; [apply extends_compressedBuild|].
           intros; apply extends_ret.
        -- intros [e|]; [apply extends_ret|].
           ext; try apply extends_setFileIcon.
      * apply extends_plainBuild. ext; try apply extends_setFileIcon.
Qed.

Lemma staging_directory_released_witness :
  createDMGWithSafeHardLinks hardLinkConfig (P "/tmp/src")
    (mkWorld (fun _ _ => RErr "no space left on device")
             (fun _ _ => NGone) (fun _ _ => NGone)) [] =
  (Some "failed to create safe temporary directory: no space left on device",
   [(OsMkdirTemp "*-zapp-dmg-safe", RErr "no space left on device")]).
Proof.
  match goal with
  | |- createDMGWithSafeHardLinks ?c ?d ?w ?t = _ =>
      apply (proj1 (proj1 (staging_directory_released c d w t)))
  end.
  reflexivity.
Defined.

(* ===================================================================== *)
(** ** What the exact-size variant takes from the configuration *)
(* ===================================================================== *)

(** The calls [CreateDMGLikeBash] may make, as far as they bring content
    into the image: the image is created from the main application bundle,
    files are read from the background and the icon only, the one symbolic
    link points to [/Applications], and nothing is hard-linked, renamed or
    created with [hdiutil create] without a size. *)
Definition bashInput (config : Config) (c : Call) : Prop :=
  match c with
  | OsLink _ _ | HdiutilCreate _ _ _ _ | OsRename _ _ => False
  | OsSymlink target _ => target = "/Applications"
  | HdiutilCreateWithSize _ src _ _ _ =>
      src = P (mainAppPathOf (Contents config))
  | OsOpen src | IoCopyBuffer src _ =>
      src = P (Background config) \/ src = P (Icon config)
  | _ => True
  end.

Lemma emits_silent {A} (m : M A) Q :
  (forall w t, snd (m w t) = t) -> emits m Q.
Proof.
  intros H w t. exists []. split; [by rewrite H, app_nil_r | constructor].
Qed.

Ltac emit_input :=
  repeat match goal with
         | |- emits (ret _) _ => apply emits_ret
         | |- emits (statM _) _ => apply emits_statM
         | |- emits (callE _) _ => apply emits_callE; cbn; auto
         | |- emits (call _) _ => apply emits_call; cbn; auto
         | |- emits (wrap _ _) _ => apply emits_wrap
         | |- emits (andThen _ _) _ => apply emits_andThen
         | |- emits (copyFile _ _) _ => apply emits_copyFile; cbn; auto
         | |- emits (bind _ _) _ => apply emits_bind; [|intros ?]
         | |- emits (forEach _ _) _ => apply emits_forEach; intros ?
         | |- emits (ignore _) _ => unfold ignore
         | |- emits (execE _ _ _) _ => unfold execE
         | |- emits (deferring _ _) _ => unfold deferring
         | |- emits (match ?x with _ => _ end) _ => destruct x
         | |- emits _ _ => progress cbv zeta
         end.

Lemma likeBashBuild_inputs config sink tempDMG :
  emits (likeBashBuild config sink tempDMG) (bashInput config).
Proof.
  unfold likeBashBuild. apply emits_bind.
  - apply emits_silent. intros w t. apply bashTotalSize_trace.
  - intros total.
    unfold tmpMount, detachDeferred, forceDetachDMG, bashCustomize,
      setDMGIcon, setFileIcon.
    emit_input.
Qed.

Lemma normalize_keeps_inputs config :
  let config' := normalizeFileName (defaultLogWriter config) in
  Contents config' = Contents config
  /\ Background config' = Background config
  /\ Icon config' = Icon config.
Proof.
  unfold normalizeFileName, defaultLogWriter.
  destruct (LogWriter config); simpl;
    repeat match goal with |- context [if ?b then _ else _] => destruct b end;
    auto.
Qed.

(** [CreateDMGLikeBash] builds the image from the main application bundle
    alone.  Whatever the contents list holds, it hard-links nothing, the
    only symbolic link it makes points to [/Applications], the only files
    it reads are the background and the icon, and the only image it
    creates is the sized one made from the main application bundle: other
    directory items, file items and link items never reach the image. *)
Theorem CreateDMGLikeBash_inputs (config : Config) (w : World) (t : Trace) :
  exists new,
    snd (CreateDMGLikeBash config w t) = t ++ new
    /\ Forall (fun cr => bashInput config (fst cr)) new.
Proof.
  revert w t. change (emits (CreateDMGLikeBash config) (bashInput config)).
  unfold CreateDMGLikeBash.
  destruct (normalize_keeps_inputs config) as (Ec & Eb & Ei).
  cbv zeta in Ec, Eb, Ei. cbv zeta.
  set (config' := normalizeFileName (defaultLogWriter config)) in *.
  unfold deferring. apply emits_bind.
  - eapply emits_impl; [|apply likeBashBuild_inputs].
    intros c. unfold bashInput. rewrite Ec, Eb, Ei. auto.
  - intros e. emit_input.
Qed.

(* ===================================================================== *)
(** ** The estimates against the content they are made for *)
(* ===================================================================== *)

Lemma wholeMiB_next (S : Z) : 0 <= S -> S < (wholeMiB S + 1) * MiB.
Proof.
  intros H. unfold wholeMiB, MiB.
  pose proof (Z.div_mod S (1024 * 1024) ltac:(lia)).
  pose proof (Z.mod_pos_bound S (1024 * 1024) ltac:(lia)). lia.
Qed.

Lemma part_nonneg (q d : Z) : 0 <= q -> 0 < d -> 0 <= q / d.
Proof. intros. apply Z.div_pos; lia. Qed.

Lemma part_positive (q d : Z) : 0 < d -> d <= q -> 1 <= q / d.
Proof. intros. apply Z.div_le_lower_bound; lia. Qed.

(** The capacity [calculateDirSize] returns for a staged tree that can be
    walked is always larger than the bytes of the files in it: the
    hard-link-safe build never declares an image smaller than its
    content. *)
Theorem lean_capacity_exceeds_content (dir : path) (w : World) (t : Trace) :
  walkable (w_lstat w t dir) = true ->
  0 <= treeSize (w_lstat w t dir) < 2 ^ 63 ->
  exists sizeMB,
    calculateDirSize dir w t = ((sizeMB, None), t)
    /\ treeSize (w_lstat w t dir) < sizeMB * MiB.
Proof.
  intros Hw HS. unfold calculateDirSize. mrun.
  rewrite walkSize_total; [|exact Hw | lia].
  rewrite Z.add_0_l, wrap64_id by lia.
  eexists. split; [reflexivity|].
  rewrite dirSizeOfTotal_eq by exact HS.
  set (S := treeSize (w_lstat w t dir)) in *.
  pose proof (wholeMiB_next S ltac:(lia)) as Hn.
  destruct (wholeMiB_bounds S HS) as [[Hq _] _].
  assert (wholeMiB S + 1 <= Z.max 100 (wholeMiB S + wholeMiB S / 5)) as Hc.
  { destruct (Z_lt_le_dec (wholeMiB S) 5) as [Hs|Hb].
    - lia.
    - pose proof (part_positive (wholeMiB S) 5 ltac:(lia) Hb). lia. }
  unfold MiB in *. nia.
Qed.

Lemma lean_capacity_exceeds_content_witness :
  exists sizeMB,
    calculateDirSize (P "/tmp/safe") (sizeWorld (104 * MiB + 1)) []
    = ((sizeMB, None), [])
    /\ 104 * MiB + 1 < sizeMB * MiB.
Proof.
  apply (lean_capacity_exceeds_content
           (P "/tmp/safe") (sizeWorld (104 * MiB + 1)) []).
  - reflexivity.
  - vm_compute. split; [discriminate | reflexivity].
Defined.

(** The capacity [CreateDMGLikeBash] declares for [S] bytes of content is
    between 200 and 2000 megabytes.  It is larger than the content as long
    as the content is below 2000 MiB; from 2000 MiB on the ceiling applies
    and the declared capacity no longer covers the content. *)
Theorem conservative_capacity_ceiling (S : Z) :
  0 <= S < 2 ^ 63 ->
  200 <= bashSizeOfTotal S <= 2000
  /\ (S < 2000 * MiB -> S < bashSizeOfTotal S * MiB)
  /\ (2000 * MiB <= S ->
      bashSizeOfTotal S = 2000 /\ bashSizeOfTotal S * MiB <= S).
Proof.
  intros HS. rewrite bashSizeOfTotal_eq by exact HS.
  pose proof (wholeMiB_next S ltac:(lia)) as Hn.
  destruct (wholeMiB_bounds S HS) as [[Hq _] _].
  pose proof (part_nonneg (wholeMiB S) 2 Hq ltac:(lia)) as Hh.
  assert (wholeMiB S * MiB <= S) as Hl.
  { unfold wholeMiB, MiB.
    pose proof (Z.div_mod S (1024 * 1024) ltac:(lia)).
    pose proof (Z.mod_pos_bound S (1024 * 1024) ltac:(lia)). lia. }
  split; [lia|]. split.
  - intros Hs.
    assert (wholeMiB S < 2000) as Hq2 by (unfold MiB in *; nia).
    assert (wholeMiB S + 1
            <= Z.min 2000 (Z.max 200 (wholeMiB S + wholeMiB S / 2))) as Hc.
    { destruct (Z_lt_le_dec (wholeMiB S) 2) as [Hs2|Hb].
      - lia.
      - pose proof (part_positive (wholeMiB S) 2 ltac:(lia) Hb). lia. }
    unfold MiB in *. nia.
  - intros Hb.
    assert (2000 <= wholeMiB S) as Hq2 by (unfold MiB in *; nia).
    assert (Z.min 2000 (Z.max 200 (wholeMiB S + wholeMiB S / 2)) = 2000)
      as -> by lia.
    split; [reflexivity | exact Hb].
Qed.

Lemma conservative_capacity_ceiling_witness :
  bashSizeOfTotal (3000 * MiB) = 2000
  /\ bashSizeOfTotal (3000 * MiB) * MiB <= 3000 * MiB.
Proof.
  apply (conservative_capacity_ceiling (3000 * MiB)).
  - vm_compute. split; [discriminate | reflexivity].
  - vm_compute. discriminate.
Defined.

(** A tree [filepath.Walk] traverses to the end, whatever its sizes: every
    entry can be examined and every directory listed. *)
Fixpoint traversable (node : Node) : bool :=
  match node with
  | NFile _ => true
  | NDir readable entries =>
      readable && forallb (fun e => traversable (snd e)) entries
  | NGone => false
  end.

Lemma walkSize_error (node : Node) :
  forall p total,
    traversable node = true <-> snd (walkSize node p total) = None.
Proof.
  induction node as [size| |readable entries IH] using Node_ind';
    intros p total.
  - simpl. tauto.
  - simpl. split; discriminate.
  - destruct readable; [|simpl; split; discriminate].
    cbn [traversable walkSize andb].
    revert total. induction IH as [|[name child] l Hc _ IHl]; intros total.
    + simpl. tauto.
    + specialize (Hc (Join p name) total). simpl in Hc. simpl.
      destruct (walkSize child (Join p name) total) as [total' [e|]].
      * simpl in Hc. destruct (traversable child); simpl.
        -- destruct Hc as [Hc _]. discriminate Hc. reflexivity.
        -- split; discriminate.
      * rewrite (proj2 Hc eq_refl). simpl. apply IHl.
Qed.

(** [calculateDirSize] fails exactly when the walk meets an entry that
    cannot be examined or a directory that cannot be listed; it then
    returns 0 with the error.  Otherwise it returns a capacity of at least
    100 megabytes.  It makes no call either way. *)
Theorem calculateDirSize_fails_iff (dir : path) (w : World) (t : Trace) :
  (traversable (w_lstat w t dir) = true ->
   exists sizeMB,
     calculateDirSize dir w t = ((sizeMB, None), t) /\ 100 <= sizeMB)
  /\ (traversable (w_lstat w t dir) = false ->
      exists e, calculateDirSize dir w t = ((0, Some e), t)).
Proof.
  unfold calculateDirSize. mrun.
  pose proof (walkSize_error (w_lstat w t dir) dir 0) as H.
  destruct (walkSize (w_lstat w t dir) dir 0) as [total [e|]]; simpl in H.
  - split.
    + intros Ht. apply H in Ht. discriminate Ht.
    + intros _. by exists e.
  - split.
    + intros _. eexists. split; [reflexivity|].
      unfold dirSizeOfTotal.
      destruct (Z.ltb_spec (withMargin total f64_0_2) 100); lia.
    + intros Ht. rewrite (proj2 H eq_refl) in Ht. discriminate Ht.
Qed.

Lemma calculateDirSize_fails_iff_witness :
  exists e,
    calculateDirSize (P "/tmp/safe")
      (mkWorld (fun _ _ => ROk []) (fun _ _ => NGone)
               (fun _ _ => NDir true [("App.app", NDir false [])])) []
    = ((0, Some e), []).
Proof.
  apply (calculateDirSize_fails_iff
           (P "/tmp/safe")
           (mkWorld (fun _ _ => ROk []) (fun _ _ => NGone)
                    (fun _ _ => NDir true [("App.app", NDir false [])])) []).
  reflexivity.
Defined.

(* ===================================================================== *)
(** ** Uncompressed images *)
(* ===================================================================== *)

Section PlainBuild.

Variable config : Config.
Variable dir : path.
Variable rest : M error.
Variable w : World.
Variable t : Trace.

Hypothesis rest_extends : extends rest.

Let create : Call :=
  HdiutilCreate (Title config) dir (Format_ config) (P (FileName config)).
Let t1 : Trace := t ++ [(create, w_reply w t create)].
Let now : string :=
  match w_reply w t1 TimeNowUnixNano with
  | ROk out => outStr out
  | RErr _ => ""
  end.
Let tempFileName : path :=
  Join (P (GoString.Dir (FileName config)))
       ("temp_" +:+ now +:+ "_" +:+ GoString.Base (FileName config)).
Let t2 : Trace := t1 ++ [(TimeNowUnixNano, w_reply w t1 TimeNowUnixNano)].
Let rename : Call := OsRename (P (FileName config)) tempFileName.
Let convert : Call := HdiutilConvert tempFileName UDRO (P (FileName config)).

(** When [CreateDMG] or [CreateDMGDirect] is asked for a writable [UDRW]
    image, the image it leaves under the output name is read-only: the
    writable image is renamed to a timestamped temporary name and converted
    to [UDRO] at the output name.  If the rename fails the builder returns
    that error and does not remove anything here; otherwise the renamed
    writable image is removed after everything the builder goes on to do
    with the finished image ([rest]). *)
Theorem writable_image_is_converted :
  Format_ config = UDRW ->
  isOk (w_reply w t create) = true ->
  (forall e,
      w_reply w t2 rename = RErr e ->
      plainBuild config dir rest w t =
      (Some ("failed to rename DMG file: " +:+ e), t2 ++ [(rename, RErr e)]))
  /\ (isOk (w_reply w t2 rename) = true ->
      exists rc more r,
        snd (plainBuild config dir rest w t) =
        t2 ++ (rename, w_reply w t2 rename) :: (convert, rc)
           :: more ++ [(OsRemove tempFileName, r)]).
Proof.
  intros Hf Hc.
  assert (plainBuild config dir rest w t =
          match w_reply w t2 rename with
          | RErr e =>
              (Some ("failed to rename DMG file: " +:+ e),
               t2 ++ [(rename, RErr e)])
          | ROk out =>
              deferring (ignore (call (OsRemove tempFileName)))
                (andThen (wrap "failed to convert DMG: " (callE convert)) rest)
                w (t2 ++ [(rename, ROk out)])
          end) as E.
  { unfold plainBuild. fold create.
    unfold andThen at 1. rewrite bind_eq, wrap_callE_eq. cbn [fst snd].
    fold t1.
    destruct (w_reply w t create) as [out|e0] eqn:Ec; [|discriminate Hc].
    rewrite Hf. change (String.eqb UDRW UDRW) with true. cbv iota.
    unfold timedTempName. rewrite !bind_eq, call_eq. cbn [fst snd ret].
    fold now. fold tempFileName. fold t2.
    rewrite wrap_callE_eq. fold rename. cbn [fst snd].
    destruct (w_reply w t2 rename); reflexivity. }
  rewrite E. split.
  - intros e He. rewrite He. reflexivity.
  - intros Hr. destruct (w_reply w t2 rename) as [out'|e'] eqn:Er;
      [|discriminate Hr].
    rewrite deferring_call_eq. cbn [snd].
    destruct (andThen_callE_trace "failed to convert DMG: " convert rest w
                (t2 ++ [(rename, ROk out')]) rest_extends) as [more E'].
    rewrite E'.
    exists (w_reply w (t2 ++ [(rename, ROk out')]) convert), more.
    eexists. rewrite <- !app_assoc. reflexivity.
Qed.

End PlainBuild.

Lemma writable_image_is_converted_witness :
  exists rc more r,
    snd (plainBuild
           (mkConfig "App.dmg" "App" "" 14 128 640 480 "" []
                     None UDRW "" false false)
           (P "/tmp/src") (ret None) okWorld []) =
    [(HdiutilCreate "App" (P "/tmp/src") UDRW (P "App.dmg"), ROk []);
     (TimeNowUnixNano, okWorld.(w_reply) [] TimeNowUnixNano)]
      ++ (OsRename (P "App.dmg") (Join (P ".") "temp__App.dmg"),
          ROk [])
      :: (HdiutilConvert (Join (P ".") "temp__App.dmg") UDRO
                         (P "App.dmg"), rc)
      :: more ++ [(OsRemove (Join (P ".") "temp__App.dmg"), r)].
Proof.
  apply (writable_image_is_converted
           (mkConfig "App.dmg" "App" "" 14 128 640 480 "" []
                     None UDRW "" false false)
           (P "/tmp/src") (ret None) okWorld [] (extends_ret None)).
  - reflexivity.
  - reflexivity.
  - reflexivity.
Defined.

(* ===================================================================== *)
(** ** The defaults of the configuration *)
(* ===================================================================== *)

Lemma HasSuffix_nonempty (s : string) :
  GoString.HasSuffix s ".dmg" = true -> String.eqb s "" = false.
Proof. destruct s; [discriminate | reflexivity]. Qed.

Lemma normalizeFileName_fixed (config : Config) :
  GoString.HasSuffix (FileName config) ".dmg" = true ->
  normalizeFileName config = config.
Proof.
  intros H. unfold normalizeFileName.
  rewrite (HasSuffix_nonempty _ H), H. reflexivity.
Qed.

(** The defaults [CreateDMG] and [CreateDMGDirect] fill in (log writer,
    file name, format) leave a configuration whose file name ends in
    [.dmg], whose format is set and whose log writer is set; they change
    nothing else, and filling them in a second time changes nothing: a
    name that already ends in [.dmg] never gets a second extension. *)
Theorem defaults_are_stable (config : Config) :
  let config' := normalizeFormat (normalizeFileName (defaultLogWriter config)) in
  normalizeFormat (normalizeFileName (defaultLogWriter config')) = config'
  /\ GoString.HasSuffix (FileName config') ".dmg" = true
  /\ Format_ config' <> ""
  /\ LogWriter config' <> None
  /\ setLogWriter (setFormat (setFileName config' (FileName config))
                             (Format_ config))
                  (LogWriter config)
     = config.
Proof.
  intros config'.
  assert (GoString.HasSuffix (FileName config') ".dmg" = true) as Hs.
  { unfold config', normalizeFormat.
    destruct (String.eqb _ ""); apply normalizeFileName_suffix. }
  assert (Format_ config' <> "") as Hf.
  { apply normalizeFormat_set. }
  assert (LogWriter config' <> None) as Hl.
  { unfold config', normalizeFormat, normalizeFileName, defaultLogWriter.
    destruct (LogWriter config) eqn:E; simpl;
      repeat match goal with
             | |- context [if ?b then _ else _] => destruct b; simpl
             end;
      rewrite ?E; discriminate. }
  split; [|split; [exact Hs | split; [exact Hf | split; [exact Hl|]]]].
  - assert (defaultLogWriter config' = config') as ->.
    { unfold defaultLogWriter. destruct (LogWriter config'); congruence. }
    rewrite (normalizeFileName_fixed _ Hs).
    unfold normalizeFormat. apply String.eqb_neq in Hf. rewrite Hf.
    reflexivity.
  - unfold config', normalizeFormat, normalizeFileName, defaultLogWriter.
    destruct config as [fn ti ic ls cis ww wh bg cs lw fm cl hl oa].
    destruct lw; simpl;
      repeat match goal with
             | |- context [if ?b then _ else _] => destruct b; simpl
             end;
      reflexivity.
Qed.
